(** * ChemistryLib/PhreeqcIO.cpp: coupling of transport solutions with Phreeqc
      MathLib/TemplatePoint.h: points with DIM coordinates

    A shallow embedding of [PhreeqcIO::setAqueousSolutionsOrUpdateProcessSolutions],
    of the script serializer [operator<<(std::ostream&, PhreeqcIO const&)] and of
    the result deserializer [operator>>(std::istream&, PhreeqcIO&)], followed by
    the properties of the coupling that the specification states.

    Conventions of the embedding.
    - [std::size_t] is [N] with the 64-bit wrap-around written out ([size_add]);
      [int] is [Z]; [static_cast<int>] of a size is [static_cast_int].
    - [double] is a type parameter: the deserializer and the serializer never
      compute with doubles.  The pH conversion uses the operations of a
      [FloatOps] instance, [std::log10] and [std::pow] among them, which are
      library functions: its properties are proved for every instance, and
      where one speaks of a tolerance the accuracy of the two functions is a
      hypothesis ([conversion_accurate]).  [real_ops] and [inexact_ops] are
      instances on real values for the examples.  The examples of the
      deserializer run on binary64 ([float]) with [stod_digits].
    - [std::vector] is [list]; [operator[]] out of range, and dereferencing a
      null [std::unique_ptr], are undefined behaviour: outcome [Undefined].
    - [OGS_FATAL] and a failed [assert] abort: outcome [Fatal], which records
      the error and the coupling state reached when the program aborts.
    - an [std::istream] is the text that is still unread; an [std::ostream] is
      the sequence of values inserted into it.
    - a [TemplatePoint<T, DIM>] is a list of DIM coordinates; its
      comparison [operator<] is generic in the order of T; [maxNormDist] is
      embedded for T = double on binary64 ([float]).  [lessEq] is left out:
      the condition of its first test has an unbalanced parenthesis in the
      source. *)

From Stdlib Require Import ZArith NArith String Ascii List Lia Reals Lra.
From Stdlib Require Import Floats Uint63.
From stdpp Require Import base list strings option.

Set Default Proof Using "Type".

(* ================================================================== *)
(** * Part I: the model *)
(* ================================================================== *)

(** ** Machine integers *)

Abbreviation size_t := N (only parsing).

(** [a + b] on [std::size_t]. *)
Definition size_add (a b : size_t) : size_t := ((a + b) mod 2 ^ 64)%N.

(** [static_cast<int>(n)] for a [std::size_t] n (two's complement, 32 bits). *)
Definition static_cast_int (n : size_t) : Z :=
  let r := (Z.of_N n mod 2 ^ 32)%Z in
  if (r <? 2 ^ 31)%Z then r else (r - 2 ^ 32)%Z.

(** ** Enumerations *)

Module ItemType.
Inductive t := pH | pe | Component | EquilibriumPhase | KineticReactant
             | SecondaryVariable.
End ItemType.

Module Status.
Inductive t := SettingAqueousSolutions | UpdatingProcessSolutions.
End Status.

(** ** Aborts and undefined behaviour *)

(** The arguments of each [OGS_FATAL] of the deserializer, and the failed
    [assert]. *)
Inductive Error :=
| ReadResultError (global_id : size_t)
    (* "Error when reading calculation result of Solution %u after the
       reaction." *)
| StodInvalidArgument (token : string) (global_id : size_t) (item_id : Z)
                      (what : string)
    (* "Invalid argument. Could not convert string '%s' to double for
       chemical system %d, column %d. Exception '%s' was thrown." *)
| StodOutOfRange (token : string) (global_id : size_t) (item_id : Z)
                 (what : string)
    (* "Out of range error. Could not convert string '%s' ..." *)
| ElementNotFound (message : string)
    (* BaseLib::findElementOrError *)
| AssertionFailed (expression : string).
    (* assert(expression) *)

Inductive UB := IndexOutOfBounds | NullDereference.

Inductive outcome (S A : Type) : Type :=
| Ok (a : A)
| Fatal (e : Error) (at_abort : S)
| Undefined (u : UB).
Arguments Ok {S A} a.
Arguments Fatal {S A} e at_abort.
Arguments Undefined {S A} u.

Definition obind {S A B} (m : outcome S A) (k : A -> outcome S B) : outcome S B :=
  match m with
  | Ok a => k a
  | Fatal e s => Fatal e s
  | Undefined u => Undefined u
  end.

#[global] Instance outcome_bind {S} : MBind (outcome S) :=
  fun A B k m => obind m k.

(** [v[i]] for a [std::vector]. *)
Definition at_index {S A} (v : list A) (i : nat) : outcome S A :=
  match v !! i with
  | Some x => Ok x
  | None => Undefined IndexOutOfBounds
  end.

(** [v[i] = x] for a [std::vector]. *)
Definition assign_index {S A} (v : list A) (i : nat) (x : A) : outcome S (list A) :=
  if decide (i < length v) then Ok (<[i := x]> v) else Undefined IndexOutOfBounds.

(** The system id an error message names, if it names one. *)
Definition error_system (e : Error) : option size_t :=
  match e with
  | ReadResultError g => Some g
  | StodInvalidArgument _ g _ _ => Some g
  | StodOutOfRange _ g _ _ => Some g
  | ElementNotFound _ => None
  | AssertionFailed _ => None
  end.

(** ** [std::stod] *)

Inductive StodResult (double : Type) :=
| Converted (value : double)
| invalid_argument (what : string)
| out_of_range (what : string).
Arguments Converted {double} value.
Arguments invalid_argument {double} what.
Arguments out_of_range {double} what.

(** ** Floating-point operations used by the pH conversion *)

Class FloatOps (double : Type) := {
  fneg : double -> double;             (* unary minus *)
  flog10 : double -> double;           (* std::log10 *)
  fpow : double -> double -> double;   (* std::pow *)
  ften : double                        (* the int 10 promoted to double *)
}.

(** *** Accuracy of [std::log10] and [std::pow]

    What a property that speaks of a tolerance assumes of the two library
    functions.  [val x] is the real number that the double [x] stands
    for. *)

(** [x] is [y] up to a relative error of at most [u]. *)
Definition approximates (u x y : R) : Prop :=
  exists d : R, (Rabs d <= u)%R /\ x = (y * (1 + d))%R.

Section Accuracy.
Context {double : Type} `{FloatOps double}.
Variable val : double -> R.

(** At the concentration [c], [std::log10 (c)] and [std::pow (10, x)], for
    the [x = -(-log10 c)] that setting and then updating pass to it, are
    right up to the relative error [u] (so neither overflows or underflows),
    and the two unary minus give back the value they started from. *)
Definition conversion_accurate (u : R) (c : double) : Prop :=
  let x := fneg (fneg (flog10 c)) in
  approximates u (val (flog10 c)) (ln (val c) / ln 10) /\
  val x = val (flog10 c) /\
  approximates u (val (fpow ften x)) (Rpower 10 (val x)).

End Accuracy.

(** ** Input stream: the unread text *)

Definition istream := string.

Definition newline : ascii := ascii_of_nat 10.
Definition tab : ascii := ascii_of_nat 9.
Definition space : ascii := ascii_of_nat 32.

(** [in.ignore(std::numeric_limits<std::streamsize>::max(), '\n')]:
    discards characters up to and including the next newline, or up to the
    end of the stream. *)
Fixpoint ignore_line (s : istream) : istream :=
  match s with
  | EmptyString => EmptyString
  | String c s' => if Ascii.eqb c newline then s' else ignore_line s'
  end.

Fixpoint getline_chars (s : istream) : string * istream :=
  match s with
  | EmptyString => (EmptyString, EmptyString)
  | String c s' =>
      if Ascii.eqb c newline then (EmptyString, s')
      else let '(line, rest) := getline_chars s' in (String c line, rest)
  end.

(** [std::getline(in, line)]: fails when no character can be extracted. *)
Definition getline (s : istream) : option (string * istream) :=
  match s with
  | EmptyString => None
  | _ => Some (getline_chars s)
  end.

(** ** Tokenizer: [boost::trim_if] and [boost::algorithm::split] *)

(** [boost::is_any_of("\t ")] *)
Definition is_any_of_tab_space (c : ascii) : bool :=
  Ascii.eqb c tab || Ascii.eqb c space.

Fixpoint trim_left (s : string) : string :=
  match s with
  | EmptyString => EmptyString
  | String c s' => if is_any_of_tab_space c then trim_left s' else s
  end.

Fixpoint trim_right (s : string) : string :=
  match s with
  | EmptyString => EmptyString
  | String c s' =>
      match trim_right s' with
      | EmptyString => if is_any_of_tab_space c then EmptyString
                       else String c EmptyString
      | t => String c t
      end
  end.

Definition trim_if (s : string) : string := trim_right (trim_left s).

(** [boost::algorithm::split(items, line, is_any_of("\t "), token_compress_on)]:
    the pieces between runs of separators; a separator at either end leaves an
    empty piece there, and the empty line gives one empty piece. *)
Fixpoint split_from (after_separator : bool) (s : string) : list string :=
  match s with
  | EmptyString => [EmptyString]
  | String c s' =>
      if is_any_of_tab_space c then
        if after_separator then split_from true s'
        else EmptyString :: split_from true s'
      else
        match split_from false s' with
        | t :: ts => String c t :: ts
        | [] => [String c EmptyString]
        end
  end.

Definition split (s : string) : list string := split_from false s.

(** The tokens of a result row. *)
Definition row_items (line : string) : list string := split (trim_if line).

(** ** Result tables, as text *)

Fixpoint no_newline (s : string) : bool :=
  match s with
  | EmptyString => true
  | String c s' => negb (Ascii.eqb c newline) && no_newline s'
  end.

(** The lines [ls], each with its newline, followed by [rest]. *)
Definition lines_then (ls : list string) (rest : string) : string :=
  foldr (fun l s => l +:+ String newline s) rest ls.

(** The lines the engine writes for one chemical system. *)
Record TableBlock := mkTableBlock {
  skipped : list string;
  data_row : string
}.

Definition block_lines (b : TableBlock) : list string :=
  skipped b ++ [data_row b].

Definition table_lines (header : string) (blocks : list TableBlock)
    : list string :=
  header :: concat (map block_lines blocks).

(** A block with [n] skipped lines, no line containing a newline. *)
Definition block_ok (n : nat) (b : TableBlock) : Prop :=
  length (skipped b) = n /\
  Forall (fun l => no_newline l = true) (skipped b) /\
  no_newline (data_row b) = true.

(** Two rows that have the same number of items and the same item in every
    column that is not dropped. *)
Definition agree_outside (dropped_item_ids : list Z) (row1 row2 : string)
    : Prop :=
  length (row_items row1) = length (row_items row2) /\
  forall i : nat, Z.of_nat i ∉ dropped_item_ids ->
    row_items row1 !! i = row_items row2 !! i.

(** The columns of a row that are not dropped, each with its item;
    [item_id] is the column of the first of [items]. *)
Fixpoint kept_items (dropped_item_ids : list Z) (item_id : Z)
    (items : list string) : list (Z * string) :=
  match items with
  | [] => []
  | item :: rest =>
      if decide (item_id ∈ dropped_item_ids)
      then kept_items dropped_item_ids (item_id + 1) rest
      else (item_id, item) :: kept_items dropped_item_ids (item_id + 1) rest
  end.

(** The fatal error raised for an item that [std::stod] rejects. *)
Definition stod_error {double} (r : StodResult double) (token : string)
    (global_id : size_t) (item_id : Z) : option Error :=
  match r with
  | Converted _ => None
  | invalid_argument what =>
      Some (StodInvalidArgument token global_id item_id what)
  | out_of_range what => Some (StodOutOfRange token global_id item_id what)
  end.

(** The expression of the assertion of the deserializer. *)
Definition size_assertion : string :=
  "accepted_items.size() == output.accepted_items.size()".

(** ** The chemical entity model *)

Section Model.

Context {double : Type}.
(** Classes of PhreeqcIOData whose only use in PhreeqcIO.cpp is to be
    inserted into the output stream. *)
Context {Knobs ReactionRate SurfaceSite PrevSolution : Type}.

(** Modelled from the spec: struct Component (PhreeqcIOData/AqueousSolution.h
    is not under src/): "named species; amount holds a molar/mass
    concentration".  Here and below, only the members that PhreeqcIO.cpp
    reads or writes are kept. *)
Record Component := mkComponent {
  component_name : string;
  component_amount : double
}.

(** Modelled from the spec: struct AqueousSolution (same header): "pH
    (scalar), pe (scalar), components: an ordered sequence of {name, amount}
    pairs". *)
Record AqueousSolution := mkAqueousSolution {
  pH : double;
  pe : double;
  components : list Component
}.

(** Modelled from the spec: struct EquilibriumPhase
    (PhreeqcIOData/EquilibriumPhase.h is not under src/): "configured once
    (name, ...) but owns an amount attribute that is array-valued over all
    systems (one entry per global_id)".  In the code [amount] points to a
    mesh property; each phase is taken to have a property of its own. *)
Record EquilibriumPhase := mkEquilibriumPhase {
  phase_name : string;
  phase_amount : list double
}.

(** Modelled from the spec: struct KineticReactant
    (PhreeqcIOData/KineticReactant.h is not under src/), as
    [EquilibriumPhase]. *)
Record KineticReactant := mkKineticReactant {
  reactant_name : string;
  reactant_amount : list double
}.

(** Modelled from the spec: structs SecondaryVariable and UserPunch
    (PhreeqcIOData/UserPunch.h is not under src/): "zero or more named
    derived quantities computed by the engine; each has an array-valued
    value over all systems". *)
Record SecondaryVariable := mkSecondaryVariable {
  variable_name : string;
  variable_value : list double
}.

Record UserPunch := mkUserPunch {
  secondary_variables : list SecondaryVariable
}.

(** Modelled from the spec: structs OutputItem and Output
    (PhreeqcIOData/Output.h is not under src/): "ordered sequence of
    {name, item_type} entries describing exactly the columns expected in the
    engine's result table, plus a set of raw column positions to be
    dropped". *)
Record OutputItem := mkOutputItem {
  name : string;
  item_type : ItemType.t
}.

Record Output := mkOutput {
  accepted_items : list OutputItem;
  dropped_item_ids : list Z
}.

(** Modelled from the spec: struct Dump (PhreeqcIOData/Dump.h is not under
    src/): "a snapshot of solution state written by the engine at the end of
    a step and re-read at the start of the next; array-valued over
    systems". *)
Record Dump := mkDump {
  aqueous_solutions_prev : list PrevSolution
}.

(** Modelled from the spec: MeshLib::Mesh (MeshLib/Mesh.h is not under
    src/): "only a per-node index mapping is consumed", "an ordered sequence
    of N systems"; [getNumberOfBaseNodes()] and the property vector
    "bulk_node_ids". *)
Record Mesh := mkMesh {
  NumberOfBaseNodes : size_t;
  bulk_node_ids : list size_t
}.

Record PhreeqcIO := mkPhreeqcIO {
  _mesh : Mesh;
  _aqueous_solutions : list AqueousSolution;
  _equilibrium_phases : list EquilibriumPhase;
  _kinetic_reactants : list KineticReactant;
  _reaction_rates : list ReactionRate;
  _surface : list SurfaceSite;
  _user_punch : option UserPunch;       (* std::unique_ptr, may be null *)
  _output : Output;                     (* std::unique_ptr, never tested *)
  _dump : option Dump;                  (* std::unique_ptr, may be null *)
  _knobs : Knobs;
  _dt : double;
  _process_id_to_component_name_map : list (Z * string)
}.

Definition with_aqueous_solutions (io : PhreeqcIO)
    (aqueous_solutions : list AqueousSolution) : PhreeqcIO :=
  mkPhreeqcIO (_mesh io) aqueous_solutions (_equilibrium_phases io)
    (_kinetic_reactants io) (_reaction_rates io) (_surface io)
    (_user_punch io) (_output io) (_dump io) (_knobs io) (_dt io)
    (_process_id_to_component_name_map io).

Definition with_equilibrium_phases (io : PhreeqcIO)
    (equilibrium_phases : list EquilibriumPhase) : PhreeqcIO :=
  mkPhreeqcIO (_mesh io) (_aqueous_solutions io) equilibrium_phases
    (_kinetic_reactants io) (_reaction_rates io) (_surface io)
    (_user_punch io) (_output io) (_dump io) (_knobs io) (_dt io)
    (_process_id_to_component_name_map io).

Definition with_kinetic_reactants (io : PhreeqcIO)
    (kinetic_reactants : list KineticReactant) : PhreeqcIO :=
  mkPhreeqcIO (_mesh io) (_aqueous_solutions io) (_equilibrium_phases io)
    kinetic_reactants (_reaction_rates io) (_surface io)
    (_user_punch io) (_output io) (_dump io) (_knobs io) (_dt io)
    (_process_id_to_component_name_map io).

Definition with_user_punch (io : PhreeqcIO)
    (user_punch : option UserPunch) : PhreeqcIO :=
  mkPhreeqcIO (_mesh io) (_aqueous_solutions io) (_equilibrium_phases io)
    (_kinetic_reactants io) (_reaction_rates io) (_surface io)
    user_punch (_output io) (_dump io) (_knobs io) (_dt io)
    (_process_id_to_component_name_map io).

(** ** Transport vectors *)

(** Modelled from the spec: GlobalVector (MathLib is not under src/):
    "indexed get(global_id) -> double / set(global_id, double)"; an index
    that is out of range is undefined behaviour.  Each process is taken to
    have a vector of its own. *)
Local Abbreviation GlobalVector := (list double).

Definition get {S} (v : GlobalVector) (i : size_t) : outcome S double :=
  at_index v (N.to_nat i).

Definition set {S} (v : GlobalVector) (i : size_t) (x : double)
    : outcome S GlobalVector :=
  assign_index v (N.to_nat i) x.

(** [process_solutions[transport_process_id]] with an [int] index. *)
Definition process_solution {S} (process_solutions : list GlobalVector)
    (transport_process_id : Z) : outcome S GlobalVector :=
  if decide (0 <= transport_process_id)%Z
  then at_index process_solutions (Z.to_nat transport_process_id)
  else Undefined IndexOutOfBounds.

(** [std::find_if(components.begin(), components.end(),
                  [&](Component const& c) { return c.name == variable; })]:
    position and value of the first match. *)
Definition find_component (components : list Component) (variable : string)
    : option (nat * Component) :=
  list_find (fun c => component_name c = variable) components.

Definition set_amount (c : Component) (amount : double) : Component :=
  mkComponent (component_name c) amount.

Definition set_components (s : AqueousSolution) (cs : list Component)
    : AqueousSolution :=
  mkAqueousSolution (pH s) (pe s) cs.

Definition set_pH (s : AqueousSolution) (value : double) : AqueousSolution :=
  mkAqueousSolution value (pe s) (components s).

Definition set_pe (s : AqueousSolution) (value : double) : AqueousSolution :=
  mkAqueousSolution (pH s) value (components s).

(** Entry [global_id] of the transport vector of a process, when there is
    one. *)
Definition cell (process_solutions : list GlobalVector) (p g : nat)
    : option double :=
  match process_solutions !! p with
  | Some v => v !! g
  | None => None
  end.

Definition transport_value (process_solutions : list GlobalVector)
    (transport_process_id : Z) (global_id : size_t) : option double :=
  if decide (0 <= transport_process_id)%Z
  then cell process_solutions (Z.to_nat transport_process_id)
         (N.to_nat global_id)
  else None.

(** ** [PhreeqcIO::setAqueousSolutionsOrUpdateProcessSolutions] *)

Section Transport.
Context `{FloatOps double}.

(** The state the two phases work on: one aqueous solution and the
    transport vectors. *)
Definition TransportState : Type := AqueousSolution * list GlobalVector.

(** The first [switch]: the component named like the transport variable. *)
Definition transfer_component (status : Status.t) (global_id : size_t)
    (transport_process_id : Z) (transport_process_variable : string)
    (st : TransportState) : outcome unit TransportState :=
  let '(aqueous_solution, process_solutions) := st in
  match find_component (components aqueous_solution)
                       transport_process_variable with
  | None => Ok st
  | Some (k, component) =>
      transport_process_solution ←
        process_solution process_solutions transport_process_id;
      match status with
      | Status.SettingAqueousSolutions =>
          amount ← get transport_process_solution global_id;
          Ok (set_components aqueous_solution
                (<[k := set_amount component amount]>
                   (components aqueous_solution)),
              process_solutions)
      | Status.UpdatingProcessSolutions =>
          v ← set transport_process_solution global_id
                  (component_amount component);
          Ok (aqueous_solution,
              <[Z.to_nat transport_process_id := v]> process_solutions)
      end
  end.

(** The second [switch]: the transport variable "H" and the pH value. *)
Definition transfer_hydrogen (status : Status.t) (global_id : size_t)
    (transport_process_id : Z) (transport_process_variable : string)
    (st : TransportState) : outcome unit TransportState :=
  let '(aqueous_solution, process_solutions) := st in
  if decide (transport_process_variable = "H"%string) then
    transport_process_solution ←
      process_solution process_solutions transport_process_id;
    match status with
    | Status.SettingAqueousSolutions =>
        concentration ← get transport_process_solution global_id;
        Ok (set_pH aqueous_solution (fneg (flog10 concentration)),
            process_solutions)
    | Status.UpdatingProcessSolutions =>
        let hydrogen_concentration := fpow ften (fneg (pH aqueous_solution)) in
        v ← set transport_process_solution global_id hydrogen_concentration;
        Ok (aqueous_solution,
            <[Z.to_nat transport_process_id := v]> process_solutions)
    end
  else Ok st.

(** The body of the loop over [_process_id_to_component_name_map]. *)
Definition transfer_element (status : Status.t) (global_id : size_t)
    (element : Z * string) (st : TransportState) : outcome unit TransportState :=
  let '(transport_process_id, transport_process_variable) := element in
  (* auto& transport_process_solution = process_solutions[transport_process_id] *)
  _ ← process_solution (S := unit) (snd st) transport_process_id;
  st ← transfer_component status global_id transport_process_id
         transport_process_variable st;
  transfer_hydrogen status global_id transport_process_id
    transport_process_variable st.

Fixpoint transfer_elements (status : Status.t) (global_id : size_t)
    (map : list (Z * string)) (st : TransportState)
    : outcome unit TransportState :=
  match map with
  | [] => Ok st
  | element :: map' =>
      st ← transfer_element status global_id element st;
      transfer_elements status global_id map' st
  end.

(** The body of the loop over the chemical systems. *)
Definition transfer_system (status : Status.t)
    (chemical_system_map : list size_t) (map : list (Z * string))
    (local_id : nat) (st : list AqueousSolution * list GlobalVector)
    : outcome unit (list AqueousSolution * list GlobalVector) :=
  let '(aqueous_solutions, process_solutions) := st in
  global_id ← at_index chemical_system_map local_id;
  aqueous_solution ← at_index aqueous_solutions local_id;
  '(aqueous_solution, process_solutions) ←
    transfer_elements status global_id map
      (aqueous_solution, process_solutions);
  Ok (<[local_id := aqueous_solution]> aqueous_solutions, process_solutions).

Fixpoint transfer_systems (status : Status.t)
    (chemical_system_map : list size_t) (map : list (Z * string))
    (local_ids : list nat) (st : list AqueousSolution * list GlobalVector)
    : outcome unit (list AqueousSolution * list GlobalVector) :=
  match local_ids with
  | [] => Ok st
  | local_id :: rest =>
      st ← transfer_system status chemical_system_map map local_id st;
      transfer_systems status chemical_system_map map rest st
  end.

Definition setAqueousSolutionsOrUpdateProcessSolutions (io : PhreeqcIO)
    (process_solutions : list GlobalVector) (status : Status.t)
    : outcome unit (PhreeqcIO * list GlobalVector) :=
  let num_chemical_systems := NumberOfBaseNodes (_mesh io) in
  let chemical_system_map := bulk_node_ids (_mesh io) in
  '(aqueous_solutions, process_solutions) ←
    transfer_systems status chemical_system_map
      (_process_id_to_component_name_map io)
      (seq 0 (N.to_nat num_chemical_systems))
      (_aqueous_solutions io, process_solutions);
  Ok (with_aqueous_solutions io aqueous_solutions, process_solutions).

(** *** Reading the result of a transfer *)

(** What an element of the process id map writes, when updating, to the
    entry of its own process at the global id: the value derived from the pH
    for the variable "H", else the amount of the component of that name, else
    nothing. *)
Definition updated_value (var : string) (sol : AqueousSolution)
    (previous : option double) : option double :=
  if decide (var = "H"%string)
  then Some (fpow ften (fneg (pH sol)))
  else match find_component (components sol) var with
       | Some (_, component) => Some (component_amount component)
       | None => previous
       end.

(** The amount of the first component with a given name. *)
Definition amount_of (sol : AqueousSolution) (nm : string) : option double :=
  match find_component (components sol) nm with
  | Some (_, component) => Some (component_amount component)
  | None => None
  end.

(** What setting leaves in the solution of a system with global id [g]:
    the amounts of the bound components and the pH are read from the
    vectors. *)
Definition setting_result (vecs : list GlobalVector)
    (pmap : list (Z * string)) (g : size_t) (sol : AqueousSolution) : Prop :=
  (forall pid var a, (pid, var) ∈ pmap -> amount_of sol var = Some a ->
     cell vecs (Z.to_nat pid) (N.to_nat g) = Some a) /\
  (forall pid, (pid, "H"%string) ∈ pmap ->
     exists x, cell vecs (Z.to_nat pid) (N.to_nat g) = Some x /\
               pH sol = fneg (flog10 x)).

(** The vector of the process of a map element has an entry for [g]. *)
Definition element_sized (lengths : list nat) (g : size_t) (e : Z * string)
    : Prop :=
  (0 <= fst e)%Z /\
  exists len, lengths !! Z.to_nat (fst e) = Some len /\ N.to_nat g < len.

(** The index map and the solutions cover the N systems, and every
    transport vector named in the process id map covers their global ids. *)
Definition transport_sized (io : PhreeqcIO) (vecs : list GlobalVector)
    : Prop :=
  let n := N.to_nat (NumberOfBaseNodes (_mesh io)) in
  n <= length (bulk_node_ids (_mesh io)) /\
  n <= length (_aqueous_solutions io) /\
  Forall (fun g => Forall (element_sized (map length vecs) g)
                     (_process_id_to_component_name_map io))
    (take n (bulk_node_ids (_mesh io))).

End Transport.

(** ** Output stream: the values inserted *)

(** One constructor for each type of value that the serializer inserts.  The
    text produced for the classes of PhreeqcIOData is defined by their own
    [operator<<] or [print], outside PhreeqcIO.cpp. *)
Inductive Insertion :=
| Str (s : string)
| Size (n : size_t)
| Dbl (d : double)
| OfKnobs (k : Knobs)
| OfOutput (o : Output)
| OfUserPunch (u : UserPunch)
| OfReactionRate (r : ReactionRate)
| OfAqueousSolution (a : AqueousSolution)
| OfPrevSolution (p : PrevSolution)
| PrintEquilibriumPhase (p : EquilibriumPhase) (global_id : size_t)
| PrintKineticReactant (k : KineticReactant) (global_id : size_t)
| OfSurfaceSite (s : SurfaceSite)
| PrintDump (d : Dump) (num_chemical_systems : size_t).

Definition ostream := list Insertion.

Definition nl : string := String newline EmptyString.
Definition nlnl : string := String newline (String newline EmptyString).

(** ** [operator<<(std::ostream&, PhreeqcIO const&)] *)

(** What precedes the loop over the chemical systems. *)
Definition insert_preamble (io : PhreeqcIO) : ostream :=
  [OfKnobs (_knobs io); Str nl; OfOutput (_output io); Str nl]
  ++ match _user_punch io with
     | Some user_punch => [OfUserPunch user_punch; Str nl]
     | None => []
     end
  ++ match _reaction_rates io with
     | [] => []
     | reaction_rates =>
         [Str "RATES"; Str nl] ++ map OfReactionRate reaction_rates ++ [Str nl]
     end.

(** The previous aqueous solution, when a dump holds one. *)
Definition insert_previous (io : PhreeqcIO) (local_id : nat)
    : outcome unit ostream :=
  match _dump io with
  | Some dump =>
      match aqueous_solutions_prev dump with
      | [] => Ok []
      | aqueous_solutions_prev =>
          p ← at_index aqueous_solutions_prev local_id;
          Ok [OfPrevSolution p; Str nlnl]
      end
  | None => Ok []
  end.

Definition insert_equilibrium_phases (io : PhreeqcIO) (global_id : size_t)
    : ostream :=
  match _equilibrium_phases io with
  | [] => []
  | equilibrium_phases =>
      [Str "EQUILIBRIUM_PHASES "; Size (size_add global_id 1); Str nl]
      ++ map (fun p => PrintEquilibriumPhase p global_id) equilibrium_phases
      ++ [Str nl]
  end.

Definition insert_kinetics (io : PhreeqcIO) (global_id : size_t) : ostream :=
  match _kinetic_reactants io with
  | [] => []
  | kinetic_reactants =>
      [Str "KINETICS "; Size (size_add global_id 1); Str nl]
      ++ map (fun k => PrintKineticReactant k global_id) kinetic_reactants
      ++ [Str "-steps "; Dbl (_dt io); Str nl; Str nl]
  end.

(** The SURFACE block reads [dump->aqueous_solutions_prev] without testing
    [dump]. *)
Definition insert_surface (io : PhreeqcIO) (num_chemical_systems : size_t)
    (global_id : size_t) : outcome unit ostream :=
  match _surface io with
  | [] => Ok []
  | surface =>
      match _dump io with
      | None => Undefined NullDereference
      | Some dump =>
          let aqueous_solution_id :=
            match aqueous_solutions_prev dump with
            | [] => size_add global_id 1
            | _ => size_add (size_add num_chemical_systems global_id) 1
            end in
          Ok ([Str "SURFACE "; Size (size_add global_id 1); Str nl;
               Str "-equilibrate with solution "; Size aqueous_solution_id;
               Str nl; Str "-sites_units DENSITY"; Str nl]
              ++ map OfSurfaceSite surface
              ++ [Str nl; Str "SAVE solution "; Size (size_add global_id 1);
                  Str nl])
      end
  end.

(** The body of the loop over the chemical systems: what it inserts. *)
Definition insert_system (io : PhreeqcIO) (local_id : nat)
    : outcome unit ostream :=
  let num_chemical_systems := NumberOfBaseNodes (_mesh io) in
  global_id ← at_index (bulk_node_ids (_mesh io)) local_id;
  aqueous_solution ← at_index (_aqueous_solutions io) local_id;
  previous ← insert_previous io local_id;
  surface ← insert_surface io num_chemical_systems global_id;
  Ok ([Str "SOLUTION "; Size (size_add global_id 1); Str nl;
       OfAqueousSolution aqueous_solution; Str nl]
      ++ previous
      ++ [Str "USE solution none"; Str nl; Str "END"; Str nlnl;
          Str "USE solution "; Size (size_add global_id 1); Str nlnl]
      ++ insert_equilibrium_phases io global_id
      ++ insert_kinetics io global_id
      ++ surface
      ++ [Str "END"; Str nlnl]).

Fixpoint insert_systems (io : PhreeqcIO) (local_ids : list nat)
    : outcome unit ostream :=
  match local_ids with
  | [] => Ok []
  | local_id :: rest =>
      block ← insert_system io local_id;
      blocks ← insert_systems io rest;
      Ok (block ++ blocks)
  end.

Definition operator_insert (os : ostream) (io : PhreeqcIO)
    : outcome unit ostream :=
  let num_chemical_systems := NumberOfBaseNodes (_mesh io) in
  systems ← insert_systems io (seq 0 (N.to_nat num_chemical_systems));
  Ok (os ++ insert_preamble io ++ systems
      ++ match _dump io with
         | Some dump => [PrintDump dump num_chemical_systems]
         | None => []
         end).

(** ** [operator>>(std::istream&, PhreeqcIO&)] *)

(** Modelled from the spec: [BaseLib::findElementOrError] (BaseLib/Algorithm.h
    is not under src/): "name lookup fails with a NotFound condition", "a named
    lookup miss is fatal".  The position and value of the first element that
    satisfies the predicate, or a fatal error with the given message. *)
Definition findElementOrError {A} (P : A -> Prop) `{forall x, Decision (P x)}
    (l : list A) (error : string) (io : PhreeqcIO)
    : outcome PhreeqcIO (nat * A) :=
  match list_find P l with
  | Some found => Ok found
  | None => Fatal (ElementNotFound error) io
  end.

Section Extraction.
Variable stod : string -> StodResult double.

(** The first loop over a row: the items that are not dropped, converted.
    [item_id] is the column of the first of [items]. *)
Fixpoint accept_items (dropped_item_ids : list Z) (global_id : size_t)
    (item_id : Z) (items : list string) : Error + list double :=
  match items with
  | [] => inr []
  | item :: rest =>
      if decide (item_id ∈ dropped_item_ids)
      then accept_items dropped_item_ids global_id (item_id + 1) rest
      else
        match stod item with
        | Converted value =>
            match accept_items dropped_item_ids global_id (item_id + 1) rest with
            | inr values => inr (value :: values)
            | inl e => inl e
            end
        | invalid_argument what =>
            inl (StodInvalidArgument item global_id item_id what)
        | out_of_range what =>
            inl (StodOutOfRange item global_id item_id what)
        end
  end.

(** The iterations [0 <= item_id < static_cast<int>(v.size())] visit this
    prefix of v. *)
Definition int_prefix {A} (v : list A) : list A :=
  take (Z.to_nat (static_cast_int (N.of_nat (length v)))) v.

(** The [switch] on the item type. *)
Definition update_item (local_id : nat) (global_id : size_t)
    (accepted_item : OutputItem) (value : double) (io : PhreeqcIO)
    : outcome PhreeqcIO PhreeqcIO :=
  let item_name := name accepted_item in
  match item_type accepted_item with
  | ItemType.pH =>
      aqueous_solution ← at_index (_aqueous_solutions io) local_id;
      Ok (with_aqueous_solutions io
            (<[local_id := set_pH aqueous_solution value]>
               (_aqueous_solutions io)))
  | ItemType.pe =>
      aqueous_solution ← at_index (_aqueous_solutions io) local_id;
      Ok (with_aqueous_solutions io
            (<[local_id := set_pe aqueous_solution value]>
               (_aqueous_solutions io)))
  | ItemType.Component =>
      aqueous_solution ← at_index (_aqueous_solutions io) local_id;
      '(k, component) ←
        findElementOrError (fun c => component_name c = item_name)
          (components aqueous_solution)
          ("Could not find component '" +:+ item_name +:+ "'.") io;
      Ok (with_aqueous_solutions io
            (<[local_id :=
                 set_components aqueous_solution
                   (<[k := set_amount component value]>
                      (components aqueous_solution))]>
               (_aqueous_solutions io)))
  | ItemType.EquilibriumPhase =>
      '(k, equilibrium_phase) ←
        findElementOrError (fun p => phase_name p = item_name)
          (_equilibrium_phases io)
          ("Could not find equilibrium phase '" +:+ item_name +:+ "'.") io;
      amount ← assign_index (phase_amount equilibrium_phase)
                 (N.to_nat global_id) value;
      Ok (with_equilibrium_phases io
            (<[k := mkEquilibriumPhase (phase_name equilibrium_phase) amount]>
               (_equilibrium_phases io)))
  | ItemType.KineticReactant =>
      '(k, kinetic_reactant) ←
        findElementOrError (fun r => reactant_name r = item_name)
          (_kinetic_reactants io)
          ("Could not find kinetic reactant '" +:+ item_name +:+ "'.") io;
      amount ← assign_index (reactant_amount kinetic_reactant)
                 (N.to_nat global_id) value;
      Ok (with_kinetic_reactants io
            (<[k := mkKineticReactant (reactant_name kinetic_reactant) amount]>
               (_kinetic_reactants io)))
  | ItemType.SecondaryVariable =>
      match _user_punch io with
      | None => Fatal (AssertionFailed "user_punch") io
      | Some user_punch =>
          '(k, secondary_variable) ←
            findElementOrError (fun v => variable_name v = item_name)
              (secondary_variables user_punch)
              ("Could not find secondary variable '" +:+ item_name +:+ "'.") io;
          value ← assign_index (variable_value secondary_variable)
                    (N.to_nat global_id) value;
          Ok (with_user_punch io
                (Some (mkUserPunch
                   (<[k := mkSecondaryVariable
                             (variable_name secondary_variable) value]>
                      (secondary_variables user_punch)))))
      end
  end.

(** The second loop over a row; [item_id] is the position of the first of
    [values]. *)
Fixpoint route_items (local_id : nat) (global_id : size_t) (item_id : nat)
    (values : list double) (io : PhreeqcIO) : outcome PhreeqcIO PhreeqcIO :=
  match values with
  | [] => Ok io
  | value :: rest =>
      accepted_item ← at_index (accepted_items (_output io)) item_id;
      io ← update_item local_id global_id accepted_item value io;
      route_items local_id global_id (S item_id) rest io
  end.

(** What the loop body does with the line it has read. *)
Definition read_row (local_id : nat) (global_id : size_t) (line : string)
    (io : PhreeqcIO) : outcome PhreeqcIO PhreeqcIO :=
  let output := _output io in
  let items := row_items line in
  match accept_items (dropped_item_ids output) global_id 0 (int_prefix items) with
  | inl e => Fatal e io
  | inr accepted =>
      if decide (length accepted = length (accepted_items output)) then
        (* auto& aqueous_solution = phreeqc_io._aqueous_solutions[local_id] *)
        _ ← at_index (_aqueous_solutions io) local_id;
        route_items local_id global_id 0 (int_prefix accepted) io
      else
        Fatal (AssertionFailed size_assertion) io
  end.

(** [int const num_skipped_lines = surface.empty() ? 1 : 2;] *)
Definition num_skipped_lines (io : PhreeqcIO) : nat :=
  match _surface io with [] => 1 | _ => 2 end.

(** The loop over the chemical systems. *)
Fixpoint extract_systems (num_skipped_lines : nat)
    (chemical_system_map : list size_t) (local_ids : list nat)
    (input : istream) (io : PhreeqcIO)
    : outcome PhreeqcIO (istream * PhreeqcIO) :=
  match local_ids with
  | [] => Ok (input, io)
  | local_id :: rest =>
      global_id ← at_index chemical_system_map local_id;
      (* Skip equilibrium calculation result of initial solution *)
      let input := Nat.iter num_skipped_lines ignore_line input in
      (* Get calculation result of the solution after the reaction *)
      match getline input with
      | None => Fatal (ReadResultError global_id) io
      | Some (line, input) =>
          io ← read_row local_id global_id line io;
          extract_systems num_skipped_lines chemical_system_map rest input io
      end
  end.

Definition operator_extract (input : istream) (io : PhreeqcIO)
    : outcome PhreeqcIO (istream * PhreeqcIO) :=
  (* Skip the headline *)
  let input := ignore_line input in
  let num_chemical_systems := NumberOfBaseNodes (_mesh io) in
  extract_systems (num_skipped_lines io) (bulk_node_ids (_mesh io))
    (seq 0 (N.to_nat num_chemical_systems)) input io.

(** *** The reading of the specification

    "One header line followed by, per system, a fixed number of skip-lines and
    then exactly one data row": the data rows, one per system in [local_id]
    order, are all that the result depends on. *)
Fixpoint read_rows (chemical_system_map : list size_t) (local_id : nat)
    (rows : list string) (io : PhreeqcIO) : outcome PhreeqcIO PhreeqcIO :=
  match rows with
  | [] => Ok io
  | row :: rest =>
      global_id ← at_index chemical_system_map local_id;
      io ← read_row local_id global_id row io;
      read_rows chemical_system_map (S local_id) rest io
  end.

End Extraction.

(** ** Reading the arrays

    The entry for global id [i] of the array of the first entity with a given
    name in a list, and the array-valued entities of the coupling. *)
Definition named_entry {A} (name_of : A -> string)
    (array_of : A -> list double) (l : list A) (nm : string) (i : nat)
    : option double :=
  match list_find (fun a => name_of a = nm) l with
  | Some (_, a) => array_of a !! i
  | None => None
  end.

Definition is_array (item_type : ItemType.t) : bool :=
  match item_type with
  | ItemType.EquilibriumPhase | ItemType.KineticReactant
  | ItemType.SecondaryVariable => true
  | _ => false
  end.

Definition array_entry (io : PhreeqcIO) (item_type : ItemType.t)
    (nm : string) (i : nat) : option double :=
  match item_type with
  | ItemType.EquilibriumPhase =>
      named_entry phase_name phase_amount (_equilibrium_phases io) nm i
  | ItemType.KineticReactant =>
      named_entry reactant_name reactant_amount (_kinetic_reactants io) nm i
  | ItemType.SecondaryVariable =>
      match _user_punch io with
      | Some user_punch =>
          named_entry variable_name variable_value
            (secondary_variables user_punch) nm i
      | None => None
      end
  | _ => None
  end.

(** ** Reading the script back

    The keys of the lines of a script: the numbers inserted right after a
    given keyword. *)
Fixpoint keys_after (keyword : string) (os : ostream) : list size_t :=
  match os with
  | [] => []
  | Str s :: os' =>
      match os' with
      | Size n :: _ =>
          if String.eqb s keyword then n :: keys_after keyword os'
          else keys_after keyword os'
      | _ => keys_after keyword os'
      end
  | _ :: os' => keys_after keyword os'
  end.

Definition no_size_head (os : ostream) : Prop :=
  match os with Size _ :: _ => False | _ => True end.

Definition is_object (i : Insertion) : Prop :=
  match i with Str _ | Size _ => False | _ => True end.

Definition key_if (keyword s : string) (n : size_t) : list size_t :=
  if String.eqb s keyword then [n] else [].

(** The solution that the SURFACE block equilibrates with. *)
Definition equilibrate_id (io : PhreeqcIO) (g : size_t) : size_t :=
  match _dump io with
  | Some dump =>
      match aqueous_solutions_prev dump with
      | [] => size_add g 1
      | _ => size_add (size_add (NumberOfBaseNodes (_mesh io)) g) 1
      end
  | None => 0
  end.

(** The keys of the block of one system, for any keyword. *)
Definition system_keys (keyword : string) (io : PhreeqcIO) (g : size_t)
    : list size_t :=
  key_if keyword "SOLUTION " (size_add g 1)
  ++ key_if keyword "USE solution " (size_add g 1)
  ++ match _equilibrium_phases io with
     | [] => []
     | _ => key_if keyword "EQUILIBRIUM_PHASES " (size_add g 1)
     end
  ++ match _kinetic_reactants io with
     | [] => []
     | _ => key_if keyword "KINETICS " (size_add g 1)
     end
  ++ match _surface io with
     | [] => []
     | _ => key_if keyword "SURFACE " (size_add g 1)
            ++ key_if keyword "-equilibrate with solution "
                 (equilibrate_id io g)
            ++ key_if keyword "SAVE solution " (size_add g 1)
     end.

(** The vectors indexed by [local_id] have an entry for each of the N systems,
    and a dump is there when surface sites are. *)
Definition well_sized (io : PhreeqcIO) : Prop :=
  let n := N.to_nat (NumberOfBaseNodes (_mesh io)) in
  n <= length (bulk_node_ids (_mesh io)) /\
  n <= length (_aqueous_solutions io) /\
  match _dump io with
  | Some dump =>
      aqueous_solutions_prev dump = [] \/
      n <= length (aqueous_solutions_prev dump)
  | None => _surface io = []
  end.

(** ** Reading a run of the deserializer *)

(** The configuration that the deserializer reads but never writes. *)
Definition same_setup (io io' : PhreeqcIO) : Prop :=
  _mesh io' = _mesh io /\ _output io' = _output io /\
  _surface io' = _surface io /\
  length (_aqueous_solutions io') = length (_aqueous_solutions io).

(** The table as the deserializer sees it: a header line and one block for
    each of the N systems, with 1 skipped line, or 2 with surface sites. *)
Definition table_ok (io : PhreeqcIO) (header : string)
    (blocks : list TableBlock) : Prop :=
  length blocks = N.to_nat (NumberOfBaseNodes (_mesh io)) /\
  no_newline header = true /\
  Forall (block_ok (match _surface io with [] => 1 | _ => 2 end)) blocks.

(** The array entry that an accepted item is routed to. *)
Definition routed_to (item : OutputItem) (g : size_t)
    (ty : ItemType.t) (nm : string) (i : nat) : Prop :=
  ty = item_type item /\ nm = name item /\ i = N.to_nat g.

End Model.

(** ** Instances of the parameters *)

(** The operations of the pH conversion on real values, for the examples.
    [real_ops] reads them as the real functions that [std::log10] and
    [std::pow] approximate: it has no rounding and no overflow, and [ln] of
    a number that is not positive is 0, where [std::log10] gives an infinity
    or NaN.  The examples apply it to positive numbers only, and no property
    of Part II is proved for it alone. *)
#[global] Instance real_ops : FloatOps R := {|
  fneg := Ropp;
  flog10 := fun x => (ln x / ln 10)%R;
  fpow := Rpower;
  ften := 10%R
|}.

(** The same with a relative error of [2^-53] in the results of
    [std::log10] and of [std::pow]: library functions that are close to the
    real functions without being exact. *)
Definition inexact_ops : FloatOps R := {|
  fneg := Ropp;
  flog10 := fun x => (ln x / ln 10 * (1 + / 2 ^ 53))%R;
  fpow := fun x y => (Rpower x y * (1 + / 2 ^ 53))%R;
  ften := 10%R
|}.

(** [std::stod] on the tokens of the examples, in binary64: a token made of
    decimal digits only converts to the integer it denotes, a token that does
    not start a number ("abc") raises [std::invalid_argument].  The examples
    use no other token. *)
Definition digit (c : ascii) : option N :=
  let n := N_of_ascii c in
  if (48 <=? n)%N && (n <=? 57)%N then Some (n - 48)%N else None.

Fixpoint decimal (acc : N) (s : string) : option N :=
  match s with
  | EmptyString => Some acc
  | String c s' =>
      match digit c with
      | Some d => decimal (10 * acc + d)%N s'
      | None => None
      end
  end.

Definition stod_digits (s : string) : StodResult float :=
  match s with
  | EmptyString => invalid_argument "stod"
  | _ =>
      match decimal 0 s with
      | Some n => Converted (PrimFloat.of_uint63 (Uint63.of_Z (Z.of_N n)))
      | None => invalid_argument "stod"
      end
  end.

(** ** Observations of a run

    What is read off a result table, a configuration and a script in the
    further properties. *)

(** The number of lines of a text; a last line need not end with a
    newline. *)
Fixpoint line_count (s : string) : nat :=
  match s with
  | EmptyString => 0
  | String c s' =>
      if Ascii.eqb c newline then S (line_count s')
      else match s' with EmptyString => 1 | _ => line_count s' end
  end.

Section Entries.
Context {double Knobs ReactionRate SurfaceSite PrevSolution : Type}.
Local Abbreviation PhreeqcIO :=
  (@PhreeqcIO double Knobs ReactionRate SurfaceSite PrevSolution).

(** The pH, the pe or the amount of the first component of a given name of
    the aqueous solution at a position. *)
Definition scalar_entry (io : PhreeqcIO) (local_id : nat)
    (item_type : ItemType.t) (nm : string) : option double :=
  match _aqueous_solutions io !! local_id with
  | Some sol =>
      match item_type with
      | ItemType.pH => Some (pH sol)
      | ItemType.pe => Some (pe sol)
      | ItemType.Component => amount_of sol nm
      | _ => None
      end
  | None => None
  end.

(** The place where the value of an item of a given type and name is kept
    for the system at position [local_id] with global id [g]. *)
Definition entry (io : PhreeqcIO) (local_id : nat) (g : N)
    (item_type : ItemType.t) (nm : string) : option double :=
  if is_array item_type then array_entry io item_type nm (N.to_nat g)
  else scalar_entry io local_id item_type nm.

(** The entry that the [switch] of the deserializer writes for an accepted
    item, in the row of the system at [local_id] with global id [g]: the
    scalars of the solution at [local_id], the arrays at [g]. *)
Definition writes_to (item : OutputItem) (local_id : nat) (g : N)
    (local_id' : nat) (g' : N) (ty : ItemType.t) (nm : string) : Prop :=
  ty = item_type item /\
  match ty with
  | ItemType.pH | ItemType.pe => local_id' = local_id
  | ItemType.Component => local_id' = local_id /\ nm = name item
  | _ => g' = g /\ nm = name item
  end.

(** The names and sizes of a list of array-valued entities. *)
Definition array_shape {A} (name_of : A -> string)
    (array_of : A -> list double) (l : list A) : list (string * nat) :=
  map (fun a => (name_of a, length (array_of a))) l.

(** Everything of a configuration but the values that the deserializer
    writes: the names of the components of each solution, the names and sizes
    of the arrays, and the members that hold no chemical state. *)
Definition same_shape (io io' : PhreeqcIO) : Prop :=
  map (fun sol => map component_name (components sol)) (_aqueous_solutions io')
  = map (fun sol => map component_name (components sol)) (_aqueous_solutions io) /\
  array_shape phase_name phase_amount (_equilibrium_phases io')
  = array_shape phase_name phase_amount (_equilibrium_phases io) /\
  array_shape reactant_name reactant_amount (_kinetic_reactants io')
  = array_shape reactant_name reactant_amount (_kinetic_reactants io) /\
  option_map (fun up => array_shape variable_name variable_value
                          (secondary_variables up)) (_user_punch io')
  = option_map (fun up => array_shape variable_name variable_value
                            (secondary_variables up)) (_user_punch io) /\
  _mesh io' = _mesh io /\ _reaction_rates io' = _reaction_rates io /\
  _surface io' = _surface io /\ _output io' = _output io /\
  _dump io' = _dump io /\ _knobs io' = _knobs io /\ _dt io' = _dt io /\
  _process_id_to_component_name_map io' = _process_id_to_component_name_map io.

End Entries.

Section Kept.
Context {double : Type}.

(** What setting the aqueous solutions keeps of a component and of a
    solution, given the names bound in the process id map: the name of every
    component and the pe; the amount of a component whose name is not bound;
    the pH when "H" is not bound. *)
Definition component_kept (names : list string) (c c' : @Component double)
    : Prop :=
  component_name c' = component_name c /\
  (component_name c ∉ names -> component_amount c' = component_amount c).

Definition solution_kept (names : list string)
    (sol sol' : @AqueousSolution double) : Prop :=
  pe sol' = pe sol /\
  ("H"%string ∉ names -> pH sol' = pH sol) /\
  Forall2 (component_kept names) (components sol) (components sol').
End Kept.

(** ** Rows, as text *)

Fixpoint all_blank (s : string) : bool :=
  match s with
  | EmptyString => true
  | String c s' => is_any_of_tab_space c && all_blank s'
  end.

Fixpoint no_blank (s : string) : bool :=
  match s with
  | EmptyString => true
  | String c s' => negb (is_any_of_tab_space c) && no_blank s'
  end.

(** An item of a row: at least one character, neither tab nor space. *)
Definition is_token (t : string) : Prop :=
  t <> EmptyString /\ no_blank t = true.

(** What separates two items: at least one tab or space. *)
Definition is_separator (s : string) : Prop :=
  s <> EmptyString /\ all_blank s = true.

(** The text of a row: a first item and then separators and items in turn,
    between leading and trailing tabs and spaces. *)
Definition row_text (lead first : string) (more : list (string * string))
    (trail : string) : string :=
  lead +:+ first
       +:+ foldr (fun '(sep, item) s => sep +:+ item +:+ s) trail more.

Section ScriptContents.
Context {double Knobs ReactionRate SurfaceSite PrevSolution : Type}.
Local Abbreviation Insertion :=
  (@Insertion double Knobs ReactionRate SurfaceSite PrevSolution).
Local Abbreviation ostream :=
  (@ostream double Knobs ReactionRate SurfaceSite PrevSolution).

(** ** Reading the objects of a script

    The aqueous solutions, the previous solutions, and the calls of [print]
    of the equilibrium phases and of the kinetic reactants with their
    argument, in the order of the script. *)
Definition select_solution (i : Insertion)
    : option (@AqueousSolution double) :=
  match i with OfAqueousSolution a => Some a | _ => None end.

Definition select_previous (i : Insertion) : option PrevSolution :=
  match i with OfPrevSolution p => Some p | _ => None end.

Definition select_phase_print (i : Insertion)
    : option (@EquilibriumPhase double * N) :=
  match i with PrintEquilibriumPhase p g => Some (p, g) | _ => None end.

Definition select_reactant_print (i : Insertion)
    : option (@KineticReactant double * N) :=
  match i with PrintKineticReactant k g => Some (k, g) | _ => None end.

Definition select_double (i : Insertion) : option double :=
  match i with Dbl d => Some d | _ => None end.

Definition select_knobs (i : Insertion) : option Knobs :=
  match i with OfKnobs k => Some k | _ => None end.

Definition select_output (i : Insertion) : option (@Output) :=
  match i with OfOutput o => Some o | _ => None end.

Definition select_user_punch (i : Insertion) : option (@UserPunch double) :=
  match i with OfUserPunch u => Some u | _ => None end.

Definition select_rate (i : Insertion) : option ReactionRate :=
  match i with OfReactionRate r => Some r | _ => None end.

Definition select_dump_print (i : Insertion)
    : option (@Dump PrevSolution * N) :=
  match i with PrintDump d n => Some (d, n) | _ => None end.

Definition solutions_of (os : ostream) : list (@AqueousSolution double) :=
  omap select_solution os.

Definition previous_of (os : ostream) : list PrevSolution :=
  omap select_previous os.

Definition phase_prints (os : ostream)
    : list (@EquilibriumPhase double * N) :=
  omap select_phase_print os.

Definition reactant_prints (os : ostream)
    : list (@KineticReactant double * N) :=
  omap select_reactant_print os.

(** The numbers of type double of a script: the step lengths. *)
Definition steps_of (os : ostream) : list double := omap select_double os.

End ScriptContents.

(** * MathLib/TemplatePoint.h: points with DIM coordinates *)

Section TemplatePoint.
Context {T : Type}.

(** [template <typename T, std::size_t DIM> class TemplatePoint], with its
    member [std::array<T, DIM> _x]: DIM coordinates. *)
Record TemplatePoint (DIM : nat) := mkTemplatePoint {
  _x : list T;
  _x_size : length _x = DIM
}.
Arguments _x {DIM} _.
Arguments _x_size {DIM} _.

(** [operator[] (std::size_t idx)], with its [assert (idx < DIM)]. *)
Definition operator_index {DIM} (p : TemplatePoint DIM) (idx : N)
    : outcome unit T :=
  match _x p !! N.to_nat idx with
  | Some x => Ok x
  | None => Fatal (AssertionFailed "idx < DIM") tt
  end.

(** [a < b] on the coordinate type; [a > b] is [b < a], as for the
    arithmetic types. *)
Variable less : T -> T -> bool.

(** The loop of [operator<], from dimension [i], with [steps] dimensions
    left. *)
Fixpoint operator_less_from {DIM} (a b : TemplatePoint DIM) (i steps : nat)
    : outcome unit bool :=
  match steps with
  | 0 =>
      (* The values in all dimensions are equal. *)
      Ok false
  | S steps' =>
      ai ← operator_index a (N.of_nat i);
      bi ← operator_index b (N.of_nat i);
      if less bi ai then Ok false
      else if less ai bi then Ok true
      else operator_less_from a b (S i) steps'
  end.

(** [operator< (TemplatePoint<T,DIM> const& a, TemplatePoint<T,DIM> const& b)] *)
Definition operator_less {DIM} (a b : TemplatePoint DIM) : outcome unit bool :=
  operator_less_from a b 0 DIM.

(** The lexicographic comparison of two sequences of coordinates. *)
Fixpoint lexicographic (xs ys : list T) : bool :=
  match xs, ys with
  | x :: xs', y :: ys' =>
      if less y x then false
      else if less x y then true
      else lexicographic xs' ys'
  | _, _ => false
  end.

(** The laws of [<] on the integer types. *)
Definition strict_total_order : Prop :=
  (forall x, less x x = false) /\
  (forall x y z, less x y = true -> less y z = true -> less x z = true) /\
  (forall x y, less x y = false -> less y x = false -> x = y).

End TemplatePoint.
Arguments TemplatePoint T DIM : clear implicits.
Arguments mkTemplatePoint {T DIM} _ _.
Arguments _x {T DIM} _.
Arguments _x_size {T DIM} _.

(** [std::max(a, b)] on doubles. *)
Definition fmax (a b : float) : float := if (a <? b)%float then b else a.

(** [maxNormDist (p0, p1)] for [TemplatePoint<double>] (DIM = 3): the
    distance of two points in the maximum norm. *)
Definition maxNormDist (p0 p1 : TemplatePoint float 3) : outcome unit float :=
  p1_0 ← operator_index p1 0;
  p0_0 ← operator_index p0 0;
  let x := abs (p1_0 - p0_0) in
  p1_1 ← operator_index p1 1;
  p0_1 ← operator_index p0 1;
  let y := abs (p1_1 - p0_1) in
  p1_2 ← operator_index p1 2;
  p0_2 ← operator_index p0 2;
  let z := abs (p1_2 - p0_2) in
  Ok (fmax x (fmax y z)).

(** ** Example configurations *)

Section ExampleConfigurations.
Local Open Scope string_scope.

Abbreviation ExampleIO := (@PhreeqcIO float unit unit unit unit).

Definition calcium_solution (ph pe ca : float) : @AqueousSolution float :=
  mkAqueousSolution ph pe [mkComponent "Ca" ca].

(** Two systems whose index map is not the identity, one equilibrium phase;
    column 0 of the result table is dropped. *)
Definition calcite_output : Output :=
  mkOutput [mkOutputItem "pH" ItemType.pH; mkOutputItem "pe" ItemType.pe;
            mkOutputItem "Ca" ItemType.Component;
            mkOutputItem "Calcite" ItemType.EquilibriumPhase] [0%Z].

Definition calcite_io (solutions : list (@AqueousSolution float))
    (calcite : list float) : ExampleIO :=
  mkPhreeqcIO (mkMesh 2 [1; 0]%N) solutions
    [mkEquilibriumPhase "Calcite" calcite] [] [] [] None
    calcite_output None tt 0%float [].

Definition calcite_before : ExampleIO :=
  calcite_io [calcium_solution 0 0 1; calcium_solution 0 0 2]%float
             [0; 0]%float.

Definition calcite_after_first_row : ExampleIO :=
  calcite_io [calcium_solution 7 4 15; calcium_solution 0 0 2]%float
             [0; 5]%float.

Definition calcite_after : ExampleIO :=
  calcite_io [calcium_solution 7 4 15; calcium_solution 8 5 25]%float
             [6; 5]%float.

Definition calcite_header : string := "sim pH pe Ca Calcite".

Definition calcite_blocks : list TableBlock :=
  [mkTableBlock ["1 0 0 0 0"] "1 7 4 15 5";
   mkTableBlock ["1 0 0 0 0"] "1 8 5 25 6"].

(** The same table with other numbers in the dropped column. *)
Definition calcite_blocks_other : list TableBlock :=
  [mkTableBlock ["1 0 0 0 0"] "999 7 4 15 5";
   mkTableBlock ["1 0 0 0 0"] "1000 8 5 25 6"].

(** The row of the second system has an item that is not a number. *)
Definition calcite_blocks_abc : list TableBlock :=
  [mkTableBlock ["1 0 0 0 0"] "1 7 4 15 5";
   mkTableBlock ["1 0 0 0 0"] "1 8 abc 25 6"].

(** The row of the second system is two items short. *)
Definition calcite_blocks_short : list TableBlock :=
  [mkTableBlock ["1 0 0 0 0"] "1 7 4 15 5";
   mkTableBlock ["1 0 0 0 0"] "1 8 5"].

(** One system; the dropped column is the last of the three columns that the
    engine is expected to write. *)
Definition last_dropped_output : Output :=
  mkOutput [mkOutputItem "pH" ItemType.pH; mkOutputItem "pe" ItemType.pe]
           [2%Z].

Definition last_dropped_io (ph pe : float) : ExampleIO :=
  mkPhreeqcIO (mkMesh 1 [0]%N) [calcium_solution ph pe 1%float] [] [] [] []
    None last_dropped_output None tt 0%float [].

Definition calcite_script : @ostream float unit unit unit unit :=
  Eval vm_compute in
    match operator_insert [] calcite_before with
    | Ok os => os
    | _ => []
    end.

(** Two systems with surface sites, a permuted index map, and a dump that
    holds (or does not hold) the solutions of the previous step. *)
Definition surface_io (dump : option (@Dump unit)) : ExampleIO :=
  mkPhreeqcIO (mkMesh 2 [1; 0]%N)
    [calcium_solution 7 4 1; calcium_solution 7 4 2]%float
    [mkEquilibriumPhase "Calcite" [0; 0]%float]
    [mkKineticReactant "Pyrite" [0; 0]%float] [] [tt] None
    calcite_output dump tt 0%float [].

(** Two systems with a permuted index map and two transport processes;
    process 0 carries "H".  The values are real numbers. *)
Abbreviation RealIO := (@PhreeqcIO R unit unit unit unit).

Definition hydrogen_solution (ph h ca : R) : @AqueousSolution R :=
  mkAqueousSolution ph 0%R [mkComponent "H" h; mkComponent "Ca" ca].

Definition transport_io : RealIO :=
  mkPhreeqcIO (mkMesh 2 [1; 0]%N)
    [hydrogen_solution 7 1 2; hydrogen_solution 8 3 4]%R [] [] [] [] None
    (mkOutput [] []) None tt 0%R [(0%Z, "H"); (1%Z, "Ca")].

Definition transport_vectors : list (list R) := [[2; 3]; [5; 7]]%R.

(** The same with "H" and "Ca" bound to the vector of one process. *)
Definition shared_vector_io : RealIO :=
  mkPhreeqcIO (mkMesh 2 [1; 0]%N)
    [hydrogen_solution 7 1 2; hydrogen_solution 8 3 4]%R [] [] [] [] None
    (mkOutput [] []) None tt 0%R [(0%Z, "H"); (0%Z, "Ca")].

(** The script of the configuration with surface sites and a dump that holds
    previous solutions. *)
Definition surface_script : @ostream float unit unit unit unit :=
  Eval vm_compute in
    match operator_insert [] (surface_io (Some (mkDump [tt; tt]))) with
    | Ok os => os
    | _ => []
    end.

(** [std::stod] on the tokens of the examples with real values. *)
Definition stod_real (s : string) : StodResult R :=
  match s with
  | EmptyString => invalid_argument "stod"
  | _ =>
      match decimal 0 s with
      | Some n => Converted (IZR (Z.of_N n))
      | None => invalid_argument "stod"
      end
  end.

(** The transport example with an output that accepts the pH and the pe;
    column 0 of the result table is dropped. *)
Definition coupled_io (ph0 pe0 ph1 pe1 : R) : RealIO :=
  mkPhreeqcIO (mkMesh 2 [1; 0]%N)
    [mkAqueousSolution ph0 pe0 [mkComponent "H" 1%R; mkComponent "Ca" 2%R];
     mkAqueousSolution ph1 pe1 [mkComponent "H" 3%R; mkComponent "Ca" 4%R]]
    [] [] [] [] None
    (mkOutput [mkOutputItem "pH" ItemType.pH; mkOutputItem "pe" ItemType.pe]
              [0%Z])
    None tt 0%R [(0%Z, "H"); (1%Z, "Ca")].

Definition coupled_blocks : list TableBlock :=
  [mkTableBlock ["1 0 0"] "1 7 4"; mkTableBlock ["1 0 0"] "1 8 5"].

(** Points with integer coordinates. *)
Definition point_1_2_3 : TemplatePoint Z 3 :=
  mkTemplatePoint [1; 2; 3]%Z eq_refl.
Definition point_1_2_4 : TemplatePoint Z 3 :=
  mkTemplatePoint [1; 2; 4]%Z eq_refl.
Definition point_1_3_0 : TemplatePoint Z 3 :=
  mkTemplatePoint [1; 3; 0]%Z eq_refl.

End ExampleConfigurations.

(* ================================================================== *)
(** * Part II: properties *)
(* ================================================================== *)

(** ** Lines of text *)

Lemma ignore_line_line (l rest : string) :
  no_newline l = true -> ignore_line (l +:+ String newline rest) = rest.
Proof.
  induction l as [|c l IH]; simpl.
  - reflexivity.
  - intros [Hc Hl]%andb_prop. destruct (Ascii.eqb c newline); [discriminate|].
    auto.
Qed.

Lemma getline_chars_line (l rest : string) :
  no_newline l = true -> getline_chars (l +:+ String newline rest) = (l, rest).
Proof.
  induction l as [|c l IH]; simpl.
  - reflexivity.
  - intros [Hc Hl]%andb_prop. destruct (Ascii.eqb c newline); [discriminate|].
    rewrite IH by assumption. reflexivity.
Qed.

Lemma getline_line (l rest : string) :
  no_newline l = true -> getline (l +:+ String newline rest) = Some (l, rest).
Proof.
  intros Hl. unfold getline.
  rewrite getline_chars_line by assumption. destruct l; reflexivity.
Qed.

Lemma lines_then_app (ls1 ls2 : list string) (rest : string) :
  lines_then (ls1 ++ ls2) rest = lines_then ls1 (lines_then ls2 rest).
Proof. unfold lines_then. apply foldr_app. Qed.

Lemma ignore_lines (ls : list string) (rest : string) :
  Forall (fun l => no_newline l = true) ls ->
  Nat.iter (length ls) ignore_line (lines_then ls rest) = rest.
Proof.
  induction 1 as [|l ls Hl _ IH].
  - reflexivity.
  - change (length (l :: ls)) with (S (length ls)).
    rewrite Nat.iter_succ_r.
    change (lines_then (l :: ls) rest)
      with (l +:+ String newline (lines_then ls rest)).
    rewrite ignore_line_line by assumption. exact IH.
Qed.

(** ** Dropped columns *)

Lemma kept_items_column dropped : forall items c col token,
  (col, token) ∈ kept_items dropped c items ->
  (c <= col)%Z /\ (col ∉ dropped) /\ items !! Z.to_nat (col - c) = Some token.
Proof.
  induction items as [|t items IH]; intros c col token; cbn [kept_items].
  - intros Hin. inversion Hin.
  - assert (Hrest : (col, token) ∈ kept_items dropped (c + 1) items ->
      (c <= col)%Z /\ (col ∉ dropped) /\
      (t :: items) !! Z.to_nat (col - c) = Some token).
    { intros Hin. destruct (IH _ _ _ Hin) as (Hle & Hout & Hlook).
      split; [lia|]. split; [exact Hout|].
      replace (Z.to_nat (col - c)) with (S (Z.to_nat (col - (c + 1)))) by lia.
      exact Hlook. }
    destruct (decide (c ∈ dropped)) as [Hd|Hd]; [exact Hrest|].
    intros [[= -> ->]|Hin]%elem_of_cons; [|exact (Hrest Hin)].
    split; [lia|]. split; [exact Hd|]. rewrite Z.sub_diag. reflexivity.
Qed.

Lemma int_prefix_small {A} (v : list A) :
  (Z.of_nat (length v) < 2 ^ 31)%Z -> int_prefix v = v.
Proof.
  intros Hsmall. unfold int_prefix, static_cast_int.
  rewrite nat_N_Z, Z.mod_small by lia.
  destruct (Z.ltb_spec (Z.of_nat (length v)) (2 ^ 31)); [|lia].
  rewrite Nat2Z.id. apply take_ge. lia.
Qed.

Lemma kept_items_ext dropped1 dropped2 : forall items c,
  (forall z, (c <= z)%Z -> z ∈ dropped1 <-> z ∈ dropped2) ->
  kept_items dropped1 c items = kept_items dropped2 c items.
Proof.
  induction items as [|t items IH]; intros c Hsame; [reflexivity|].
  cbn [kept_items]. rewrite (IH (c + 1)%Z) by (intros z Hz; apply Hsame; lia).
  destruct (decide (c ∈ dropped1)) as [H1|H1], (decide (c ∈ dropped2)) as [H2|H2];
    try reflexivity; exfalso; apply (Hsame c) in H1 || apply (Hsame c) in H2;
    try lia; contradiction.
Qed.

Lemma kept_items_length_le dropped : forall items c,
  length (kept_items dropped c items) <= length items.
Proof.
  induction items as [|t items IH]; intros c; cbn [kept_items]; [reflexivity|].
  specialize (IH (c + 1)%Z). destruct (decide (c ∈ dropped)); cbn [length]; lia.
Qed.

(** When the dropped columns are distinct columns of the row, dropping
    them removes as many items as there are dropped columns. *)
Lemma kept_items_count : forall items c dropped,
  NoDup dropped ->
  (forall d, d ∈ dropped -> (c <= d < c + Z.of_nat (length items))%Z) ->
  length (kept_items dropped c items) + length dropped = length items.
Proof.
  induction items as [|t items IH]; intros c dropped Hnodup Hrange.
  - destruct dropped as [|d dropped]; [reflexivity|].
    specialize (Hrange d (list_elem_of_here _ _)). simpl in Hrange. lia.
  - cbn [kept_items]. destruct (decide (c ∈ dropped)) as [Hin|Hout].
    + apply list_elem_of_split in Hin as (l1 & l2 & ->).
      apply list.NoDup_app in Hnodup as (Hl1 & Hl1l2 & Hl2).
      apply list.NoDup_cons in Hl2 as (Hcl2 & Hl2).
      assert (Hcl1 : c ∉ l1).
      { intros Hc. apply (Hl1l2 _ Hc). left. }
      rewrite (kept_items_ext _ (l1 ++ l2)).
      * specialize (IH (c + 1)%Z (l1 ++ l2)).
        rewrite !length_app in *. cbn [length] in *.
        rewrite <- IH; [lia| |].
        { apply list.NoDup_app. split; [exact Hl1|]. split; [|exact Hl2].
          intros x Hx1 Hx2. apply (Hl1l2 _ Hx1). right. exact Hx2. }
        { intros d Hd. assert (d <> c).
          { intros ->. apply elem_of_app in Hd as [?|?]; contradiction. }
          assert (d ∈ l1 ++ c :: l2).
          { apply elem_of_app in Hd as [?|?]; apply elem_of_app;
              [left|right; right]; assumption. }
          specialize (Hrange d H0). lia. }
      * intros z Hz. rewrite !elem_of_app, elem_of_cons.
        split; [intros [?|[->|?]]; [left|lia|right]; assumption | tauto].
    + cbn [length]. rewrite <- (IH (c + 1)%Z dropped Hnodup); [lia|].
      intros d Hd. specialize (Hrange d Hd). cbn [length] in Hrange.
      assert (d <> c) by (intros ->; contradiction). lia.
Qed.

(** ** The result deserializer *)

Lemma Ok_inj {S A} (a b : A) : @Ok S A a = Ok b -> a = b.
Proof. congruence. Qed.

Ltac outcome_cases :=
  unfold mbind, outcome_bind, obind, at_index, assign_index,
    findElementOrError in *;
  repeat (case_match; simplify_eq; try done).

Section Deserializer.
Context {double Knobs ReactionRate SurfaceSite PrevSolution : Type}.
Local Abbreviation PhreeqcIO :=
  (@PhreeqcIO double Knobs ReactionRate SurfaceSite PrevSolution).
Variable stod : string -> StodResult double.
Implicit Types (io : PhreeqcIO) (m : list N) (blocks : list TableBlock).

(** On a table made of blocks, the loop over the systems reads the data rows
    and nothing else, and leaves what follows the table unread. *)
Lemma extract_systems_blocks n m blocks : forall k rest io,
  Forall (block_ok n) blocks ->
  extract_systems stod n m (seq k (length blocks))
    (lines_then (concat (map block_lines blocks)) rest) io
  = (read_rows stod m k (map data_row blocks) io ≫= fun io' => Ok (rest, io')).
Proof.
  induction blocks as [|b blocks IH]; intros k rest io Hok.
  - reflexivity.
  - inversion Hok as [|? ? (Hlen & Hsk & Hrow) Hrest]; subst.
    cbn [length seq map concat extract_systems read_rows].
    unfold mbind, outcome_bind.
    destruct (at_index m k) as [g| |]; cbn [obind]; try reflexivity.
    unfold block_lines. rewrite !lines_then_app.
    rewrite ignore_lines by assumption.
    change (lines_then [data_row b] ?r) with (data_row b +:+ String newline r).
    rewrite getline_line by assumption.
    destruct (read_row stod k g (data_row b) io) as [io'| |]; cbn [obind];
      try reflexivity.
    apply IH; assumption.
Qed.

(** *** The first loop over a row *)

Lemma accept_items_agree dropped g : forall items1 items2 c,
  length items1 = length items2 ->
  (forall i : nat, (c + Z.of_nat i)%Z ∉ dropped -> items1 !! i = items2 !! i) ->
  accept_items stod dropped g c items1 = accept_items stod dropped g c items2.
Proof.
  induction items1 as [|t1 items1 IH]; intros [|t2 items2] c Hlen Hagree;
    try discriminate; [reflexivity|].
  assert (IH' : accept_items stod dropped g (c + 1) items1
                = accept_items stod dropped g (c + 1) items2).
  { apply IH; [simpl in Hlen; lia|]. intros i Hi. apply (Hagree (S i)).
    replace (c + Z.of_nat (S i))%Z with (c + 1 + Z.of_nat i)%Z by lia.
    exact Hi. }
  cbn [accept_items]. destruct (decide (c ∈ dropped)) as [Hin|Hout].
  - exact IH'.
  - specialize (Hagree 0%nat). rewrite Z.add_0_r in Hagree.
    specialize (Hagree Hout). injection Hagree as ->. rewrite IH'. reflexivity.
Qed.

Lemma accept_items_converted dropped g : forall items c values,
  accept_items stod dropped g c items = inr values ->
  Forall2 (fun kept value => stod (snd kept) = Converted value)
    (kept_items dropped c items) values.
Proof.
  induction items as [|t items IH]; intros c values; cbn [accept_items kept_items].
  - intros [= <-]. constructor.
  - destruct (decide (c ∈ dropped)); [apply IH|].
    destruct (stod t) as [v|what|what] eqn:Ht; try discriminate.
    destruct (accept_items stod dropped g (c + 1) items) as [e|vs] eqn:Hrest;
      try discriminate.
    intros [= <-]. constructor; [exact Ht | apply IH; exact Hrest].
Qed.

Lemma accept_items_rejected dropped g : forall items c e,
  accept_items stod dropped g c items = inl e ->
  exists col token,
    (col, token) ∈ kept_items dropped c items /\
    stod_error (stod token) token g col = Some e.
Proof.
  induction items as [|t items IH]; intros c e; cbn [accept_items kept_items].
  - discriminate.
  - destruct (decide (c ∈ dropped)); [apply IH|].
    destruct (stod t) as [v|what|what] eqn:Ht.
    + destruct (accept_items stod dropped g (c + 1) items) as [e'|vs] eqn:Hrest;
        try discriminate.
      intros [= <-]. destruct (IH _ _ Hrest) as (col & token & Hin & He).
      exists col, token. split; [right; exact Hin | exact He].
    + intros [= <-]. exists c, t. split; [left|]. rewrite Ht. reflexivity.
    + intros [= <-]. exists c, t. split; [left|]. rewrite Ht. reflexivity.
Qed.

(** A kept item that does not convert stops the loop, at the first such
    item. *)
Lemma accept_items_first_rejected dropped g : forall items c col token,
  (col, token) ∈ kept_items dropped c items ->
  stod_error (stod token) token g col <> None ->
  exists col' token' e,
    (col', token') ∈ kept_items dropped c items /\ (col' <= col)%Z /\
    stod_error (stod token') token' g col' = Some e /\
    accept_items stod dropped g c items = inl e.
Proof.
  induction items as [|t items IH]; intros c col token;
    cbn [accept_items kept_items].
  - intros Hin. inversion Hin.
  - destruct (decide (c ∈ dropped)) as [Hd|Hd]; [apply IH|].
    intros Hin Hbad. destruct (stod t) as [v|what|what] eqn:Ht.
    + apply elem_of_cons in Hin as [[= -> ->]|Hin].
      { rewrite Ht in Hbad. contradiction. }
      destruct (IH _ _ _ Hin Hbad) as (col' & token' & e & Hin' & Hle & He & Hacc).
      exists col', token', e. rewrite Hacc.
      split; [right; exact Hin'|]. auto.
    + exists c, t, (StodInvalidArgument t g c what).
      split; [left|]. rewrite Ht.
      apply elem_of_cons in Hin as [[= -> ->]|Hin]; [split; [lia|auto]|].
      apply kept_items_column in Hin. split; [lia|auto].
    + exists c, t, (StodOutOfRange t g c what).
      split; [left|]. rewrite Ht.
      apply elem_of_cons in Hin as [[= -> ->]|Hin]; [split; [lia|auto]|].
      apply kept_items_column in Hin. split; [lia|auto].
Qed.

(** *** What a row leaves unchanged *)

Lemma same_setup_refl io : same_setup io io.
Proof. repeat split. Qed.

Lemma same_setup_trans io1 io2 io3 :
  same_setup io1 io2 -> same_setup io2 io3 -> same_setup io1 io3.
Proof.
  intros (? & ? & ? & ?) (? & ? & ? & ?). repeat split; congruence.
Qed.

Lemma update_item_setup k g item value io io' :
  update_item k g item value io = Ok io' -> same_setup io io'.
Proof.
  unfold update_item. intros Hup. outcome_cases;
    repeat split; cbn; rewrite ?length_insert; reflexivity.
Qed.

Lemma update_item_fatal k g item value io e io' :
  update_item k g item value io = Fatal e io' -> io' = io.
Proof. unfold update_item. intros Hup. outcome_cases. Qed.

Lemma route_items_setup k g : forall values c io io',
  route_items k g c values io = Ok io' -> same_setup io io'.
Proof.
  induction values as [|v values IH]; intros c io io'; cbn [route_items].
  - intros [= <-]. apply same_setup_refl.
  - unfold mbind, outcome_bind, obind.
    destruct (at_index _ c) as [item| |]; try discriminate.
    destruct (update_item k g item v io) as [io1| |] eqn:Hup; try discriminate.
    intros Hrest. eapply same_setup_trans;
      [eapply update_item_setup; exact Hup | eapply IH; exact Hrest].
Qed.

Lemma read_row_setup k g line io io' :
  read_row stod k g line io = Ok io' -> same_setup io io'.
Proof.
  unfold read_row. destruct (accept_items _ _ _ _ _); [discriminate|].
  case_decide; [|discriminate].
  unfold mbind, outcome_bind, obind. destruct (at_index _ k); try discriminate.
  apply route_items_setup.
Qed.

Lemma read_rows_setup m : forall rows k io io',
  read_rows stod m k rows io = Ok io' -> same_setup io io'.
Proof.
  induction rows as [|row rows IH]; intros k io io'; cbn [read_rows].
  - intros [= <-]. apply same_setup_refl.
  - unfold mbind, outcome_bind, obind.
    destruct (at_index m k) as [g| |]; try discriminate.
    destruct (read_row stod k g row io) as [io1| |] eqn:Hrow; try discriminate.
    intros Hrest. eapply same_setup_trans;
      [eapply read_row_setup; exact Hrow | eapply IH; exact Hrest].
Qed.

(** *** Reading a table up to a given row *)

Lemma read_rows_app m : forall rows1 rows2 k io,
  read_rows stod m k (rows1 ++ rows2) io
  = (read_rows stod m k rows1 io
       ≫= read_rows stod m (k + length rows1) rows2).
Proof.
  induction rows1 as [|row rows1 IH]; intros rows2 k io.
  - cbn. rewrite Nat.add_0_r. reflexivity.
  - cbn [app read_rows length]. unfold mbind, outcome_bind, obind.
    destruct (at_index m k) as [g| |]; try reflexivity.
    destruct (read_row stod k g row io) as [io1| |]; try reflexivity.
    rewrite IH. unfold mbind, outcome_bind, obind.
    replace (k + S (length rows1)) with (S k + length rows1) by lia.
    reflexivity.
Qed.

Lemma operator_extract_table io header blocks rest :
  table_ok io header blocks ->
  operator_extract stod (lines_then (table_lines header blocks) rest) io
  = (read_rows stod (bulk_node_ids (_mesh io)) 0 (map data_row blocks) io
       ≫= fun io' => Ok (rest, io')).
Proof.
  intros (Hlen & Hheader & Hblocks). unfold operator_extract, table_lines.
  change (lines_then (header :: ?ls) rest)
    with (header +:+ String newline (lines_then ls rest)).
  rewrite ignore_line_line by assumption. rewrite <- Hlen.
  apply extract_systems_blocks. exact Hblocks.
Qed.

(** If the rows before row [k] are read and row [k] aborts, the run aborts
    there, in the state that row [k] aborted in. *)
Lemma operator_extract_abort io header blocks rest k b g io_k e io_abort :
  table_ok io header blocks ->
  blocks !! k = Some b ->
  bulk_node_ids (_mesh io) !! k = Some g ->
  read_rows stod (bulk_node_ids (_mesh io)) 0 (map data_row (take k blocks)) io
    = Ok io_k ->
  read_row stod k g (data_row b) io_k = Fatal e io_abort ->
  operator_extract stod (lines_then (table_lines header blocks) rest) io
    = Fatal e io_abort.
Proof.
  intros Hok Hb Hg Hbefore Hrow.
  rewrite operator_extract_table by assumption.
  rewrite <- (take_drop_middle blocks k b Hb), map_app, read_rows_app.
  rewrite Hbefore. unfold mbind at 2, outcome_bind, obind.
  rewrite length_map, length_take_le
    by (apply lookup_lt_Some in Hb; lia).
  cbn [map read_rows plus]. unfold at_index. rewrite Hg.
  unfold mbind, outcome_bind, obind. rewrite Hrow. reflexivity.
Qed.

(** *** One row *)

Lemma read_row_agree k g row1 row2 io :
  agree_outside (dropped_item_ids (_output io)) row1 row2 ->
  read_row stod k g row1 io = read_row stod k g row2 io.
Proof.
  intros (Hlen & Hsame). unfold read_row.
  rewrite (accept_items_agree _ _ (int_prefix (row_items row1))
             (int_prefix (row_items row2))); [reflexivity| |].
  - unfold int_prefix. rewrite !length_take, Hlen. reflexivity.
  - intros i Hi. unfold int_prefix. rewrite Hlen, !lookup_take.
    case_decide; [|reflexivity]. apply Hsame. exact Hi.
Qed.

(** A row whose number of kept items is not the number of accepted items of
    the output aborts before anything is written. *)
Lemma read_row_arity k g line io :
  let items := row_items line in
  let dropped := dropped_item_ids (_output io) in
  (Z.of_nat (length items) < 2 ^ 31)%Z ->
  length (kept_items dropped 0 items) <> length (accepted_items (_output io)) ->
  exists e, read_row stod k g line io = Fatal e io /\
    ((exists col token, (col, token) ∈ kept_items dropped 0 items /\
        stod_error (stod token) token g col = Some e) \/
     e = AssertionFailed size_assertion).
Proof.
  intros items dropped Hsmall Hcount. unfold read_row.
  fold items. rewrite (int_prefix_small items) by assumption. fold dropped.
  destruct (accept_items stod dropped g 0 items) as [e|values] eqn:Hacc.
  - exists e. split; [reflexivity|]. left.
    apply accept_items_rejected in Hacc. exact Hacc.
  - apply accept_items_converted, Forall2_length in Hacc.
    case_decide; [congruence|].
    eexists. split; [reflexivity|]. right. reflexivity.
Qed.

(** A kept item that [std::stod] rejects aborts the row before anything is
    written, with the error of the first such item. *)
Lemma read_row_rejected k g line io col token :
  let items := row_items line in
  let dropped := dropped_item_ids (_output io) in
  (Z.of_nat (length items) < 2 ^ 31)%Z ->
  (col, token) ∈ kept_items dropped 0 items ->
  stod_error (stod token) token g col <> None ->
  exists col' token' e,
    (col', token') ∈ kept_items dropped 0 items /\ (col' <= col)%Z /\
    stod_error (stod token') token' g col' = Some e /\
    read_row stod k g line io = Fatal e io.
Proof.
  intros items dropped Hsmall Hin Hbad. unfold read_row.
  fold items. rewrite (int_prefix_small items) by assumption. fold dropped.
  destruct (accept_items_first_rejected dropped g items 0 col token Hin Hbad)
    as (col' & token' & e & Hin' & Hle & He & Hacc).
  exists col', token', e. rewrite Hacc. auto.
Qed.

Lemma read_rows_agree m dropped : forall rows1 rows2 k io,
  dropped_item_ids (_output io) = dropped ->
  Forall2 (agree_outside dropped) rows1 rows2 ->
  read_rows stod m k rows1 io = read_rows stod m k rows2 io.
Proof.
  intros rows1 rows2 k io Hd Hagree. revert k io Hd.
  induction Hagree as [|row1 row2 rows1 rows2 Hrow _ IH]; intros k io Hd;
    [reflexivity|].
  cbn [read_rows]. unfold mbind, outcome_bind, obind.
  destruct (at_index m k) as [g| |]; try reflexivity.
  rewrite (read_row_agree k g row1 row2) by (rewrite Hd; exact Hrow).
  destruct (read_row stod k g row2 io) as [io'| |] eqn:Hread; try reflexivity.
  apply IH. apply read_row_setup in Hread as (_ & -> & _). exact Hd.
Qed.

(** *** The properties of the deserializer *)

(** C7: reading a result file, the deserializer skips exactly one header
    line and then, for each of the N systems in [local_id] order, skips
    exactly 1 line when no surface site is configured and exactly 2 lines
    otherwise, and reads exactly one data row: on a header, N blocks of that
    many skipped lines and one row each, and any further text, the outcome is
    that of reading the N data rows in order, and the further text is left
    unread. *)
Theorem extract_reads_one_row_per_system io header blocks rest :
  length blocks = N.to_nat (NumberOfBaseNodes (_mesh io)) ->
  no_newline header = true ->
  Forall (block_ok (match _surface io with [] => 1 | _ => 2 end)) blocks ->
  operator_extract stod (lines_then (table_lines header blocks) rest) io
  = (read_rows stod (bulk_node_ids (_mesh io)) 0 (map data_row blocks) io
       ≫= fun io' => Ok (rest, io')).
Proof.
  intros Hlen Hheader Hblocks. apply operator_extract_table.
  split; [exact Hlen|]. split; [exact Hheader | exact Hblocks].
Qed.

(** C6: two result tables whose data rows have the same number of items and
    the same item in every column that is not in the drop-set give the same
    outcome, whatever the items in the dropped columns are: the same entity
    states on success, the same abort otherwise. *)
Theorem dropped_columns_do_not_matter io header1 header2 blocks1 blocks2 rest :
  table_ok io header1 blocks1 ->
  table_ok io header2 blocks2 ->
  Forall2 (fun b1 b2 => agree_outside (dropped_item_ids (_output io))
                          (data_row b1) (data_row b2)) blocks1 blocks2 ->
  operator_extract stod (lines_then (table_lines header1 blocks1) rest) io
  = operator_extract stod (lines_then (table_lines header2 blocks2) rest) io.
Proof.
  intros Hok1 Hok2 Hagree. rewrite !operator_extract_table by assumption.
  f_equal. apply (read_rows_agree _ (dropped_item_ids (_output io)));
    [reflexivity|].
  clear Hok1 Hok2. induction Hagree; simpl; [apply Forall2_nil|].
  apply Forall2_cons; assumption.
Qed.

(** C8: when the rows of the systems before system [k] have been read and
    some item of the row of system [k], in a column that is not dropped, is
    rejected by [std::stod], the deserializer aborts with the fatal error of
    the first such item of that row; the error carries the text of the item,
    the id of the system and the column of the item.  Nothing of the row has
    been written when it aborts. *)
Theorem conversion_failure_is_fatal io header blocks rest k b g io_k col token :
  let items := row_items (data_row b) in
  let dropped := dropped_item_ids (_output io) in
  table_ok io header blocks ->
  blocks !! k = Some b ->
  bulk_node_ids (_mesh io) !! k = Some g ->
  read_rows stod (bulk_node_ids (_mesh io)) 0 (map data_row (take k blocks)) io
    = Ok io_k ->
  (Z.of_nat (length items) < 2 ^ 31)%Z ->
  (col, token) ∈ kept_items dropped 0 items ->
  stod_error (stod token) token g col <> None ->
  exists col' token' e,
    (col', token') ∈ kept_items dropped 0 items /\ (col' <= col)%Z /\
    stod_error (stod token') token' g col' = Some e /\
    operator_extract stod (lines_then (table_lines header blocks) rest) io
      = Fatal e io_k.
Proof.
  intros items dropped Hok Hb Hg Hbefore Hsmall Hin Hbad.
  pose proof (read_rows_setup _ _ _ _ _ Hbefore) as (_ & Hout & _).
  destruct (read_row_rejected k g (data_row b) io_k col token)
    as (col' & token' & e & Hin' & Hle & He & Hrow);
    try (rewrite ?Hout; assumption).
  rewrite Hout in Hin'. exists col', token', e.
  repeat (split; [assumption|]).
  eapply operator_extract_abort; eassumption.
Qed.

(** C1, as the code has it: when the rows of the systems before system [k]
    have been read, and the row of system [k] contains every dropped column
    (the dropped ids are distinct columns of the row) but its number of items
    is not [len(OutputSchema) + len(dropSet)], the deserializer aborts in the
    state it had before that row: with the conversion error of an item of the
    row, which names the system, if a kept item does not convert, and
    otherwise at the assertion on the number of accepted items, which names
    no system. *)
Theorem arity_mismatch_is_fatal io header blocks rest k b g io_k :
  let items := row_items (data_row b) in
  let dropped := dropped_item_ids (_output io) in
  table_ok io header blocks ->
  blocks !! k = Some b ->
  bulk_node_ids (_mesh io) !! k = Some g ->
  read_rows stod (bulk_node_ids (_mesh io)) 0 (map data_row (take k blocks)) io
    = Ok io_k ->
  (Z.of_nat (length items) < 2 ^ 31)%Z ->
  NoDup dropped ->
  (forall d, d ∈ dropped -> (0 <= d < Z.of_nat (length items))%Z) ->
  length items <> length (accepted_items (_output io)) + length dropped ->
  exists e,
    operator_extract stod (lines_then (table_lines header blocks) rest) io
      = Fatal e io_k /\
    ((exists col token, (col, token) ∈ kept_items dropped 0 items /\
        stod_error (stod token) token g col = Some e /\
        error_system e = Some g) \/
     (e = AssertionFailed size_assertion /\ error_system e = None)).
Proof.
  intros items dropped Hok Hb Hg Hbefore Hsmall Hnodup Hrange Hcount.
  pose proof (read_rows_setup _ _ _ _ _ Hbefore) as (_ & Hout & _).
  pose proof (kept_items_count items 0 dropped Hnodup Hrange) as Hkept.
  destruct (read_row_arity k g (data_row b) io_k) as (e & Hrow & He).
  { exact Hsmall. }
  { rewrite Hout. fold items dropped. lia. }
  exists e. split; [eapply operator_extract_abort; eassumption|].
  rewrite Hout in He. destruct He as [(col & token & Hin & He) | -> ].
  - left. exists col, token. split; [exact Hin|]. split; [exact He|].
    destruct (stod token); simplify_eq/=; reflexivity.
  - right. split; reflexivity.
Qed.

End Deserializer.

(** ** The script serializer *)

Section Serializer.
Context {double Knobs ReactionRate SurfaceSite PrevSolution : Type}.
Local Abbreviation PhreeqcIO :=
  (@PhreeqcIO double Knobs ReactionRate SurfaceSite PrevSolution).
Local Abbreviation ostream :=
  (@ostream double Knobs ReactionRate SurfaceSite PrevSolution).
Local Abbreviation Insertion :=
  (@Insertion double Knobs ReactionRate SurfaceSite PrevSolution).
Implicit Types (io : PhreeqcIO) (os : ostream) (keyword : string).

(** *** Keys of a concatenation *)

Lemma no_size_head_app os1 os2 :
  no_size_head os1 -> no_size_head os2 -> no_size_head (os1 ++ os2).
Proof. destruct os1; simpl; auto. Qed.

Lemma keys_after_app keyword os1 os2 :
  no_size_head os2 ->
  keys_after keyword (os1 ++ os2)
  = keys_after keyword os1 ++ keys_after keyword os2.
Proof.
  intros Hhead. induction os1 as [|i os1 IH]; [reflexivity|].
  destruct i; cbn [app keys_after]; try exact IH.
  destruct os1 as [|j os1].
  - cbn [app keys_after]. destruct os2 as [|[] os2]; try reflexivity.
    contradiction.
  - change ((j :: os1) ++ os2) with (j :: (os1 ++ os2)) in *.
    destruct j; try exact IH.
    destruct (String.eqb s keyword); [|exact IH].
    cbn [app]. f_equal. exact IH.
Qed.

Lemma keys_after_objects keyword os :
  Forall is_object os -> keys_after keyword os = [].
Proof.
  induction 1 as [|i os Hi _ IH]; [reflexivity|].
  destruct i; try contradiction; exact IH.
Qed.

Lemma no_size_head_objects os : Forall is_object os -> no_size_head os.
Proof. destruct 1 as [|[] ?]; simpl; auto. Qed.

Lemma objects_map {A} (f : A -> Insertion) (l : list A) :
  (forall x, is_object (f x)) -> Forall is_object (map f l).
Proof. intros Hf. induction l; constructor; auto. Qed.

(** *** Keys of the parts of a system block *)

Lemma previous_shape io k previous :
  insert_previous io k = Ok previous ->
  previous = [] \/ exists p, previous = [OfPrevSolution p; Str nlnl].
Proof.
  unfold insert_previous. intros Hprev. outcome_cases; eauto.
Qed.

Lemma keys_after_phases keyword io g :
  keys_after keyword (insert_equilibrium_phases io g)
  = match _equilibrium_phases io with
    | [] => []
    | _ => key_if keyword "EQUILIBRIUM_PHASES " (size_add g 1)
    end.
Proof.
  unfold insert_equilibrium_phases, key_if.
  destruct (_equilibrium_phases io) as [|p ps]; [reflexivity|].
  cbn [app map keys_after].
  rewrite (keys_after_app _ (map _ ps)) by exact I.
  rewrite keys_after_objects by (apply objects_map; intros; exact I).
  destruct (String.eqb _ keyword); reflexivity.
Qed.

Lemma keys_after_kinetics keyword io g :
  keys_after keyword (insert_kinetics io g)
  = match _kinetic_reactants io with
    | [] => []
    | _ => key_if keyword "KINETICS " (size_add g 1)
    end.
Proof.
  unfold insert_kinetics, key_if.
  destruct (_kinetic_reactants io) as [|r rs]; [reflexivity|].
  cbn [app map keys_after].
  rewrite (keys_after_app _ (map _ rs)) by exact I.
  rewrite keys_after_objects by (apply objects_map; intros; exact I).
  destruct (String.eqb _ keyword); reflexivity.
Qed.

Lemma keys_after_surface keyword io g surface :
  insert_surface io (NumberOfBaseNodes (_mesh io)) g = Ok surface ->
  keys_after keyword surface
  = match _surface io with
    | [] => []
    | _ => key_if keyword "SURFACE " (size_add g 1)
           ++ key_if keyword "-equilibrate with solution " (equilibrate_id io g)
           ++ key_if keyword "SAVE solution " (size_add g 1)
    end.
Proof.
  unfold insert_surface, equilibrate_id, key_if.
  destruct (_surface io) as [|s ss]; [intros [= <-]; reflexivity|].
  destruct (_dump io) as [dump|]; [|discriminate]. intros [= <-].
  cbn [app map keys_after].
  rewrite (keys_after_app _ (map _ ss)) by exact I.
  rewrite keys_after_objects by (apply objects_map; intros; exact I).
  cbn [app keys_after].
  repeat (destruct (String.eqb _ keyword)); reflexivity.
Qed.

Lemma no_size_head_surface io n g surface :
  insert_surface io n g = Ok surface -> no_size_head surface.
Proof.
  unfold insert_surface. intros Hs. outcome_cases; exact I.
Qed.

Lemma no_size_head_phases io g : no_size_head (insert_equilibrium_phases io g).
Proof. unfold insert_equilibrium_phases. destruct (_equilibrium_phases io); exact I. Qed.

Lemma no_size_head_kinetics io g : no_size_head (insert_kinetics io g).
Proof. unfold insert_kinetics. destruct (_kinetic_reactants io); exact I. Qed.

Lemma keys_after_solution keyword g (sol : AqueousSolution) :
  keys_after keyword
    ([Str "SOLUTION "; Size (size_add g 1); Str nl; OfAqueousSolution sol;
      Str nl] : ostream)
  = key_if keyword "SOLUTION " (size_add g 1).
Proof.
  unfold key_if. cbn [keys_after].
  destruct (String.eqb _ keyword); reflexivity.
Qed.

Lemma keys_after_use keyword g :
  keys_after keyword
    ([Str "USE solution none"; Str nl; Str "END"; Str nlnl;
      Str "USE solution "; Size (size_add g 1); Str nlnl] : ostream)
  = key_if keyword "USE solution " (size_add g 1).
Proof.
  unfold key_if. cbn [keys_after].
  destruct (String.eqb _ keyword); reflexivity.
Qed.

Lemma no_size_head_system io k block :
  insert_system io k = Ok block -> no_size_head block.
Proof.
  unfold insert_system. intros Hb. outcome_cases; exact I.
Qed.

Lemma keys_after_system keyword io k g block :
  bulk_node_ids (_mesh io) !! k = Some g ->
  insert_system io k = Ok block ->
  keys_after keyword block = system_keys keyword io g.
Proof.
  intros Hg. unfold insert_system, at_index. rewrite Hg.
  unfold mbind, outcome_bind, obind.
  destruct (_aqueous_solutions io !! k) as [sol|]; [|discriminate].
  destruct (insert_previous io k) as [previous| |] eqn:Hprev; try discriminate.
  destruct (insert_surface io _ g) as [surface| |] eqn:Hsurf; try discriminate.
  intros <-%Ok_inj.
  pose proof (no_size_head_surface _ _ _ _ Hsurf) as Hs.
  pose proof (no_size_head_phases io g) as Hp.
  pose proof (no_size_head_kinetics io g) as Hk.
  assert (Hprev' : no_size_head previous /\ keys_after keyword previous = []).
  { apply previous_shape in Hprev as [->|(p & ->)]; split; reflexivity || exact I. }
  destruct Hprev' as (Hpr & Hprk).
  rewrite !keys_after_app
    by (repeat (apply no_size_head_app; try assumption); exact I).
  rewrite Hprk, keys_after_phases, keys_after_kinetics,
    (keys_after_surface _ _ _ _ Hsurf), keys_after_solution, keys_after_use.
  unfold system_keys. cbn [keys_after app]. rewrite app_nil_r. reflexivity.
Qed.

(** *** Keys of the whole script *)

Lemma keys_after_preamble keyword io : keys_after keyword (insert_preamble io) = [].
Proof.
  unfold insert_preamble.
  destruct (_user_punch io), (_reaction_rates io) as [|r rs];
    cbn [app map keys_after]; try reflexivity;
    rewrite (keys_after_app _ (map _ rs)) by exact I;
    rewrite keys_after_objects by (apply objects_map; intros; exact I);
    reflexivity.
Qed.

Lemma no_size_head_preamble io : no_size_head (insert_preamble io).
Proof. exact I. Qed.

Lemma insert_systems_keys keyword io : forall ids blocks,
  insert_systems io ids = Ok blocks ->
  no_size_head blocks /\
  exists gs, Forall2 (fun k g => bulk_node_ids (_mesh io) !! k = Some g) ids gs /\
    keys_after keyword blocks = concat (map (system_keys keyword io) gs).
Proof.
  induction ids as [|k ids IH]; intros blocks; cbn [insert_systems].
  - intros <-%Ok_inj. split; [exact I|]. exists []. split; [constructor|reflexivity].
  - unfold mbind, outcome_bind, obind.
    destruct (insert_system io k) as [block| |] eqn:Hblock; try discriminate.
    destruct (insert_systems io ids) as [rest| |]; try discriminate.
    intros <-%Ok_inj. destruct (IH rest eq_refl) as (Hhead & gs & Hgs & Hkeys).
    pose proof (no_size_head_system _ _ _ Hblock) as Hb.
    split; [apply no_size_head_app; assumption|].
    assert (Hg : exists g, bulk_node_ids (_mesh io) !! k = Some g).
    { unfold insert_system, at_index in Hblock.
      destruct (bulk_node_ids (_mesh io) !! k); [eauto|discriminate]. }
    destruct Hg as (g & Hg). exists (g :: gs). split; [constructor; assumption|].
    rewrite keys_after_app by assumption.
    rewrite (keys_after_system keyword io k g block Hg Hblock), Hkeys.
    reflexivity.
Qed.

Lemma lookup_seq_take {A} (l : list A) n : forall gs,
  Forall2 (fun k g => l !! k = Some g) (seq 0 n) gs -> gs = take n l.
Proof.
  intros gs Hgs. apply list_eq. intros i.
  pose proof (Forall2_length Hgs) as Hlen. rewrite length_seq in Hlen.
  destruct (decide (i < n)) as [Hi|Hi].
  - rewrite lookup_take_lt by assumption.
    destruct (gs !! i) as [g|] eqn:Hgi.
    + symmetry. eapply (Forall2_lookup_lr _ _ _ i i g Hgs); [|exact Hgi].
      apply lookup_seq_lt. exact Hi.
    + apply lookup_ge_None in Hgi. lia.
  - rewrite lookup_take_ge by lia. apply lookup_ge_None. lia.
Qed.

(** The keys of the script, for any keyword: those of the blocks of the
    first N entries of the index map, in order. *)
Lemma keys_after_script keyword io os :
  operator_insert [] io = Ok os ->
  keys_after keyword os
  = concat (map (system_keys keyword io)
              (take (N.to_nat (NumberOfBaseNodes (_mesh io)))
                    (bulk_node_ids (_mesh io)))).
Proof.
  unfold operator_insert, mbind, outcome_bind, obind.
  destruct (insert_systems io _) as [systems| |] eqn:Hsys; try discriminate.
  intros <-%Ok_inj.
  destruct (insert_systems_keys keyword _ _ _ Hsys) as (Hhead & gs & Hgs & Hkeys).
  apply lookup_seq_take in Hgs as ->.
  cbn [app].
  rewrite !keys_after_app, keys_after_preamble, Hkeys.
  - destruct (_dump io); cbn [app keys_after]; rewrite app_nil_r; reflexivity.
  - destruct (_dump io); exact I.
  - apply no_size_head_app; [assumption|]. destruct (_dump io); exact I.
Qed.

(** *** When the serializer is defined *)

Lemma insert_system_defined io k :
  well_sized io -> k < N.to_nat (NumberOfBaseNodes (_mesh io)) ->
  exists block, insert_system io k = Ok block.
Proof.
  intros (Hmap & Hsols & Hdump) Hk. unfold insert_system, at_index.
  destruct (lookup_lt_is_Some_2 (bulk_node_ids (_mesh io)) k) as (g & ->); [lia|].
  destruct (lookup_lt_is_Some_2 (_aqueous_solutions io) k) as (sol & ->); [lia|].
  unfold mbind, outcome_bind, obind.
  assert (Hprev : exists previous, insert_previous io k = Ok previous).
  { unfold insert_previous. destruct (_dump io) as [dump|]; [|eauto].
    destruct (aqueous_solutions_prev dump) as [|p ps] eqn:Hps; [eauto|].
    destruct Hdump as [?|Hlen]; [discriminate|].
    unfold at_index, mbind, outcome_bind, obind.
    destruct (lookup_lt_is_Some_2 (p :: ps) k) as (x & ->); [lia|eauto]. }
  destruct Hprev as (previous & ->).
  assert (Hsurf : exists surface,
    insert_surface io (NumberOfBaseNodes (_mesh io)) g = Ok surface).
  { unfold insert_surface. destruct (_surface io); [eauto|].
    destruct (_dump io); [eauto|discriminate]. }
  destruct Hsurf as (surface & ->). eauto.
Qed.

Lemma insert_systems_defined io : forall ids,
  well_sized io ->
  Forall (fun k => k < N.to_nat (NumberOfBaseNodes (_mesh io))) ids ->
  exists blocks, insert_systems io ids = Ok blocks.
Proof.
  intros ids Hio. induction 1 as [|k ids Hk _ (blocks & IH)];
    cbn [insert_systems]; [eauto|].
  destruct (insert_system_defined io k Hio Hk) as (block & ->).
  rewrite IH. cbn. eauto.
Qed.

Lemma operator_insert_defined io :
  well_sized io -> exists os, operator_insert [] io = Ok os.
Proof.
  intros Hio. unfold operator_insert.
  destruct (insert_systems_defined io
              (seq 0 (N.to_nat (NumberOfBaseNodes (_mesh io)))) Hio)
    as (blocks & ->); [|cbn; eauto].
  apply Forall_forall. intros k Hk%in_seq. lia.
Qed.

Lemma concat_map_singleton {A B} (f : A -> B) (l : list A) :
  concat (map (fun x => [f x]) l) = map f l.
Proof. induction l; cbn; congruence. Qed.

Lemma concat_map_nil {A B} (l : list A) :
  concat (map (fun _ => @nil B) l) = [].
Proof. induction l; cbn; congruence. Qed.

Lemma size_add_small (a b : N) : (a + b < 2 ^ 64)%N -> size_add a b = (a + b)%N.
Proof. intros Hsmall. unfold size_add. apply N.mod_small. exact Hsmall. Qed.

Lemma map_size_add_one (gs : list N) :
  Forall (fun g => (g + 1 < 2 ^ 64)%N) gs ->
  map (fun g => size_add g 1) gs = map (fun g => (g + 1)%N) gs.
Proof.
  induction 1 as [|g gs Hg _ IH]; cbn; [reflexivity|].
  rewrite IH, size_add_small by assumption. reflexivity.
Qed.

Ltac script_keys :=
  rewrite (keys_after_script _ _ _ ltac:(eassumption));
  unfold system_keys, key_if, equilibrate_id;
  repeat match goal with
         | |- context [match ?l with [] => _ | _ :: _ => _ end] =>
             is_var l; destruct l
         | |- context [match ?l with [] => _ | _ :: _ => _ end] =>
             let x := fresh "l" in
             let E := fresh "E" in destruct l eqn:E
         end;
  cbn [String.eqb Ascii.eqb Bool.eqb app];
  rewrite ?concat_map_singleton, ?concat_map_nil;
  try reflexivity.

(** *** The properties of the serializer *)

(** C5: in the script of a configuration whose vectors cover its N systems,
    the integer key written on the SOLUTION, USE solution,
    EQUILIBRIUM_PHASES, KINETICS, SURFACE and SAVE solution lines of the
    system at position [local_id] is [global_id + 1], with [global_id] the
    entry of the index map at [local_id]: the keys that follow each of these
    keywords are, in the order of the blocks, the [global_id + 1] of the
    first N entries of the index map (and there is none for a block that is
    not configured). *)
Theorem block_keys_are_global_ids io :
  let global_ids := take (N.to_nat (NumberOfBaseNodes (_mesh io)))
                         (bulk_node_ids (_mesh io)) in
  let keys := map (fun global_id => (global_id + 1)%N) global_ids in
  well_sized io ->
  Forall (fun global_id => (global_id + 1 < 2 ^ 64)%N) global_ids ->
  exists os, operator_insert [] io = Ok os /\
    keys_after "SOLUTION " os = keys /\
    keys_after "USE solution " os = keys /\
    keys_after "EQUILIBRIUM_PHASES " os
      = match _equilibrium_phases io with [] => [] | _ => keys end /\
    keys_after "KINETICS " os
      = match _kinetic_reactants io with [] => [] | _ => keys end /\
    keys_after "SURFACE " os
      = match _surface io with [] => [] | _ => keys end /\
    keys_after "SAVE solution " os
      = match _surface io with [] => [] | _ => keys end.
Proof.
  intros global_ids keys Hio Hsmall.
  destruct (operator_insert_defined io Hio) as (os & Hos).
  exists os. split; [exact Hos|]. subst keys.
  rewrite <- (map_size_add_one global_ids Hsmall). subst global_ids.
  repeat split; script_keys.
Qed.

(** The two cases of C2 when there is a dump: in the script of a
    configuration with surface sites and a dump, whose vectors cover its N
    systems, the index written after "-equilibrate with solution" in the
    SURFACE block of the system with global id g is [N + g + 1] when the dump
    holds previous solutions and [g + 1] when it holds none. *)
Theorem surface_equilibrates_with io dump :
  let num_chemical_systems := NumberOfBaseNodes (_mesh io) in
  let global_ids := take (N.to_nat num_chemical_systems)
                         (bulk_node_ids (_mesh io)) in
  well_sized io ->
  _surface io <> [] ->
  _dump io = Some dump ->
  Forall (fun g => (num_chemical_systems + g + 1 < 2 ^ 64)%N) global_ids ->
  exists os, operator_insert [] io = Ok os /\
    keys_after "-equilibrate with solution " os
    = map (fun g => match aqueous_solutions_prev dump with
                    | [] => (g + 1)%N
                    | _ => (num_chemical_systems + g + 1)%N
                    end) global_ids.
Proof.
  intros n global_ids Hio Hsurface Hdump Hsmall.
  destruct (operator_insert_defined io Hio) as (os & Hos).
  exists os. split; [exact Hos|]. subst global_ids.
  rewrite (keys_after_script _ _ _ Hos).
  unfold system_keys, key_if, equilibrate_id. rewrite Hdump.
  destruct (_surface io) as [|s ss]; [contradiction|].
  destruct (_equilibrium_phases io), (_kinetic_reactants io),
    (aqueous_solutions_prev dump);
    cbn [String.eqb Ascii.eqb Bool.eqb app];
    rewrite concat_map_singleton; apply map_ext_Forall;
    (eapply List.Forall_impl; [|exact Hsmall]); intros g Hg; cbn beta in *;
    unfold n in *; rewrite ?size_add_small; rewrite ?size_add_small;
    try reflexivity; lia.
Qed.

(** C9: the SURFACE block reads the dump without testing it.  With surface
    sites, at least one system and no dump, serializing is undefined
    behaviour: the null dump is dereferenced in the block of the first
    system (unless indexing the index map or the solutions is already out of
    range there). *)
Theorem surface_needs_dump io os :
  _surface io <> [] ->
  NumberOfBaseNodes (_mesh io) <> 0%N ->
  _dump io = None ->
  exists u, operator_insert os io = Undefined u /\
    (is_Some (bulk_node_ids (_mesh io) !! 0) ->
     is_Some (_aqueous_solutions io !! 0) -> u = NullDereference).
Proof.
  intros Hsurface Hn Hdump. unfold operator_insert.
  destruct (N.to_nat (NumberOfBaseNodes (_mesh io))) as [|n] eqn:Hnat; [lia|].
  cbn [seq insert_systems]. unfold insert_system at 1, at_index.
  unfold mbind, outcome_bind, obind.
  destruct (bulk_node_ids (_mesh io) !! 0) as [g|].
  2:{ eexists. split; [reflexivity|]. intros [? [=]]. }
  destruct (_aqueous_solutions io !! 0) as [sol|].
  2:{ eexists. split; [reflexivity|]. intros _ [? [=]]. }
  unfold insert_previous, insert_surface. rewrite Hdump.
  destruct (_surface io); [contradiction|].
  eexists. split; [reflexivity|]. reflexivity.
Qed.

End Serializer.

(** ** Routing of the values of a row *)

Section Routing.
Context {double Knobs ReactionRate SurfaceSite PrevSolution : Type}.
Local Abbreviation PhreeqcIO :=
  (@PhreeqcIO double Knobs ReactionRate SurfaceSite PrevSolution).
Implicit Types (io : PhreeqcIO).

(** Writing entry [g] of the array of the first entity named [nm0] changes
    that entry and no other entry of any array of the list. *)
Lemma named_entry_insert {A} (name_of : A -> string)
    (array_of : A -> list double) nm0 g v nm i : forall (l : list A) k a a',
  list_find (fun a => name_of a = nm0) l = Some (k, a) ->
  name_of a' = name_of a ->
  array_of a' = <[g := v]> (array_of a) ->
  g < length (array_of a) ->
  named_entry name_of array_of (<[k := a']> l) nm i
  = if decide (nm = nm0 /\ i = g) then Some v
    else named_entry name_of array_of l nm i.
Proof.
  unfold named_entry.
  induction l as [|x l IH]; intros k a a' Hfind Hname Harr Hg; [discriminate|].
  assert (Ha : name_of a = nm0) by (apply list_find_Some in Hfind; tauto).
  rewrite Ha in Hname. clear Ha.
  cbn [list_find] in Hfind. destruct (decide (name_of x = nm0)) as [Hx|Hx].
  - injection Hfind as <- <-. cbn [insert list_insert list_find]. rewrite Hname.
    cbn [list_find]. rewrite Hx.
    destruct (decide (nm0 = nm)) as [<-|Hne].
    + rewrite Harr. destruct (decide (i = g)) as [->|Hig].
      * rewrite list_lookup_insert_eq by assumption.
        rewrite decide_True by auto. reflexivity.
      * rewrite list_lookup_insert_ne by auto.
        rewrite decide_False by tauto. reflexivity.
    + rewrite decide_False by (intros [-> _]; contradiction). reflexivity.
  - destruct (list_find _ l) as [[k' a0]|] eqn:Hl; [|discriminate].
    injection Hfind as <- <-. cbn [insert list_insert list_find].
    assert (Ha : name_of a0 = nm0) by (apply list_find_Some in Hl; tauto).
    specialize (IH k' a0 a' eq_refl (eq_trans Hname (eq_sym Ha)) Harr Hg).
    cbn [list_find]. destruct (decide (name_of x = nm)) as [Hxn|Hxn].
    + rewrite decide_False by (intros [-> _]; contradiction). reflexivity.
    + change (list_insert k' a' l) with (<[k' := a']> l).
      destruct (list_find _ (<[k' := a']> l)) as [[? ?]|],
               (list_find (fun a => name_of a = nm) l) as [[? ?]|];
        cbn [fmap option_fmap option_map prod_map fst snd] in *; exact IH.
Qed.

Lemma update_item_hit k g item v io io' :
  update_item k g item v io = Ok io' ->
  is_array (item_type item) = true ->
  array_entry io' (item_type item) (name item) (N.to_nat g) = Some v.
Proof.
  unfold update_item. intros Hup Harray.
  destruct (item_type item); try discriminate; outcome_cases;
    cbn [array_entry with_equilibrium_phases with_kinetic_reactants
           with_user_punch _equilibrium_phases _kinetic_reactants _user_punch
           secondary_variables];
    (erewrite named_entry_insert; [|eassumption|reflexivity|reflexivity|assumption]);
    rewrite decide_True by auto; reflexivity.
Qed.

Lemma update_item_miss k g item v io io' ty nm i :
  update_item k g item v io = Ok io' ->
  ~ routed_to item g ty nm i ->
  array_entry io' ty nm i = array_entry io ty nm i.
Proof.
  unfold update_item, routed_to. intros Hup Hmiss.
  destruct (item_type item) eqn:Hty; outcome_cases; destruct ty;
    cbn [array_entry with_aqueous_solutions with_equilibrium_phases
           with_kinetic_reactants with_user_punch _equilibrium_phases
           _kinetic_reactants _user_punch secondary_variables];
    try reflexivity;
    try (rewrite H; reflexivity);
    (erewrite named_entry_insert; [|eassumption|reflexivity|reflexivity|assumption]);
    rewrite decide_False by tauto; try reflexivity.
  rewrite H. reflexivity.
Qed.

Lemma at_index_Ok {S A} (l : list A) i x :
  at_index (S := S) l i = Ok x -> l !! i = Some x.
Proof. unfold at_index. destruct (l !! i); congruence. Qed.

Lemma route_items_miss k g ty nm i : forall values c io io',
  route_items k g c values io = Ok io' ->
  (forall j item, j < length values ->
     accepted_items (_output io) !! (c + j) = Some item ->
     ~ routed_to item g ty nm i) ->
  array_entry io' ty nm i = array_entry io ty nm i.
Proof.
  induction values as [|v0 values IH]; intros c io io'; cbn [route_items].
  - intros <-%Ok_inj _. reflexivity.
  - unfold mbind, outcome_bind, obind.
    destruct (at_index _ c) as [item0| |] eqn:Hitem0; try discriminate.
    destruct (update_item k g item0 v0 io) as [io1| |] eqn:Hup; try discriminate.
    intros Hrest Hmiss. apply at_index_Ok in Hitem0.
    pose proof (update_item_setup _ _ _ _ _ _ Hup) as (_ & Hout & _).
    transitivity (array_entry io1 ty nm i).
    + apply (IH (S c) io1 io' Hrest). intros j item Hj Hitem.
      apply (Hmiss (S j) item); [cbn [length]; lia|].
      rewrite <- Hout, <- Hitem. f_equal. lia.
    + eapply update_item_miss; [exact Hup|].
      apply (Hmiss 0 item0); [cbn [length]; lia|].
      rewrite Nat.add_0_r. exact Hitem0.
Qed.

Lemma route_items_value k g : forall values c io io' j v item,
  route_items k g c values io = Ok io' ->
  values !! j = Some v ->
  accepted_items (_output io) !! (c + j) = Some item ->
  is_array (item_type item) = true ->
  (forall j' item', j < j' -> j' < length values ->
     accepted_items (_output io) !! (c + j') = Some item' ->
     ~ (item_type item' = item_type item /\ name item' = name item)) ->
  array_entry io' (item_type item) (name item) (N.to_nat g) = Some v.
Proof.
  induction values as [|v0 values IH]; intros c io io' j v item;
    cbn [route_items]; [intros _ [=]|].
  unfold mbind, outcome_bind, obind.
  destruct (at_index _ c) as [item0| |] eqn:Hitem0; try discriminate.
  destruct (update_item k g item0 v0 io) as [io1| |] eqn:Hup; try discriminate.
  intros Hrest Hv Hitem Harray Hlast. apply at_index_Ok in Hitem0.
  pose proof (update_item_setup _ _ _ _ _ _ Hup) as (_ & Hout & _).
  destruct j as [|j].
  - injection Hv as ->. rewrite Nat.add_0_r, Hitem0 in Hitem.
    injection Hitem as ->.
    rewrite (route_items_miss _ _ _ _ _ _ _ _ _ Hrest).
    + eapply update_item_hit; eassumption.
    + intros j item' Hj Hitem' (Hty & Hnm & _).
      apply (Hlast (S j) item'); [lia|cbn [length]; lia| |auto].
      rewrite <- Hout, <- Hitem'. f_equal. lia.
  - apply (IH (S c) io1 io' j v item Hrest Hv).
    + rewrite Hout, <- Hitem. f_equal. lia.
    + exact Harray.
    + intros j' item' Hj Hlen Hitem'.
      apply (Hlast (S j') item'); [lia|cbn [length]; lia|].
      rewrite <- Hout, <- Hitem'. f_equal. lia.
Qed.

End Routing.

(** ** The index map in the serializer and in the deserializer *)

Section Lockstep.
Context {double Knobs ReactionRate SurfaceSite PrevSolution : Type}.
Local Abbreviation PhreeqcIO :=
  (@PhreeqcIO double Knobs ReactionRate SurfaceSite PrevSolution).
Variable stod : string -> StodResult double.
Implicit Types (io : PhreeqcIO) (m : list N).

Lemma read_row_routes k g line io io' :
  read_row stod k g line io = Ok io' ->
  exists values,
    accept_items stod (dropped_item_ids (_output io)) g 0
      (int_prefix (row_items line)) = inr values /\
    length values = length (accepted_items (_output io)) /\
    route_items k g 0 (int_prefix values) io = Ok io'.
Proof.
  unfold read_row.
  destruct (accept_items _ _ _ _ _) as [e|values]; [discriminate|].
  case_decide; [|discriminate].
  unfold mbind, outcome_bind, obind. destruct (at_index _ k); try discriminate.
  intros Hroute. exists values. auto.
Qed.

Lemma read_row_miss k g line io io' ty nm i :
  read_row stod k g line io = Ok io' ->
  i <> N.to_nat g ->
  array_entry io' ty nm i = array_entry io ty nm i.
Proof.
  intros (values & _ & _ & Hroute)%read_row_routes Hi.
  eapply route_items_miss; [exact Hroute|].
  intros j item _ _ (_ & _ & Hig). contradiction.
Qed.

Lemma accept_items_length dropped g : forall items c values,
  accept_items stod dropped g c items = inr values ->
  length values <= length items.
Proof.
  intros items c values Hacc.
  apply accept_items_converted, Forall2_length in Hacc. rewrite <- Hacc.
  apply kept_items_length_le.
Qed.

Lemma read_row_value k g line io io' values c v item :
  read_row stod k g line io = Ok io' ->
  (Z.of_nat (length (row_items line)) < 2 ^ 31)%Z ->
  accept_items stod (dropped_item_ids (_output io)) g 0 (row_items line)
    = inr values ->
  values !! c = Some v ->
  accepted_items (_output io) !! c = Some item ->
  is_array (item_type item) = true ->
  (forall c' item', c < c' ->
     accepted_items (_output io) !! c' = Some item' ->
     ~ (item_type item' = item_type item /\ name item' = name item)) ->
  array_entry io' (item_type item) (name item) (N.to_nat g) = Some v.
Proof.
  intros (values' & Hacc & _ & Hroute)%read_row_routes Hsmall Hvalues Hv Hitem
    Harray Hlast.
  rewrite int_prefix_small in Hacc by assumption.
  rewrite Hvalues in Hacc. injection Hacc as <-.
  rewrite int_prefix_small in Hroute
    by (apply accept_items_length in Hvalues; lia).
  eapply (route_items_value k g values 0 io io' c v item); eauto.
Qed.

Lemma read_rows_miss m ty nm i : forall rows k io io',
  read_rows stod m k rows io = Ok io' ->
  (forall j g, j < length rows -> m !! (k + j) = Some g -> i <> N.to_nat g) ->
  array_entry io' ty nm i = array_entry io ty nm i.
Proof.
  induction rows as [|row rows IH]; intros k io io'; cbn [read_rows].
  - intros <-%Ok_inj _. reflexivity.
  - unfold mbind, outcome_bind, obind.
    destruct (at_index m k) as [g| |] eqn:Hg; try discriminate.
    destruct (read_row stod k g row io) as [io1| |] eqn:Hrow; try discriminate.
    intros Hrest Hmiss. apply at_index_Ok in Hg.
    transitivity (array_entry io1 ty nm i).
    + apply (IH (S k) io1 io' Hrest). intros j g' Hj Hg'.
      apply (Hmiss (S j) g'); [cbn [length]; lia|].
      rewrite <- Hg'. f_equal. lia.
    + eapply read_row_miss; [exact Hrow|].
      apply (Hmiss 0 g); [cbn [length]; lia|]. rewrite Nat.add_0_r. exact Hg.
Qed.

Lemma read_rows_value m : forall rows k io io' j row g values c v item,
  read_rows stod m k rows io = Ok io' ->
  rows !! j = Some row ->
  m !! (k + j) = Some g ->
  (forall j' g', j < j' -> j' < length rows -> m !! (k + j') = Some g' ->
     g' <> g) ->
  (Z.of_nat (length (row_items row)) < 2 ^ 31)%Z ->
  accept_items stod (dropped_item_ids (_output io)) g 0 (row_items row)
    = inr values ->
  values !! c = Some v ->
  accepted_items (_output io) !! c = Some item ->
  is_array (item_type item) = true ->
  (forall c' item', c < c' ->
     accepted_items (_output io) !! c' = Some item' ->
     ~ (item_type item' = item_type item /\ name item' = name item)) ->
  array_entry io' (item_type item) (name item) (N.to_nat g) = Some v.
Proof.
  induction rows as [|row0 rows IH]; intros k io io' j row g values c v item;
    cbn [read_rows]; [intros _ [=]|].
  unfold mbind, outcome_bind, obind.
  destruct (at_index m k) as [g0| |] eqn:Hg0; try discriminate.
  destruct (read_row stod k g0 row0 io) as [io1| |] eqn:Hrow; try discriminate.
  intros Hrest Hj Hg Hlater Hsmall Hvalues Hv Hitem Harray Hlast.
  apply at_index_Ok in Hg0.
  pose proof (read_row_setup _ _ _ _ _ _ Hrow) as (_ & Hout & _).
  destruct j as [|j].
  - injection Hj as ->. rewrite Nat.add_0_r, Hg0 in Hg. injection Hg as ->.
    rewrite (read_rows_miss _ _ _ _ _ _ _ _ Hrest).
    + eapply read_row_value; eassumption.
    + intros j g' Hj Hg' Heq. apply N2Nat.inj in Heq.
      apply (Hlater (S j) g'); [lia|cbn [length]; lia| |congruence].
      rewrite <- Hg'. f_equal. lia.
  - apply (IH (S k) io1 io' j row g values c v item Hrest Hj);
      rewrite ?Hout; try assumption.
    + rewrite <- Hg. f_equal. lia.
    + intros j' g' Hjj Hlen Hg'.
      apply (Hlater (S j') g'); [lia|cbn [length]; lia|].
      rewrite <- Hg'. f_equal. lia.
Qed.

(** C3: for every position [local_id] with mapped [global_id], the block
    that the serializer writes for the system is keyed by [global_id + 1],
    and the value that the deserializer converts from a column of the
    system's row, for an accepted item that denotes an equilibrium phase, a
    kinetic reactant or a secondary variable, is the entry at [global_id] of
    the array of that name after the run (the last column of that name
    wins).  The index map is any map without repetition among its first N
    entries, so with a permuted map the values are at the permuted global
    positions. *)
Theorem index_lockstep io header blocks rest rest' io' os local_id global_id
    b values c v item :
  let n := N.to_nat (NumberOfBaseNodes (_mesh io)) in
  let chemical_system_map := bulk_node_ids (_mesh io) in
  table_ok io header blocks ->
  NoDup (take n chemical_system_map) ->
  operator_insert [] io = Ok os ->
  operator_extract stod (lines_then (table_lines header blocks) rest) io
    = Ok (rest', io') ->
  local_id < n ->
  chemical_system_map !! local_id = Some global_id ->
  (global_id + 1 < 2 ^ 64)%N ->
  blocks !! local_id = Some b ->
  (Z.of_nat (length (row_items (data_row b))) < 2 ^ 31)%Z ->
  accept_items stod (dropped_item_ids (_output io)) global_id 0
    (row_items (data_row b)) = inr values ->
  values !! c = Some v ->
  accepted_items (_output io) !! c = Some item ->
  is_array (item_type item) = true ->
  (forall c' item', c < c' ->
     accepted_items (_output io) !! c' = Some item' ->
     ~ (item_type item' = item_type item /\ name item' = name item)) ->
  keys_after "SOLUTION " os !! local_id = Some (global_id + 1)%N /\
  array_entry io' (item_type item) (name item) (N.to_nat global_id) = Some v.
Proof.
  intros n m Hok Hnodup Hos Hin Hlocal Hg Hsmallg Hb Hsmall Hvalues Hv Hitem
    Harray Hlast.
  split.
  - rewrite (keys_after_script _ _ _ Hos).
    unfold system_keys, key_if.
    destruct (_equilibrium_phases io), (_kinetic_reactants io), (_surface io);
      cbn [String.eqb Ascii.eqb Bool.eqb app];
      rewrite concat_map_singleton, list_lookup_fmap, lookup_take_lt by exact Hlocal;
      fold m; rewrite Hg; cbn; rewrite size_add_small by assumption;
      reflexivity.
  - rewrite operator_extract_table in Hin by assumption.
    unfold mbind, outcome_bind, obind in Hin. fold m in Hin.
    destruct (read_rows stod m 0 (map data_row blocks) io) as [io1| |] eqn:Hrows;
      try discriminate.
    apply Ok_inj in Hin. injection Hin as _ <-.
    eapply (read_rows_value m _ 0 io io1 local_id (data_row b)); eauto.
    + rewrite list_lookup_fmap, Hb. reflexivity.
    + intros j' g' Hjj Hlen Hg' ->. rewrite length_map in Hlen.
      destruct Hok as (Hlenb & _). fold n in Hlenb.
      assert (local_id = j'); [|lia].
      eapply (NoDup_lookup _ _ _ _ Hnodup);
        rewrite lookup_take_lt by lia; eassumption.
Qed.

End Lockstep.

(** ** Transport vectors and aqueous solutions *)

Section TransportProperties.
Context {double Knobs ReactionRate SurfaceSite PrevSolution : Type}.
Context `{FloatOps double}.
Local Abbreviation PhreeqcIO :=
  (@PhreeqcIO double Knobs ReactionRate SurfaceSite PrevSolution).
Local Abbreviation GlobalVector := (list double).
Local Abbreviation AqueousSolution := (@AqueousSolution double).
Implicit Types (io : PhreeqcIO) (vecs : list GlobalVector)
  (sol : AqueousSolution) (pmap : list (Z * string)) (m : list N).

(** *** Writing one entry *)

Lemma cell_insert vecs p g x v p' g' :
  vecs !! p = Some v -> g < length v ->
  cell (<[p := <[g := x]> v]> vecs) p' g'
  = if decide (p' = p /\ g' = g) then Some x else cell vecs p' g'.
Proof.
  intros Hv Hg. unfold cell.
  destruct (decide (p' = p)) as [->|Hp].
  - rewrite list_lookup_insert_eq by (eapply lookup_lt_Some; eassumption).
    rewrite Hv. destruct (decide (g' = g)) as [->|Hgg].
    + rewrite list_lookup_insert_eq by assumption.
      rewrite decide_True by auto. reflexivity.
    + rewrite list_lookup_insert_ne by auto.
      rewrite decide_False by tauto. reflexivity.
  - rewrite list_lookup_insert_ne by auto.
    rewrite decide_False by tauto. reflexivity.
Qed.

Lemma process_solution_Ok {S} vecs pid v :
  process_solution (S := S) vecs pid = Ok v ->
  (0 <= pid)%Z /\ vecs !! Z.to_nat pid = Some v.
Proof.
  unfold process_solution. case_decide; [|discriminate].
  intros Hv%at_index_Ok. auto.
Qed.

Lemma process_solution_Ok_iff {S} vecs pid v :
  process_solution (S := S) vecs pid = Ok v <->
  (0 <= pid)%Z /\ vecs !! Z.to_nat pid = Some v.
Proof.
  split; [apply process_solution_Ok|]. intros (Hpid & Hv).
  unfold process_solution, at_index. rewrite decide_True, Hv by assumption.
  reflexivity.
Qed.

Lemma set_Ok {S} (v : GlobalVector) g x v' :
  set (S := S) v g x = Ok v' ->
  N.to_nat g < length v /\ v' = <[N.to_nat g := x]> v.
Proof.
  unfold set, assign_index. case_decide; [|discriminate].
  intros <-%Ok_inj. auto.
Qed.

(** *** One element of the process id map, when updating *)

Lemma transfer_component_updating g pid var sol vecs sol' vecs' v0 :
  (0 <= pid)%Z -> vecs !! Z.to_nat pid = Some v0 ->
  transfer_component Status.UpdatingProcessSolutions g pid var (sol, vecs)
    = Ok (sol', vecs') ->
  sol' = sol /\
  match find_component (components sol) var with
  | Some (_, component) =>
      N.to_nat g < length v0 /\
      vecs' = <[Z.to_nat pid :=
                  <[N.to_nat g := component_amount component]> v0]> vecs
  | None => vecs' = vecs
  end.
Proof.
  intros Hpid Hv0. unfold transfer_component.
  destruct (find_component (components sol) var) as [[k component]|].
  - rewrite (proj2 (process_solution_Ok_iff vecs pid v0) (conj Hpid Hv0)).
    unfold mbind, outcome_bind, obind.
    destruct (set v0 g _) as [v1| |] eqn:Hset; try discriminate.
    apply set_Ok in Hset as (Hg & ->). intros [= <- <-]. auto.
  - intros [= <- <-]. auto.
Qed.

Lemma transfer_hydrogen_updating g pid var sol vecs sol' vecs' v0 :
  (0 <= pid)%Z -> vecs !! Z.to_nat pid = Some v0 ->
  transfer_hydrogen Status.UpdatingProcessSolutions g pid var (sol, vecs)
    = Ok (sol', vecs') ->
  sol' = sol /\
  if decide (var = "H"%string)
  then N.to_nat g < length v0 /\
       vecs' = <[Z.to_nat pid :=
                   <[N.to_nat g := fpow ften (fneg (pH sol))]> v0]> vecs
  else vecs' = vecs.
Proof.
  intros Hpid Hv0. unfold transfer_hydrogen.
  destruct (decide (var = "H"%string)).
  - rewrite (proj2 (process_solution_Ok_iff vecs pid v0) (conj Hpid Hv0)).
    unfold mbind, outcome_bind, obind.
    destruct (set v0 g _) as [v1| |] eqn:Hset; try discriminate.
    apply set_Ok in Hset as (Hg & ->). intros [= <- <-]. auto.
  - intros [= <- <-]. auto.
Qed.

Lemma transfer_element_updating g pid var sol vecs sol' vecs' :
  transfer_element Status.UpdatingProcessSolutions g (pid, var) (sol, vecs)
    = Ok (sol', vecs') ->
  sol' = sol /\ (0 <= pid)%Z /\
  cell vecs' (Z.to_nat pid) (N.to_nat g)
    = updated_value var sol (cell vecs (Z.to_nat pid) (N.to_nat g)) /\
  (forall p' g', ~ (p' = Z.to_nat pid /\ g' = N.to_nat g) ->
     cell vecs' p' g' = cell vecs p' g').
Proof.
  unfold transfer_element. cbn [snd]. unfold mbind, outcome_bind, obind.
  destruct (process_solution vecs pid) as [v0| |] eqn:Hv0; try discriminate.
  apply process_solution_Ok in Hv0 as (Hpid & Hv0).
  destruct (transfer_component _ g pid var (sol, vecs)) as [[sol1 vecs1]| |]
    eqn:Hcomp; try discriminate.
  intros Hhyd.
  apply (transfer_component_updating _ _ _ _ _ _ _ v0 Hpid Hv0) in Hcomp
    as (-> & Hcomp).
  unfold updated_value.
  destruct (find_component (components sol) var) as [[k component]|].
  - destruct Hcomp as (Hg & ->).
    assert (Hv1 : <[Z.to_nat pid := <[N.to_nat g := component_amount component]> v0]> vecs
                  !! Z.to_nat pid
                  = Some (<[N.to_nat g := component_amount component]> v0)).
    { apply list_lookup_insert_eq. eapply lookup_lt_Some; eassumption. }
    apply (transfer_hydrogen_updating _ _ _ _ _ _ _ _ Hpid Hv1) in Hhyd
      as (-> & Hhyd).
    split; [reflexivity|]. split; [assumption|].
    destruct (decide (var = "H"%string)).
    + destruct Hhyd as (Hg2 & ->).
      rewrite !list_insert_insert_eq. split.
      * rewrite (cell_insert vecs _ _ _ v0) by assumption.
        rewrite decide_True by auto. reflexivity.
      * intros p' g' Hne. rewrite (cell_insert vecs _ _ _ v0) by assumption.
        rewrite decide_False by assumption. reflexivity.
    + subst vecs'. split.
      * rewrite (cell_insert vecs _ _ _ v0) by assumption.
        rewrite decide_True by auto. reflexivity.
      * intros p' g' Hne. rewrite (cell_insert vecs _ _ _ v0) by assumption.
        rewrite decide_False by assumption. reflexivity.
  - subst vecs1.
    apply (transfer_hydrogen_updating _ _ _ _ _ _ _ _ Hpid Hv0) in Hhyd
      as (-> & Hhyd).
    split; [reflexivity|]. split; [assumption|].
    destruct (decide (var = "H"%string)).
    + destruct Hhyd as (Hg2 & ->). split.
      * rewrite (cell_insert vecs _ _ _ v0) by assumption.
        rewrite decide_True by auto. reflexivity.
      * intros p' g' Hne. rewrite (cell_insert vecs _ _ _ v0) by assumption.
        rewrite decide_False by assumption. reflexivity.
    + subst vecs'. auto.
Qed.

(** *** The loop over the process id map, when updating *)

Abbreviation Updating := Status.UpdatingProcessSolutions.
Abbreviation Setting := Status.SettingAqueousSolutions.

Lemma transfer_elements_updating g : forall pmap sol vecs sol' vecs',
  transfer_elements Updating g pmap (sol, vecs) = Ok (sol', vecs') ->
  sol' = sol /\
  Forall (fun e => (0 <= fst e)%Z) pmap /\
  (forall p' g',
     (g' <> N.to_nat g \/ forall e, e ∈ pmap -> Z.to_nat (fst e) <> p') ->
     cell vecs' p' g' = cell vecs p' g').
Proof.
  induction pmap as [|[pid var] pmap IH]; intros sol vecs sol' vecs';
    cbn [transfer_elements].
  - intros [= <- <-]. auto.
  - unfold mbind, outcome_bind, obind.
    destruct (transfer_element _ g (pid, var) (sol, vecs)) as [[sol1 vecs1]| |]
      eqn:Helem; try discriminate.
    intros Hrest.
    apply transfer_element_updating in Helem as (-> & Hpid & _ & Hframe).
    apply IH in Hrest as (-> & Hpids & Hrest).
    split; [reflexivity|]. split; [constructor; assumption|].
    intros p' g' Hmiss. rewrite Hrest, Hframe; [reflexivity| |].
    + intros (-> & ->). destruct Hmiss as [Hg|Hp]; [contradiction|].
      apply (Hp (pid, var)); [left|reflexivity].
    + destruct Hmiss as [Hg|Hp]; [left; assumption|].
      right. intros e He. apply Hp. right. exact He.
Qed.

(** Every value that the loop leaves in an entry is one that some element
    of the map has written there, or the value that was there. *)
Lemma transfer_elements_invariant g (P G : nat) (Q : option double -> Prop) :
  forall pmap sol vecs sol' vecs',
  transfer_elements Updating g pmap (sol, vecs) = Ok (sol', vecs') ->
  (forall e previous, e ∈ pmap -> Z.to_nat (fst e) = P -> N.to_nat g = G ->
     Q previous -> Q (updated_value (snd e) sol previous)) ->
  Q (cell vecs P G) -> Q (cell vecs' P G).
Proof.
  induction pmap as [|[pid var] pmap IH]; intros sol vecs sol' vecs';
    cbn [transfer_elements].
  - intros [= <- <-]. auto.
  - unfold mbind, outcome_bind, obind.
    destruct (transfer_element _ g (pid, var) (sol, vecs)) as [[sol1 vecs1]| |]
      eqn:Helem; try discriminate.
    intros Hrest Hwrites HQ.
    apply transfer_element_updating in Helem as (-> & Hpid & Hcell & Hframe).
    apply (IH sol vecs1 sol' vecs' Hrest).
    + intros e previous He. apply Hwrites. right. exact He.
    + destruct (decide (P = Z.to_nat pid /\ G = N.to_nat g)) as [(-> & ->)|Hne].
      * rewrite Hcell. apply (Hwrites (pid, var)); auto. left.
      * rewrite Hframe by assumption. exact HQ.
Qed.

(** With one vector per process, the entry of the process bound to "H" is
    left at the value derived from the pH. *)
Lemma transfer_elements_hydrogen g p : forall pmap sol vecs sol' vecs',
  transfer_elements Updating g pmap (sol, vecs) = Ok (sol', vecs') ->
  NoDup (map fst pmap) ->
  (p, "H"%string) ∈ pmap ->
  cell vecs' (Z.to_nat p) (N.to_nat g) = Some (fpow ften (fneg (pH sol))).
Proof.
  induction pmap as [|[pid var] pmap IH]; intros sol vecs sol' vecs';
    cbn [transfer_elements]; [intros _ _ Hin; inversion Hin|].
  unfold mbind, outcome_bind, obind.
  destruct (transfer_element _ g (pid, var) (sol, vecs)) as [[sol1 vecs1]| |]
    eqn:Helem; try discriminate.
  intros Hrest Hnodup Hin.
  apply transfer_element_updating in Helem as (-> & Hpid & Hcell & Hframe).
  cbn [map fst] in Hnodup. apply list.NoDup_cons in Hnodup as (Hfresh & Hnodup).
  apply elem_of_cons in Hin as [[= <- <-]|Hin].
  - apply transfer_elements_updating in Hrest as (_ & Hpids & Hrest).
    rewrite Hrest.
    + rewrite Hcell. unfold updated_value. rewrite decide_True by reflexivity.
      reflexivity.
    + right. intros [q var'] Hq Heq. cbn [fst] in Heq.
      apply Hfresh. rewrite Forall_forall in Hpids.
      pose proof (Hpids (q, var') (proj1 (list_elem_of_In _ _) Hq)) as Hq0.
      cbn [fst] in Hq0. assert (q = p) as -> by lia.
      apply list_elem_of_In. apply in_map_iff. exists (p, var'). split; [reflexivity|].
      apply list_elem_of_In. exact Hq.
  - eapply IH; eassumption.
Qed.

(** *** The loop over the chemical systems, when updating *)

Lemma transfer_system_updating m pmap local_id sols vecs sols' vecs' :
  transfer_system Updating m pmap local_id (sols, vecs) = Ok (sols', vecs') ->
  exists g sol,
    m !! local_id = Some g /\ sols !! local_id = Some sol /\ sols' = sols /\
    transfer_elements Updating g pmap (sol, vecs) = Ok (sol, vecs').
Proof.
  unfold transfer_system, mbind, outcome_bind, obind.
  destruct (at_index m local_id) as [g| |] eqn:Hg; try discriminate.
  destruct (at_index sols local_id) as [sol| |] eqn:Hsol; try discriminate.
  destruct (transfer_elements _ g pmap (sol, vecs)) as [[sol1 vecs1]| |]
    eqn:Helems; try discriminate.
  intros [= <- <-]. apply at_index_Ok in Hg, Hsol.
  pose proof (transfer_elements_updating _ _ _ _ _ _ Helems) as (-> & _).
  exists g, sol. rewrite list_insert_id by assumption. auto.
Qed.

Lemma transfer_systems_updating_frame m pmap : forall local_ids sols vecs sols' vecs',
  transfer_systems Updating m pmap local_ids (sols, vecs) = Ok (sols', vecs') ->
  sols' = sols /\
  forall p' g',
    (forall k g, k ∈ local_ids -> m !! k = Some g -> g' <> N.to_nat g) ->
    cell vecs' p' g' = cell vecs p' g'.
Proof.
  induction local_ids as [|k local_ids IH]; intros sols vecs sols' vecs';
    cbn [transfer_systems].
  - intros [= <- <-]. auto.
  - unfold mbind, outcome_bind, obind.
    destruct (transfer_system _ m pmap k (sols, vecs)) as [[sols1 vecs1]| |]
      eqn:Hsys; try discriminate.
    intros Hrest.
    apply transfer_system_updating in Hsys as (g & sol & Hg & Hsol & -> & Helems).
    apply IH in Hrest as (-> & Hrest). split; [reflexivity|].
    intros p' g' Hmiss.
    apply transfer_elements_updating in Helems as (_ & _ & Hframe).
    rewrite Hrest, Hframe; [reflexivity| |].
    + left. apply (Hmiss k g); [left|assumption].
    + intros k' g0 Hk'. apply Hmiss. right. exact Hk'.
Qed.

Lemma transfer_systems_invariant m pmap (P G : nat) (Q : option double -> Prop) :
  forall local_ids sols vecs sols' vecs',
  transfer_systems Updating m pmap local_ids (sols, vecs) = Ok (sols', vecs') ->
  (forall k g sol e previous,
     k ∈ local_ids -> m !! k = Some g -> sols !! k = Some sol ->
     e ∈ pmap -> Z.to_nat (fst e) = P -> N.to_nat g = G ->
     Q previous -> Q (updated_value (snd e) sol previous)) ->
  Q (cell vecs P G) -> Q (cell vecs' P G).
Proof.
  induction local_ids as [|k local_ids IH]; intros sols vecs sols' vecs';
    cbn [transfer_systems].
  - intros [= <- <-]. auto.
  - unfold mbind, outcome_bind, obind.
    destruct (transfer_system _ m pmap k (sols, vecs)) as [[sols1 vecs1]| |]
      eqn:Hsys; try discriminate.
    intros Hrest Hwrites HQ.
    apply transfer_system_updating in Hsys as (g & sol & Hg & Hsol & -> & Helems).
    apply (IH sols vecs1 sols' vecs' Hrest).
    + intros k' g' sol' e previous Hk'. apply Hwrites. right. exact Hk'.
    + eapply transfer_elements_invariant; [exact Helems| |exact HQ].
      intros e previous He. eapply Hwrites; eauto. left.
Qed.

Lemma transfer_systems_hydrogen m pmap p :
  forall local_ids sols vecs sols' vecs' local_id g sol,
  transfer_systems Updating m pmap local_ids (sols, vecs) = Ok (sols', vecs') ->
  NoDup (map fst pmap) ->
  (p, "H"%string) ∈ pmap ->
  NoDup local_ids ->
  local_id ∈ local_ids ->
  m !! local_id = Some g ->
  sols !! local_id = Some sol ->
  (forall k g', k ∈ local_ids -> k <> local_id -> m !! k = Some g' -> g' <> g) ->
  cell vecs' (Z.to_nat p) (N.to_nat g) = Some (fpow ften (fneg (pH sol))).
Proof.
  induction local_ids as [|k local_ids IH];
    intros sols vecs sols' vecs' local_id g sol; cbn [transfer_systems];
    [intros _ _ _ _ Hin; inversion Hin|].
  unfold mbind, outcome_bind, obind.
  destruct (transfer_system _ m pmap k (sols, vecs)) as [[sols1 vecs1]| |]
    eqn:Hsys; try discriminate.
  intros Hrest Hpids HH Hnodup Hin Hg Hsol Hothers.
  apply transfer_system_updating in Hsys as (g0 & sol0 & Hg0 & Hsol0 & -> & Helems).
  apply list.NoDup_cons in Hnodup as (Hfresh & Hnodup).
  apply elem_of_cons in Hin as [->|Hin].
  - rewrite Hg in Hg0. injection Hg0 as <-.
    rewrite Hsol in Hsol0. injection Hsol0 as <-.
    apply transfer_systems_updating_frame in Hrest as (_ & Hrest).
    rewrite Hrest.
    + eapply transfer_elements_hydrogen; eassumption.
    + intros k' g' Hk' Hg' Heq. apply N2Nat.inj in Heq. subst g'.
      apply (Hothers k' g); [right; assumption| |assumption|reflexivity].
      intros ->. contradiction.
  - eapply (IH sols vecs1 sols' vecs' local_id g sol); eauto.
    intros k' g' Hk'. apply Hothers. right. exact Hk'.
Qed.

(** *** When the transfer is defined *)

Lemma element_sized_lookup vecs g pid var :
  element_sized (map length vecs) g (pid, var) ->
  (0 <= pid)%Z /\
  exists v, vecs !! Z.to_nat pid = Some v /\ N.to_nat g < length v.
Proof.
  intros (Hpid & len & Hlen & Hg). cbn [fst] in *. split; [assumption|].
  change (map length vecs) with (length <$> vecs) in Hlen.
  rewrite list_lookup_fmap in Hlen.
  destruct (vecs !! Z.to_nat pid) as [v|]; [|discriminate].
  injection Hlen as <-. eauto.
Qed.

Lemma lengths_insert vecs p (v v' : list double) :
  vecs !! p = Some v -> length v' = length v ->
  map length (<[p := v']> vecs) = map length vecs.
Proof.
  intros Hv Hlen. change (map length ?l) with (length <$> l).
  rewrite list_fmap_insert, Hlen. apply list_insert_id.
  rewrite list_lookup_fmap, Hv. reflexivity.
Qed.

Lemma transfer_component_defined status g pid var sol vecs :
  element_sized (map length vecs) g (pid, var) ->
  exists sol' vecs',
    transfer_component status g pid var (sol, vecs) = Ok (sol', vecs') /\
    map length vecs' = map length vecs.
Proof.
  intros (Hpid & v & Hv & Hg)%element_sized_lookup. unfold transfer_component.
  destruct (find_component (components sol) var) as [[k component]|]; [|eauto].
  rewrite (proj2 (process_solution_Ok_iff vecs pid v) (conj Hpid Hv)).
  unfold mbind, outcome_bind, obind, get, set, at_index, assign_index.
  destruct status.
  - destruct (lookup_lt_is_Some_2 v (N.to_nat g) Hg) as (x & ->). eauto.
  - rewrite decide_True by assumption. eexists _, _. split; [reflexivity|].
    apply (lengths_insert _ _ v); [assumption|apply length_insert].
Qed.

Lemma transfer_hydrogen_defined status g pid var sol vecs :
  element_sized (map length vecs) g (pid, var) ->
  exists sol' vecs',
    transfer_hydrogen status g pid var (sol, vecs) = Ok (sol', vecs') /\
    map length vecs' = map length vecs.
Proof.
  intros (Hpid & v & Hv & Hg)%element_sized_lookup. unfold transfer_hydrogen.
  destruct (decide (var = "H"%string)); [|eauto].
  rewrite (proj2 (process_solution_Ok_iff vecs pid v) (conj Hpid Hv)).
  unfold mbind, outcome_bind, obind, get, set, at_index, assign_index.
  destruct status.
  - destruct (lookup_lt_is_Some_2 v (N.to_nat g) Hg) as (x & ->). eauto.
  - rewrite decide_True by assumption. eexists _, _. split; [reflexivity|].
    apply (lengths_insert _ _ v); [assumption|apply length_insert].
Qed.

Lemma transfer_elements_defined status g : forall pmap sol vecs,
  Forall (element_sized (map length vecs) g) pmap ->
  exists sol' vecs',
    transfer_elements status g pmap (sol, vecs) = Ok (sol', vecs') /\
    map length vecs' = map length vecs.
Proof.
  induction pmap as [|[pid var] pmap IH]; intros sol vecs Hsized;
    cbn [transfer_elements]; [eauto|].
  apply list.Forall_cons in Hsized as (He & Hsized).
  unfold transfer_element. cbn [snd].
  pose proof (element_sized_lookup _ _ _ _ He) as (Hpid & v & Hv & Hg).
  rewrite (proj2 (process_solution_Ok_iff vecs pid v) (conj Hpid Hv)).
  destruct (transfer_component_defined status g pid var sol vecs He)
    as (sol1 & vecs1 & -> & Hlen1).
  unfold mbind, outcome_bind, obind.
  rewrite <- Hlen1 in He.
  destruct (transfer_hydrogen_defined status g pid var sol1 vecs1 He)
    as (sol2 & vecs2 & -> & Hlen2).
  rewrite <- Hlen1, <- Hlen2 in Hsized.
  destruct (IH sol2 vecs2 Hsized) as (sol' & vecs' & -> & Hlen).
  eexists _, _. split; [reflexivity|]. congruence.
Qed.

Lemma transfer_systems_defined status m pmap : forall local_ids sols vecs,
  Forall (fun k => k < length sols /\
            exists g, m !! k = Some g /\
              Forall (element_sized (map length vecs) g) pmap) local_ids ->
  exists sols' vecs',
    transfer_systems status m pmap local_ids (sols, vecs) = Ok (sols', vecs') /\
    length sols' = length sols /\ map length vecs' = map length vecs.
Proof.
  induction local_ids as [|k local_ids IH]; intros sols vecs Hsized;
    cbn [transfer_systems]; [eauto|].
  apply list.Forall_cons in Hsized as ((Hk & g & Hg & He) & Hsized).
  unfold transfer_system, at_index. rewrite Hg.
  destruct (lookup_lt_is_Some_2 sols k Hk) as (sol & ->).
  unfold mbind, outcome_bind, obind.
  destruct (transfer_elements_defined status g pmap sol vecs He)
    as (sol1 & vecs1 & -> & Hlen1).
  destruct (IH (<[k := sol1]> sols) vecs1) as (sols' & vecs' & -> & Hs & Hv).
  { eapply List.Forall_impl; [|exact Hsized]. cbn beta.
    intros k' (Hk' & g' & Hg' & He'). rewrite length_insert, Hlen1. eauto. }
  eexists _, _. split; [reflexivity|]. rewrite length_insert in Hs.
  split; congruence.
Qed.

Lemma transport_defined status io vecs :
  transport_sized io vecs ->
  exists sols' vecs',
    setAqueousSolutionsOrUpdateProcessSolutions io vecs status
      = Ok (with_aqueous_solutions io sols', vecs') /\
    transfer_systems status (bulk_node_ids (_mesh io))
      (_process_id_to_component_name_map io)
      (seq 0 (N.to_nat (NumberOfBaseNodes (_mesh io))))
      (_aqueous_solutions io, vecs) = Ok (sols', vecs') /\
    length sols' = length (_aqueous_solutions io) /\
    map length vecs' = map length vecs.
Proof.
  intros (Hmap & Hsols & Hsized).
  unfold setAqueousSolutionsOrUpdateProcessSolutions.
  destruct (transfer_systems_defined status (bulk_node_ids (_mesh io))
              (_process_id_to_component_name_map io)
              (seq 0 (N.to_nat (NumberOfBaseNodes (_mesh io))))
              (_aqueous_solutions io) vecs) as (sols' & vecs' & Hrun & Hs & Hv).
  - apply Forall_forall. intros k Hk%in_seq. split; [lia|].
    destruct (lookup_lt_is_Some_2 (bulk_node_ids (_mesh io)) k) as (g & Hg);
      [lia|].
    exists g. split; [assumption|].
    rewrite Forall_forall in Hsized. apply Hsized.
    apply list_elem_of_In, elem_of_take. exists k. split; [assumption|lia].
  - rewrite Hrun. cbn. eauto 10.
Qed.

Lemma with_aqueous_solutions_same io :
  with_aqueous_solutions io (_aqueous_solutions io) = io.
Proof. destruct io. reflexivity. Qed.

Lemma sized_element io vecs local_id g e :
  transport_sized io vecs ->
  local_id < N.to_nat (NumberOfBaseNodes (_mesh io)) ->
  bulk_node_ids (_mesh io) !! local_id = Some g ->
  e ∈ _process_id_to_component_name_map io ->
  element_sized (map length vecs) g e.
Proof.
  intros (_ & _ & Hsized) Hlocal Hg He.
  rewrite Forall_forall in Hsized.
  assert (Hin : In g (take (N.to_nat (NumberOfBaseNodes (_mesh io)))
                        (bulk_node_ids (_mesh io)))).
  { apply list_elem_of_In, elem_of_take. eauto. }
  specialize (Hsized g Hin). rewrite Forall_forall in Hsized.
  apply Hsized, list_elem_of_In, He.
Qed.

(** *** One element of the process id map, when setting *)

Lemma find_component_insert var x nm :
  forall (comps : list (@Component double)) k component,
  find_component comps var = Some (k, component) ->
  find_component (<[k := set_amount component x]> comps) nm
  = if decide (nm = var) then Some (k, set_amount component x)
    else find_component comps nm.
Proof.
  unfold find_component.
  induction comps as [|c comps IH]; intros k component Hfind; [discriminate|].
  cbn [list_find] in Hfind.
  destruct (decide (component_name c = var)) as [Hc|Hc].
  - injection Hfind as <- <-. cbn [insert list_insert list_find set_amount component_name].
    rewrite Hc. destruct (decide (nm = var)) as [->|Hne].
    + rewrite decide_True by reflexivity. reflexivity.
    + rewrite !decide_False by congruence. reflexivity.
  - destruct (list_find _ comps) as [[k' c0]|] eqn:Hl; [|discriminate].
    injection Hfind as <- <-. cbn [insert list_insert list_find].
    change (list_insert k' (set_amount c0 x) comps)
      with (<[k' := set_amount c0 x]> comps).
    pose proof (IH k' c0 eq_refl) as IH'.
    destruct (decide (component_name c = nm)) as [Hcn|Hcn].
    + rewrite decide_False by congruence. reflexivity.
    + etrans; [apply (f_equal (fmap (prod_map S Datatypes.id))); exact IH'|].
      destruct (decide (nm = var)); reflexivity.
Qed.

Lemma get_Ok {S} (v : list double) g x :
  get (S := S) v g = Ok x -> v !! N.to_nat g = Some x.
Proof. apply at_index_Ok. Qed.

Lemma transfer_element_setting g pid var sol vecs sol' vecs' :
  transfer_element Setting g (pid, var) (sol, vecs) = Ok (sol', vecs') ->
  vecs' = vecs /\
  (forall nm, amount_of sol' nm
     = if decide (nm = var)
       then match amount_of sol var with
            | Some _ => cell vecs (Z.to_nat pid) (N.to_nat g)
            | None => None
            end
       else amount_of sol nm) /\
  (if decide (var = "H"%string)
   then exists x, cell vecs (Z.to_nat pid) (N.to_nat g) = Some x /\
                  pH sol' = fneg (flog10 x)
   else pH sol' = pH sol).
Proof.
  unfold transfer_element. cbn [snd]. unfold mbind, outcome_bind, obind.
  destruct (process_solution vecs pid) as [v0| |] eqn:Hv0; try discriminate.
  pose proof (process_solution_Ok _ _ _ Hv0) as (Hpid & Hv0').
  assert (Hcell : cell vecs (Z.to_nat pid) (N.to_nat g) = v0 !! N.to_nat g).
  { unfold cell. rewrite Hv0'. reflexivity. }
  unfold transfer_component, transfer_hydrogen, amount_of.
  destruct (find_component (components sol) var) as [[k component]|] eqn:Hfind.
  - rewrite Hv0. unfold mbind, outcome_bind, obind.
    destruct (get v0 g) as [x| |] eqn:Hx; try discriminate.
    apply get_Ok in Hx.
    destruct (decide (var = "H"%string)) as [HH|HH].
    + rewrite Hv0. unfold mbind, outcome_bind, obind.
      unfold get, at_index. rewrite Hx. intros [= <- <-].
      split; [reflexivity|]. split; [|exists x; rewrite Hcell; auto].
      intros nm. cbn [components set_pH set_components].
      rewrite (find_component_insert var x nm _ _ _ Hfind).
      destruct (decide (nm = var)); [rewrite Hcell, Hx|]; reflexivity.
    + intros [= <- <-]. split; [reflexivity|]. split; [|reflexivity].
      intros nm. cbn [components set_components].
      rewrite (find_component_insert var x nm _ _ _ Hfind).
      destruct (decide (nm = var)); [rewrite Hcell, Hx|]; reflexivity.
  - destruct (decide (var = "H"%string)) as [HH|HH].
    + rewrite Hv0. unfold mbind, outcome_bind, obind.
      destruct (get v0 g) as [x| |] eqn:Hx; try discriminate.
      apply get_Ok in Hx. intros [= <- <-].
      split; [reflexivity|]. split; [|exists x; rewrite Hcell; auto].
      intros nm. cbn [components set_pH].
      destruct (decide (nm = var)) as [->|]; [rewrite Hfind|]; reflexivity.
    + intros [= <- <-]. split; [reflexivity|]. split; [|reflexivity].
      intros nm. destruct (decide (nm = var)) as [->|]; [rewrite Hfind|];
        reflexivity.
Qed.

(** *** The loops, when setting *)

Lemma elem_of_map_snd {A B} (l : list (A * B)) (y : B) :
  y ∈ map snd l <-> exists x, (x, y) ∈ l.
Proof.
  rewrite list_elem_of_In, in_map_iff. split.
  - intros ([x y'] & Hy & Hin). cbn in Hy. subst y'. exists x.
    apply list_elem_of_In. exact Hin.
  - intros (x & Hin). exists (x, y). split; [reflexivity|].
    apply list_elem_of_In. exact Hin.
Qed.

Lemma transfer_elements_setting g : forall pmap sol vecs sol' vecs',
  transfer_elements Setting g pmap (sol, vecs) = Ok (sol', vecs') ->
  NoDup (map snd pmap) ->
  vecs' = vecs /\
  (forall nm, nm ∉ map snd pmap -> amount_of sol' nm = amount_of sol nm) /\
  ("H"%string ∉ map snd pmap -> pH sol' = pH sol) /\
  setting_result vecs pmap g sol'.
Proof.
  induction pmap as [|[pid0 var0] pmap IH]; intros sol vecs sol' vecs';
    cbn [transfer_elements].
  - intros [= <- <-] _. split; [reflexivity|].
    split; [intros; reflexivity|]. split; [intros; reflexivity|]. split.
    + intros pid var a Hin. inversion Hin.
    + intros pid Hin. inversion Hin.
  - unfold mbind, outcome_bind, obind.
    destruct (transfer_element _ g (pid0, var0) (sol, vecs)) as [[sol1 vecs1]| |]
      eqn:Helem; try discriminate.
    intros Hrest Hnodup. cbn [map snd] in Hnodup.
    apply list.NoDup_cons in Hnodup as (Hfresh & Hnodup).
    apply transfer_element_setting in Helem as (-> & Hamount & HpH).
    apply IH in Hrest as (-> & Hframe & HframeH & Hvalues & HH);
      [|assumption].
    split; [reflexivity|]. split; [|split; [|split]].
    + intros nm Hnm. cbn [map snd] in Hnm.
      apply not_elem_of_cons in Hnm as (Hne & Hnm).
      rewrite Hframe, Hamount by assumption.
      rewrite decide_False by assumption. reflexivity.
    + intros Hnm. cbn [map snd] in Hnm.
      apply not_elem_of_cons in Hnm as (Hne & Hnm).
      rewrite HframeH by assumption.
      rewrite decide_False in HpH by congruence. exact HpH.
    + intros pid var a [[= -> ->]|Hin]%elem_of_cons Ha.
      * rewrite Hframe, Hamount in Ha by assumption.
        rewrite decide_True in Ha by reflexivity.
        destruct (amount_of sol var0); [exact Ha|discriminate].
      * eapply Hvalues; eassumption.
    + intros pid [[= -> <-]|Hin]%elem_of_cons.
      * rewrite decide_True in HpH by reflexivity.
        destruct HpH as (x & Hx & HpH). exists x. split; [exact Hx|].
        rewrite HframeH by assumption. exact HpH.
      * apply HH. exact Hin.
Qed.

Lemma transfer_system_setting m pmap local_id sols vecs sols' vecs' :
  transfer_system Setting m pmap local_id (sols, vecs) = Ok (sols', vecs') ->
  exists g sol sol',
    m !! local_id = Some g /\ sols !! local_id = Some sol /\
    transfer_elements Setting g pmap (sol, vecs) = Ok (sol', vecs') /\
    sols' = <[local_id := sol']> sols.
Proof.
  unfold transfer_system, mbind, outcome_bind, obind.
  destruct (at_index m local_id) as [g| |] eqn:Hg; try discriminate.
  destruct (at_index sols local_id) as [sol| |] eqn:Hsol; try discriminate.
  destruct (transfer_elements _ g pmap (sol, vecs)) as [[sol1 vecs1]| |]
    eqn:Helems; try discriminate.
  intros [= <- <-]. apply at_index_Ok in Hg, Hsol. eauto 10.
Qed.

Lemma transfer_systems_setting m pmap : forall local_ids sols vecs sols' vecs',
  transfer_systems Setting m pmap local_ids (sols, vecs) = Ok (sols', vecs') ->
  NoDup (map snd pmap) ->
  NoDup local_ids ->
  vecs' = vecs /\
  (forall k, k ∉ local_ids -> sols' !! k = sols !! k) /\
  (forall k g sol, k ∈ local_ids -> m !! k = Some g -> sols' !! k = Some sol ->
     setting_result vecs pmap g sol).
Proof.
  induction local_ids as [|k0 local_ids IH]; intros sols vecs sols' vecs';
    cbn [transfer_systems].
  - intros [= <- <-] _ _. split; [reflexivity|]. split; [reflexivity|].
    intros k g sol Hin. inversion Hin.
  - unfold mbind, outcome_bind, obind.
    destruct (transfer_system _ m pmap k0 (sols, vecs)) as [[sols1 vecs1]| |]
      eqn:Hsys; try discriminate.
    intros Hrest Hnames Hnodup.
    apply list.NoDup_cons in Hnodup as (Hfresh & Hnodup).
    apply transfer_system_setting in Hsys
      as (g0 & sol0 & sol0' & Hg0 & Hsol0 & Helems & ->).
    apply transfer_elements_setting in Helems as (-> & _ & _ & Hresult);
      [|assumption].
    apply IH in Hrest as (-> & Hframe & Hvalues); [|assumption..].
    split; [reflexivity|]. split.
    + intros k Hk. apply not_elem_of_cons in Hk as (Hne & Hk).
      rewrite Hframe by assumption. apply list_lookup_insert_ne. congruence.
    + intros k g sol [->|Hin]%elem_of_cons Hg Hsol.
      * rewrite Hframe in Hsol by assumption.
        rewrite list_lookup_insert_eq in Hsol
          by (eapply lookup_lt_Some; eassumption).
        injection Hsol as <-. rewrite Hg in Hg0. injection Hg0 as <-.
        exact Hresult.
      * eapply Hvalues; eassumption.
Qed.

(** Setting stores the pH derived from the entry of the process bound to
    "H"; updating then leaves in that entry the value derived from this pH,
    or the entry itself when a component bound to the same vector wrote it
    back last. *)
Lemma set_then_update io vecs local_id g p c :
  let n := N.to_nat (NumberOfBaseNodes (_mesh io)) in
  let pmap := _process_id_to_component_name_map io in
  transport_sized io vecs ->
  NoDup (map snd pmap) ->
  local_id < n ->
  bulk_node_ids (_mesh io) !! local_id = Some g ->
  (p, "H"%string) ∈ pmap ->
  transport_value vecs p g = Some c ->
  exists io1 sol1 io2 vecs2 r,
    setAqueousSolutionsOrUpdateProcessSolutions io vecs Setting
      = Ok (io1, vecs) /\
    _aqueous_solutions io1 !! local_id = Some sol1 /\
    pH sol1 = fneg (flog10 c) /\
    setAqueousSolutionsOrUpdateProcessSolutions io1 vecs Updating
      = Ok (io2, vecs2) /\
    transport_value vecs2 p g = Some r /\
    (r = c \/ r = fpow ften (fneg (pH sol1))) /\
    (NoDup (map fst pmap) -> NoDup (take n (bulk_node_ids (_mesh io))) ->
     r = fpow ften (fneg (pH sol1))).
Proof.
  intros n pmap Hsized Hnames Hlocal Hg HH Hc.
  destruct (transport_defined Setting io vecs Hsized)
    as (sols1 & vecs1 & Hrun1 & Hsys1 & Hlen1 & _).
  apply transfer_systems_setting in Hsys1 as (-> & _ & Hresult);
    [|assumption|apply NoDup_seq].
  set (io1 := with_aqueous_solutions io sols1) in *.
  assert (Hsized1 : transport_sized io1 vecs).
  { destruct Hsized as (? & ? & ?). repeat split; cbn; try assumption. lia. }
  destruct (transport_defined Updating io1 vecs Hsized1)
    as (sols2 & vecs2 & Hrun2 & Hsys2 & _).
  pose proof (sized_element io vecs local_id g _ Hsized Hlocal Hg HH)
    as (Hp & _). cbn [fst] in Hp.
  destruct (lookup_lt_is_Some_2 sols1 local_id) as (sol1 & Hsol1).
  { destruct Hsized as (_ & ? & _). fold n in Hlocal. lia. }
  assert (Hin : local_id ∈ seq 0 n) by (apply elem_of_seq; lia).
  unfold transport_value in Hc. rewrite decide_True in Hc by assumption.
  assert (HpH1 : pH sol1 = fneg (flog10 c)).
  { destruct (Hresult local_id g sol1 Hin Hg Hsol1) as (_ & HpH).
    destruct (HpH p HH) as (x & Hx & ->). congruence. }
  assert (HQ : cell vecs2 (Z.to_nat p) (N.to_nat g) = Some c \/
               cell vecs2 (Z.to_nat p) (N.to_nat g)
               = Some (fpow ften (fneg (pH sol1)))).
  { apply (transfer_systems_invariant _ _ (Z.to_nat p) (N.to_nat g)
             (fun o => o = Some c \/ o = Some (fpow ften (fneg (pH sol1))))
             _ _ _ _ _ Hsys2); [|left; exact Hc].
    cbn [io1 with_aqueous_solutions _mesh _aqueous_solutions
           _process_id_to_component_name_map].
    intros k g' sol [q var] previous Hk Hg' Hsol He Hq Hgg Hprev.
    cbn [fst snd] in *. apply N2Nat.inj in Hgg. subst g'.
    pose proof Hk as Hk'. apply elem_of_seq in Hk'.
    pose proof (sized_element io vecs k g _ Hsized (proj2 Hk') Hg' He)
      as (Hq0 & _).
    cbn [fst] in Hq0. assert (q = p) as -> by lia.
    destruct (Hresult k g sol Hk Hg' Hsol) as (Hvalues & HpH).
    unfold updated_value. destruct (decide (var = "H"%string)) as [->|HnotH].
    - right. destruct (HpH p He) as (x & Hx & ->). rewrite HpH1. congruence.
    - destruct (find_component (components sol) var) as [[j component]|]
        eqn:Hfind; [|exact Hprev].
      left. rewrite <- Hc. symmetry. apply (Hvalues p var); [exact He|].
      unfold amount_of. rewrite Hfind. reflexivity. }
  assert (Hr : exists r, cell vecs2 (Z.to_nat p) (N.to_nat g) = Some r /\
                 (r = c \/ r = fpow ften (fneg (pH sol1)))).
  { destruct HQ as [HQ|HQ]; eauto. }
  destruct Hr as (r & Hr & Hcases).
  exists io1, sol1, (with_aqueous_solutions io1 sols2), vecs2, r.
  split; [exact Hrun1|]. split; [exact Hsol1|]. split; [exact HpH1|].
  split; [exact Hrun2|]. split.
  { unfold transport_value. rewrite decide_True by assumption. exact Hr. }
  split; [exact Hcases|].
  intros Hpids Hmap.
  assert (Hcell : cell vecs2 (Z.to_nat p) (N.to_nat g)
                  = Some (fpow ften (fneg (pH sol1)))).
  { eapply (transfer_systems_hydrogen _ _ p _ _ _ _ _ local_id g sol1 Hsys2);
      try eassumption.
    - apply NoDup_seq.
    - intros k' g' Hk' Hne Hg' ->. apply elem_of_seq in Hk'.
      unfold io1 in Hk', Hg'. cbn [with_aqueous_solutions _mesh] in Hk', Hg'.
      apply Hne. eapply (NoDup_lookup _ _ _ _ Hmap);
        rewrite lookup_take_lt by (unfold n; lia); eassumption. }
  congruence.
Qed.

(** *** The properties of the update of the transport vectors *)


End TransportProperties.

(** *** The tolerance of the pH conversion *)

Lemma exp_monotone (x y : R) : (x <= y)%R -> (exp x <= exp y)%R.
Proof.
  intros [Hlt| ->]; [left; apply exp_increasing; exact Hlt|right; reflexivity].
Qed.

Lemma Rabs_le_between (x a : R) : (Rabs x <= a)%R -> (- a <= x <= a)%R.
Proof. unfold Rabs. destruct (Rcase_abs x); lra. Qed.

Lemma ln_10_pos : (0 < ln 10)%R.
Proof. rewrite <- ln_1. apply ln_increasing; lra. Qed.

(** The deviation of a product of two factors near 1. *)
Lemma factor_bound (a b t u : R) :
  (1 <= b)%R -> (/ b <= a <= b)%R -> (Rabs (t - 1) <= u)%R ->
  (Rabs (a * t - 1) <= (1 + u) * b - 1)%R.
Proof.
  intros Hb (Hlo & Hhi) Ht.
  assert (Hu : (0 <= u)%R) by (pose proof (Rabs_pos (t - 1)); lra).
  assert (Hinv : (0 < / b)%R) by (apply Rinv_0_lt_compat; lra).
  assert (Hbb : (b * / b = 1)%R) by (apply Rinv_r; lra).
  apply Rabs_le_between in Ht. destruct Ht as (Ht1 & Ht2).
  apply Rabs_le. split.
  - destruct (Rle_dec u 1) as [Hu1|Hu1].
    + assert ((/ b) * (1 - u) <= a * t)%R.
      { apply Rle_trans with (a * (1 - u))%R.
        - apply Rmult_le_compat_r; lra.
        - apply Rmult_le_compat_l; lra. }
      assert (2 <= b + / b)%R by nra.
      assert (0 <= u * (b - / b))%R.
      { apply Rmult_le_pos; [lra|]. nra. }
      nra.
    + assert (b * (1 - u) <= a * t)%R.
      { apply Rle_trans with (a * (1 - u))%R.
        - assert (0 <= (b - a) * (u - 1))%R by (apply Rmult_le_pos; lra).
          lra.
        - apply Rmult_le_compat_l; lra. }
      nra.
  - assert (a * t <= b * (1 + u))%R.
    { apply Rle_trans with (a * (1 + u))%R.
      - apply Rmult_le_compat_l; lra.
      - apply Rmult_le_compat_r; lra. }
    lra.
Qed.

(** [10^x] for an [x] that is [log10 c] up to [u], computed up to [u]. *)
Lemma round_trip_bound (u c L P : R) :
  (0 < c)%R ->
  approximates u L (ln c / ln 10) ->
  approximates u P (Rpower 10 L) ->
  (Rabs (P - c) <= c * ((1 + u) * exp (u * Rabs (ln c)) - 1))%R.
Proof.
  intros Hc (d1 & Hd1 & ->) (d2 & Hd2 & ->).
  pose proof ln_10_pos as Hln.
  assert (Hu : (0 <= u)%R) by (pose proof (Rabs_pos d1); lra).
  unfold Rpower.
  replace (ln c / ln 10 * (1 + d1) * ln 10)%R with (ln c + d1 * ln c)%R
    by (field; lra).
  rewrite exp_plus, exp_ln by exact Hc.
  replace (c * exp (d1 * ln c) * (1 + d2) - c)%R
    with (c * (exp (d1 * ln c) * (1 + d2) - 1))%R by ring.
  rewrite Rabs_mult, (Rabs_pos_eq c) by lra.
  apply Rmult_le_compat_l; [lra|].
  assert (He : (Rabs (d1 * ln c) <= u * Rabs (ln c))%R).
  { rewrite Rabs_mult. apply Rmult_le_compat_r; [apply Rabs_pos|exact Hd1]. }
  apply Rabs_le_between in He. destruct He as (He1 & He2).
  apply factor_bound.
  - rewrite <- exp_0. apply exp_monotone.
    apply Rmult_le_pos; [exact Hu|apply Rabs_pos].
  - rewrite <- exp_Ropp. split; apply exp_monotone; lra.
  - replace (1 + d2 - 1)%R with d2 by ring. exact Hd2.
Qed.

(** [10^-x] is below 1 for a positive [x]. *)
Lemma power_of_ten_below_one (x : R) : (0 < x)%R -> (Rpower 10 (- x) < 1)%R.
Proof.
  intros Hx. unfold Rpower. rewrite <- exp_0. apply exp_increasing.
  pose proof ln_10_pos. nra.
Qed.

Section RoundTrip.
Context {double Knobs ReactionRate SurfaceSite PrevSolution : Type}.
Context `{FloatOps double}.
Local Abbreviation PhreeqcIO :=
  (@PhreeqcIO double Knobs ReactionRate SurfaceSite PrevSolution).
Implicit Types (io : PhreeqcIO) (vecs : list (list double)).


End RoundTrip.

(* ------------------------------------------------------------------ *)
(** ** Further properties of the code *)
(* ------------------------------------------------------------------ *)

(** ** The tokenizer *)

Lemma append_assoc (a b c : string) : (a +:+ b) +:+ c = a +:+ b +:+ c.
Proof.
  induction a as [|x a IH]; [reflexivity|].
  change (String x ((a +:+ b) +:+ c) = String x (a +:+ b +:+ c)).
  rewrite IH. reflexivity.
Qed.

Lemma append_empty_r (a : string) : a +:+ EmptyString = a.
Proof.
  induction a as [|x a IH]; [reflexivity|].
  change (String x (a +:+ EmptyString) = String x a).
  rewrite IH. reflexivity.
Qed.

Lemma trim_left_blank lead s :
  all_blank lead = true -> trim_left (lead +:+ s) = trim_left s.
Proof.
  induction lead as [|c lead IH]; simpl; [reflexivity|].
  intros [Hc Hlead]%andb_prop. rewrite Hc. auto.
Qed.

Lemma trim_left_token t s : is_token t -> trim_left (t +:+ s) = t +:+ s.
Proof.
  intros (Hne & Hnb). destruct t as [|c t]; [contradiction|]. simpl in *.
  apply andb_prop in Hnb as [Hc _]. apply negb_true_iff in Hc. rewrite Hc.
  reflexivity.
Qed.

Lemma trim_right_blank trail : all_blank trail = true -> trim_right trail = EmptyString.
Proof.
  induction trail as [|c trail IH]; simpl; [reflexivity|].
  intros [Hc Htrail]%andb_prop. rewrite IH by assumption. rewrite Hc.
  reflexivity.
Qed.

Lemma trim_right_trail s trail :
  all_blank trail = true -> trim_right (s +:+ trail) = trim_right s.
Proof.
  intros Htrail. induction s as [|c s IH]; simpl.
  - apply trim_right_blank. exact Htrail.
  - rewrite IH. reflexivity.
Qed.

Lemma trim_right_token t : is_token t -> trim_right t = t.
Proof.
  intros (Hne & Hnb). induction t as [|c t IH]; [contradiction|]. simpl in *.
  apply andb_prop in Hnb as [Hc Ht]. apply negb_true_iff in Hc.
  destruct t as [|c' t]; [simpl; rewrite Hc; reflexivity|].
  rewrite IH by (try discriminate; assumption). reflexivity.
Qed.

Lemma trim_right_ends_token s t : is_token t -> trim_right (s +:+ t) = s +:+ t.
Proof.
  intros Ht. induction s as [|c s IH]; [apply trim_right_token; exact Ht|].
  change (String c s +:+ t) with (String c (s +:+ t)). cbn [trim_right].
  rewrite IH. destruct (s +:+ t) eqn:Hst; [|reflexivity].
  destruct Ht as (Hne & _). destruct s; simpl in Hst; [contradiction|discriminate].
Qed.

Lemma row_tail_trail more trail :
  foldr (fun '(sep, item) s => sep +:+ item +:+ s) trail more
  = foldr (fun '(sep, item) s => sep +:+ item +:+ s) EmptyString more +:+ trail.
Proof.
  induction more as [|[sep item] more IH]; cbn [foldr]; [reflexivity|].
  rewrite IH, !append_assoc. reflexivity.
Qed.

Lemma trim_right_row pre : forall more item,
  is_token item -> Forall (fun p => is_token (snd p)) more ->
  trim_right (pre +:+ item
              +:+ foldr (fun '(sep, item) s => sep +:+ item +:+ s) EmptyString more)
  = pre +:+ item
    +:+ foldr (fun '(sep, item) s => sep +:+ item +:+ s) EmptyString more.
Proof.
  intros more. revert pre.
  induction more as [|[sep item'] more IH]; intros pre item Hitem Hmore;
    cbn [foldr].
  - rewrite append_empty_r. apply trim_right_ends_token. exact Hitem.
  - apply list.Forall_cons in Hmore as (Hitem' & Hmore). cbn [snd] in Hitem'.
    rewrite <- !append_assoc. rewrite (append_assoc _ item').
    rewrite (append_assoc pre item sep).
    apply (IH (pre +:+ item +:+ sep) item' Hitem' Hmore).
Qed.

Lemma split_from_cons b s : exists t ts, split_from b s = t :: ts.
Proof.
  revert b. induction s as [|c s IH]; intros b; simpl; [eauto|].
  destruct (is_any_of_tab_space c).
  - destruct b; [apply IH|eauto].
  - destruct (IH false) as (t & ts & ->). eauto.
Qed.

Lemma split_from_token b t s : forall u us,
  no_blank t = true -> split_from false s = u :: us ->
  t <> EmptyString \/ b = false ->
  split_from b (t +:+ s) = (t +:+ u) :: us.
Proof.
  revert b. induction t as [|c t IH]; intros b u us Hnb Hs Hne.
  - destruct Hne as [?| ->]; [contradiction|]. exact Hs.
  - simpl in *. apply andb_prop in Hnb as [Hc Ht]. apply negb_true_iff in Hc.
    rewrite Hc. rewrite (IH false u us Ht Hs) by auto. reflexivity.
Qed.

Lemma split_from_blank sep s :
  all_blank sep = true -> split_from true (sep +:+ s) = split_from true s.
Proof.
  induction sep as [|c sep IH]; simpl; [reflexivity|].
  intros [Hc Hsep]%andb_prop. rewrite Hc. auto.
Qed.

Lemma split_from_separator sep s :
  is_separator sep ->
  split_from false (sep +:+ s) = EmptyString :: split_from true s.
Proof.
  intros (Hne & Hblank). destruct sep as [|c sep]; [contradiction|]. simpl in *.
  apply andb_prop in Hblank as [Hc Hsep]. rewrite Hc.
  rewrite split_from_blank by assumption. reflexivity.
Qed.

Lemma split_row : forall more item,
  is_token item ->
  Forall (fun p => is_separator (fst p) /\ is_token (snd p)) more ->
  split_from false
    (item +:+ foldr (fun '(sep, item) s => sep +:+ item +:+ s) EmptyString more)
  = item :: map snd more.
Proof.
  induction more as [|[sep item'] more IH]; intros item (Hne & Hnb) Hmore;
    cbn [foldr map snd].
  - rewrite (split_from_token false item EmptyString EmptyString []);
      auto. rewrite append_empty_r. reflexivity.
  - apply list.Forall_cons in Hmore as ((Hsep & Hitem') & Hmore).
    cbn [fst snd] in Hsep, Hitem'.
    rewrite (split_from_token false item _ EmptyString
               (item' :: map snd more)); auto.
    + rewrite append_empty_r. reflexivity.
    + rewrite split_from_separator by assumption. f_equal.
      pose proof (IH item' Hitem' Hmore) as Hrest.
      destruct (split_from_cons false
                  (foldr (fun '(sep, item) s => sep +:+ item +:+ s)
                     EmptyString more)) as (u & us & Hu).
      destruct Hitem' as (Hne' & Hnb').
      rewrite (split_from_token true item' _ u us); auto.
      rewrite (split_from_token false item' _ u us) in Hrest; auto.
Qed.

(** X3: the items of a row are the pieces between the runs of tabs and spaces:
    leading and trailing tabs and spaces give no item, and a run of several
    separators gives no empty item. *)
Theorem row_items_of_a_row lead first more trail :
  all_blank lead = true -> all_blank trail = true ->
  is_token first ->
  Forall (fun p => is_separator (fst p) /\ is_token (snd p)) more ->
  row_items (row_text lead first more trail) = first :: map snd more.
Proof.
  intros Hlead Htrail Hfirst Hmore. unfold row_items, row_text, trim_if.
  rewrite trim_left_blank by assumption.
  rewrite trim_left_token by assumption.
  rewrite row_tail_trail, <- append_assoc.
  rewrite trim_right_trail by assumption.
  pose proof (trim_right_row EmptyString more first Hfirst) as Htrim.
  change (EmptyString +:+ ?s) with s in Htrim. rewrite Htrim.
  - apply split_row; assumption.
  - eapply List.Forall_impl; [|exact Hmore]. intros p (_ & Hp). exact Hp.
Qed.

(** A row of tabs and spaces only, or an empty row, has one item, the empty
    string. *)
Lemma row_items_of_a_blank_row s :
  all_blank s = true -> row_items s = [EmptyString].
Proof.
  intros Hs. unfold row_items, trim_if.
  rewrite <- (append_empty_r s), trim_left_blank by assumption.
  reflexivity.
Qed.

Lemma line_count_ignore_line s : line_count (ignore_line s) = pred (line_count s).
Proof.
  induction s as [|c s IH]; [reflexivity|]. cbn [ignore_line line_count].
  destruct (Ascii.eqb c newline); [reflexivity|].
  destruct s; [reflexivity|exact IH].
Qed.

Lemma line_count_0 s : line_count s = 0 -> s = EmptyString.
Proof.
  induction s as [|c s IH]; [reflexivity|]. cbn [line_count].
  destruct (Ascii.eqb c newline); [discriminate|].
  destruct s; [discriminate|]. intros Hs. specialize (IH Hs). discriminate.
Qed.

Lemma ignore_lines_short n : forall s,
  line_count s <= n -> Nat.iter n ignore_line s = EmptyString.
Proof.
  induction n as [|n IH]; intros s Hs.
  - apply line_count_0. cbn. lia.
  - rewrite Nat.iter_succ_r. apply IH. rewrite line_count_ignore_line. lia.
Qed.

Section TruncatedTable.
Context {double Knobs ReactionRate SurfaceSite PrevSolution : Type}.
Local Abbreviation PhreeqcIO :=
  (@PhreeqcIO double Knobs ReactionRate SurfaceSite PrevSolution).
Variable stod : string -> StodResult double.
Implicit Types (io : PhreeqcIO) (m : list N) (blocks : list TableBlock).

Lemma extract_systems_short n m : forall ids k g rest io,
  m !! k = Some g -> line_count rest <= n ->
  extract_systems stod n m (k :: ids) rest io = Fatal (ReadResultError g) io.
Proof.
  intros ids k g rest io Hg Hshort. cbn [extract_systems].
  unfold at_index. rewrite Hg. cbn.
  rewrite ignore_lines_short by assumption. reflexivity.
Qed.

Lemma extract_systems_app n m : forall ids1 ids2 input io,
  extract_systems stod n m (ids1 ++ ids2) input io
  = (extract_systems stod n m ids1 input io
       ≫= fun '(input', io') => extract_systems stod n m ids2 input' io').
Proof.
  induction ids1 as [|k ids1 IH]; intros ids2 input io; [reflexivity|].
  cbn [app extract_systems]. unfold mbind, outcome_bind, obind.
  destruct (at_index m k) as [g| |]; try reflexivity.
  destruct (getline _) as [[line input']|]; [|reflexivity].
  destruct (read_row stod k g line io) as [io1| |]; try reflexivity.
  apply IH.
Qed.

(** X1: a table that ends before the data row of a system: when the rows of
    the systems before it have been read and no more lines are left than the
    lines that are skipped for a system, the run aborts with the error of
    reading the result of that system, which names its global id, in the state
    it had reached. *)
Theorem truncated_table_is_fatal io header blocks rest g io_k :
  let k := length blocks in
  no_newline header = true ->
  Forall (block_ok (num_skipped_lines io)) blocks ->
  k < N.to_nat (NumberOfBaseNodes (_mesh io)) ->
  bulk_node_ids (_mesh io) !! k = Some g ->
  read_rows stod (bulk_node_ids (_mesh io)) 0 (map data_row blocks) io = Ok io_k ->
  line_count rest <= num_skipped_lines io ->
  operator_extract stod (lines_then (table_lines header blocks) rest) io
  = Fatal (ReadResultError g) io_k.
Proof.
  intros k Hheader Hblocks Hk Hg Hrows Hshort.
  unfold operator_extract, table_lines.
  change (lines_then (header :: ?ls) rest)
    with (header +:+ String newline (lines_then ls rest)).
  rewrite ignore_line_line by assumption.
  replace (N.to_nat (NumberOfBaseNodes (_mesh io)))
    with (k + (N.to_nat (NumberOfBaseNodes (_mesh io)) - k)) by lia.
  rewrite seq_app, extract_systems_app.
  rewrite (extract_systems_blocks stod _ _ blocks 0 rest io Hblocks).
  rewrite Hrows. cbn.
  destruct (N.to_nat (NumberOfBaseNodes (_mesh io)) - k) as [|d] eqn:Hd; [lia|].
  cbn [seq]. apply extract_systems_short; assumption.
Qed.
End TruncatedTable.

Section EntriesOfARun.
Context {double Knobs ReactionRate SurfaceSite PrevSolution : Type}.
Local Abbreviation PhreeqcIO :=
  (@PhreeqcIO double Knobs ReactionRate SurfaceSite PrevSolution).
Implicit Types (io : PhreeqcIO) (m : list N).

Lemma same_shape_refl io : same_shape io io.
Proof. repeat split. Qed.

Lemma same_shape_trans io1 io2 io3 :
  same_shape io1 io2 -> same_shape io2 io3 -> same_shape io1 io3.
Proof.
  intros (?&?&?&?&?&?&?&?&?&?&?&?) (?&?&?&?&?&?&?&?&?&?&?&?).
  repeat split; congruence.
Qed.

Lemma map_insert_same {A B} (f : A -> B) (l : list A) k x y :
  l !! k = Some x -> f y = f x -> map f (<[k := y]> l) = map f l.
Proof.
  intros Hk Hf. change (map f) with (fmap (M := list) f).
  rewrite list_fmap_insert, Hf. apply list_insert_id.
  rewrite list_lookup_fmap, Hk. reflexivity.
Qed.

Lemma list_find_lookup {A} (P : A -> Prop) `{forall x, Decision (P x)}
    (l : list A) k x :
  list_find P l = Some (k, x) -> l !! k = Some x.
Proof. intros Hf. apply list_find_Some in Hf. tauto. Qed.

Lemma update_item_shape k g item v io io' :
  update_item k g item v io = Ok io' -> same_shape io io'.
Proof.
  unfold update_item. intros Hup. outcome_cases;
    repeat split; cbn; unfold array_shape;
    repeat match goal with
    | Hf : list_find _ _ = Some _ |- _ => apply list_find_lookup in Hf
    end;
    try (erewrite map_insert_same; [reflexivity|eassumption|]; cbn;
         rewrite ?length_insert; try reflexivity).
  - erewrite map_insert_same; [reflexivity|eassumption|reflexivity].
  - match goal with Hup : _user_punch io = _ |- _ => rewrite Hup end.
    cbn. erewrite map_insert_same; [reflexivity|eassumption|].
    cbn. rewrite length_insert. reflexivity.
Qed.


(** *** What one item of a row writes *)

Lemma scalar_entry_arrays io io' k ty nm :
  _aqueous_solutions io' = _aqueous_solutions io ->
  scalar_entry io' k ty nm = scalar_entry io k ty nm.
Proof. unfold scalar_entry. intros ->. reflexivity. Qed.

Lemma update_item_entry_hit k g item v io io' :
  update_item k g item v io = Ok io' ->
  entry io' k g (item_type item) (name item) = Some v.
Proof.
  intros Hup. unfold entry.
  destruct (is_array (item_type item)) eqn:Harray.
  - eapply update_item_hit; eassumption.
  - unfold update_item in Hup.
    assert (Hsol : forall sols (sol' : @AqueousSolution double),
              k < length sols ->
              with_aqueous_solutions io (<[k := sol']> sols) = io' ->
              _aqueous_solutions io' !! k = Some sol').
    { intros sols sol' Hlen <-. cbn. apply list_lookup_insert_eq. exact Hlen. }
    unfold scalar_entry.
    destruct (item_type item); cbn in Harray; try discriminate;
      unfold mbind, outcome_bind, obind, at_index, findElementOrError in Hup;
      destruct (_aqueous_solutions io !! k) as [sol|] eqn:Hk;
      try discriminate; pose proof (lookup_lt_Some _ _ _ Hk) as Hlt.
    + apply Ok_inj in Hup. rewrite (Hsol _ _ Hlt Hup). reflexivity.
    + apply Ok_inj in Hup. rewrite (Hsol _ _ Hlt Hup). reflexivity.
    + destruct (list_find _ (components sol)) as [[j c]|] eqn:Hfind;
        try discriminate.
      apply Ok_inj in Hup. rewrite (Hsol _ _ Hlt Hup).
      unfold amount_of. cbn [components set_components].
      erewrite find_component_insert by exact Hfind.
      rewrite decide_True by reflexivity. reflexivity.
Qed.

Lemma update_item_entry_miss k g item v io io' k' g' ty nm :
  update_item k g item v io = Ok io' ->
  ~ writes_to item k g k' g' ty nm ->
  entry io' k' g' ty nm = entry io k' g' ty nm.
Proof.
  intros Hup Hmiss. unfold entry.
  destruct (is_array ty) eqn:Harray.
  - eapply update_item_miss; [exact Hup|].
    intros (-> & -> & Hg%N2Nat.inj). apply Hmiss.
    split; [reflexivity|]. destruct (item_type item); try discriminate; auto.
  - assert (Hframe : _aqueous_solutions io' = _aqueous_solutions io \/
       exists sol sol',
         _aqueous_solutions io !! k = Some sol /\
         _aqueous_solutions io' = <[k := sol']> (_aqueous_solutions io) /\
         (item_type item <> ItemType.pH -> pH sol' = pH sol) /\
         (item_type item <> ItemType.pe -> pe sol' = pe sol) /\
         (forall nm, ~ (item_type item = ItemType.Component /\ nm = name item) ->
            amount_of sol' nm = amount_of sol nm)).
    { unfold update_item in Hup.
      destruct (item_type item) eqn:Hty;
        unfold mbind, outcome_bind, obind, at_index, findElementOrError in Hup.
      - destruct (_aqueous_solutions io !! k) as [sol|] eqn:Hk;
          try discriminate.
        apply Ok_inj in Hup. subst io'. right. exists sol, (set_pH sol v).
        repeat split; try reflexivity. congruence.
      - destruct (_aqueous_solutions io !! k) as [sol|] eqn:Hk;
          try discriminate.
        apply Ok_inj in Hup. subst io'. right. exists sol, (set_pe sol v).
        repeat split; try reflexivity. congruence.
      - destruct (_aqueous_solutions io !! k) as [sol|] eqn:Hk;
          try discriminate.
        destruct (list_find _ (components sol)) as [[j c]|] eqn:Hfind;
          try discriminate.
        apply Ok_inj in Hup. subst io'. right. eexists sol, _.
        split; [reflexivity|]. split; [reflexivity|].
        split; [reflexivity|]. split; [reflexivity|].
        intros nm0 Hnm. unfold amount_of. cbn [components set_components].
        erewrite find_component_insert by exact Hfind.
        rewrite decide_False; [reflexivity|]. intros ->. apply Hnm. auto.
      - left. outcome_cases.
      - left. outcome_cases.
      - left. outcome_cases. }
    destruct Hframe as [Hsame|(sol & sol' & Hk & Hsols & HpH & Hpe & Hamount)].
    { apply scalar_entry_arrays. exact Hsame. }
    unfold scalar_entry. rewrite Hsols.
    destruct (decide (k' = k)) as [->|Hne];
      [|rewrite list_lookup_insert_ne by auto; reflexivity].
    rewrite list_lookup_insert_eq by (eapply lookup_lt_Some; exact Hk).
    rewrite Hk. unfold writes_to in Hmiss.
    destruct ty; try reflexivity.
    + rewrite HpH; [reflexivity|]. intros Hty. apply Hmiss. auto.
    + rewrite Hpe; [reflexivity|]. intros Hty. apply Hmiss. auto.
    + apply Hamount. intros (Hty & ->). apply Hmiss. auto.
Qed.

(** *** The entries that exist depend on the shape only *)

Lemma named_entry_cons {A} (name_of : A -> string)
    (array_of : A -> list double) (x : A) (l : list A) nm i :
  named_entry name_of array_of (x :: l) nm i
  = if decide (name_of x = nm) then array_of x !! i
    else named_entry name_of array_of l nm i.
Proof.
  unfold named_entry. cbn [list_find].
  destruct (decide (name_of x = nm)); [reflexivity|].
  destruct (list_find _ l) as [[? ?]|]; reflexivity.
Qed.

Lemma named_entry_shape {A} (name_of : A -> string)
    (array_of : A -> list double) nm i : forall (l l' : list A),
  array_shape name_of array_of l' = array_shape name_of array_of l ->
  is_Some (named_entry name_of array_of l nm i) ->
  is_Some (named_entry name_of array_of l' nm i).
Proof.
  induction l as [|x l IH]; intros [|x' l']; try discriminate; [auto|].
  intros [= Hname Hlen Hrest]. rewrite !named_entry_cons, Hname.
  destruct (decide (name_of x = nm)); [|apply IH; exact Hrest].
  rewrite !lookup_lt_is_Some, Hlen. auto.
Qed.

Lemma amount_of_cons (c : @Component double) cs ph pe nm :
  amount_of (mkAqueousSolution ph pe (c :: cs)) nm
  = if decide (component_name c = nm) then Some (component_amount c)
    else amount_of (mkAqueousSolution ph pe cs) nm.
Proof.
  unfold amount_of, find_component. cbn [components list_find].
  destruct (decide (component_name c = nm)); [reflexivity|].
  destruct (list_find _ cs) as [[? ?]|]; reflexivity.
Qed.

Lemma amount_of_shape nm (sol sol' : @AqueousSolution double) :
  map component_name (components sol') = map component_name (components sol) ->
  is_Some (amount_of sol nm) -> is_Some (amount_of sol' nm).
Proof.
  destruct sol as [ph pe cs], sol' as [ph' pe' cs']. cbn [components].
  revert cs'. induction cs as [|c cs IH]; intros [|c' cs']; try discriminate.
  - intros _ [? [=]].
  - intros [= Hname Hrest]. rewrite !amount_of_cons, Hname.
    destruct (decide (component_name c = nm)); [eauto|]. apply IH. exact Hrest.
Qed.

Lemma entry_shape io io' k g ty nm :
  same_shape io io' ->
  is_Some (entry io' k g ty nm) -> is_Some (entry io k g ty nm).
Proof.
  intros (Hsols & Hphases & Hreactants & Hpunch & _). unfold entry.
  destruct (is_array ty) eqn:Harray.
  - destruct ty; try discriminate; cbn [array_entry].
    + apply named_entry_shape. symmetry. exact Hphases.
    + apply named_entry_shape. symmetry. exact Hreactants.
    + destruct (_user_punch io') as [up'|], (_user_punch io) as [up|];
        try discriminate; [|auto].
      apply named_entry_shape. cbn in Hpunch. congruence.
  - unfold scalar_entry.
    apply (f_equal (fun l => l !! k)) in Hsols.
    change (map ?f) with (fmap (M := list) f) in Hsols.
    rewrite !list_lookup_fmap in Hsols.
    destruct (_aqueous_solutions io' !! k) as [sol'|],
             (_aqueous_solutions io !! k) as [sol|]; try discriminate;
      [|intros [? [=]]].
    destruct ty; try discriminate; eauto.
    apply amount_of_shape. cbn in Hsols. congruence.
Qed.

Lemma update_item_entry_before k g item v io io' :
  update_item k g item v io = Ok io' ->
  is_Some (entry io k g (item_type item) (name item)).
Proof.
  intros Hup. eapply entry_shape; [eapply update_item_shape; exact Hup|].
  rewrite (update_item_entry_hit _ _ _ _ _ _ Hup). eauto.
Qed.

(** *** The items of a row *)

Lemma route_items_shape k g : forall values c io io',
  route_items k g c values io = Ok io' -> same_shape io io'.
Proof.
  induction values as [|v values IH]; intros c io io'; cbn [route_items].
  - intros <-%Ok_inj. apply same_shape_refl.
  - unfold mbind, outcome_bind, obind.
    destruct (at_index _ c) as [item| |]; try discriminate.
    destruct (update_item k g item v io) as [io1| |] eqn:Hup; try discriminate.
    intros Hrest. eapply same_shape_trans;
      [eapply update_item_shape; exact Hup | eapply IH; exact Hrest].
Qed.

Lemma same_shape_output io io' :
  same_shape io io' -> _output io' = _output io.
Proof. intros (_&_&_&_&_&_&_&Hout&_). exact Hout. Qed.

Lemma same_shape_mesh io io' :
  same_shape io io' -> _mesh io' = _mesh io.
Proof. intros (_&_&_&_&Hmesh&_). exact Hmesh. Qed.

Lemma route_items_entry_miss k g k' g' ty nm : forall values c io io',
  route_items k g c values io = Ok io' ->
  (forall j item, j < length values ->
     accepted_items (_output io) !! (c + j) = Some item ->
     ~ writes_to item k g k' g' ty nm) ->
  entry io' k' g' ty nm = entry io k' g' ty nm.
Proof.
  induction values as [|v0 values IH]; intros c io io'; cbn [route_items].
  - intros <-%Ok_inj _. reflexivity.
  - unfold mbind, outcome_bind, obind.
    destruct (at_index _ c) as [item0| |] eqn:Hitem0; try discriminate.
    destruct (update_item k g item0 v0 io) as [io1| |] eqn:Hup; try discriminate.
    intros Hrest Hmiss. apply at_index_Ok in Hitem0.
    pose proof (same_shape_output _ _ (update_item_shape _ _ _ _ _ _ Hup)) as Hout.
    transitivity (entry io1 k' g' ty nm).
    + apply (IH (S c) io1 io' Hrest). intros j item Hj Hitem.
      apply (Hmiss (S j) item); [cbn [length]; lia|].
      rewrite <- Hout, <- Hitem. f_equal. lia.
    + eapply update_item_entry_miss; [exact Hup|].
      apply (Hmiss 0 item0); [cbn [length]; lia|].
      rewrite Nat.add_0_r. exact Hitem0.
Qed.

Lemma route_items_entry_value k g : forall values c io io' j v item,
  route_items k g c values io = Ok io' ->
  values !! j = Some v ->
  accepted_items (_output io) !! (c + j) = Some item ->
  (forall j' item', j < j' -> j' < length values ->
     accepted_items (_output io) !! (c + j') = Some item' ->
     ~ writes_to item' k g k g (item_type item) (name item)) ->
  entry io' k g (item_type item) (name item) = Some v.
Proof.
  induction values as [|v0 values IH]; intros c io io' j v item;
    cbn [route_items]; [intros _ [=]|].
  unfold mbind, outcome_bind, obind.
  destruct (at_index _ c) as [item0| |] eqn:Hitem0; try discriminate.
  destruct (update_item k g item0 v0 io) as [io1| |] eqn:Hup; try discriminate.
  intros Hrest Hv Hitem Hlast. apply at_index_Ok in Hitem0.
  pose proof (same_shape_output _ _ (update_item_shape _ _ _ _ _ _ Hup)) as Hout.
  destruct j as [|j].
  - injection Hv as ->. rewrite Nat.add_0_r, Hitem0 in Hitem.
    injection Hitem as ->.
    rewrite (route_items_entry_miss _ _ _ _ _ _ _ _ _ _ Hrest).
    + eapply update_item_entry_hit; eassumption.
    + intros j item' Hj Hitem'.
      apply (Hlast (S j) item'); [lia|cbn [length]; lia|].
      rewrite <- Hout, <- Hitem'. f_equal. lia.
  - apply (IH (S c) io1 io' j v item Hrest Hv).
    + rewrite Hout, <- Hitem. f_equal. lia.
    + intros j' item' Hj Hlen Hitem'.
      apply (Hlast (S j') item'); [lia|cbn [length]; lia|].
      rewrite <- Hout, <- Hitem'. f_equal. lia.
Qed.

(** Every item that is routed has its entry. *)
Lemma route_items_entries k g : forall values c io io' j item,
  route_items k g c values io = Ok io' ->
  j < length values ->
  accepted_items (_output io) !! (c + j) = Some item ->
  is_Some (entry io k g (item_type item) (name item)).
Proof.
  induction values as [|v0 values IH]; intros c io io' j item;
    cbn [route_items length]; [lia|].
  unfold mbind, outcome_bind, obind.
  destruct (at_index _ c) as [item0| |] eqn:Hitem0; try discriminate.
  destruct (update_item k g item0 v0 io) as [io1| |] eqn:Hup; try discriminate.
  intros Hrest Hj Hitem. apply at_index_Ok in Hitem0.
  pose proof (update_item_shape _ _ _ _ _ _ Hup) as Hshape.
  destruct j as [|j].
  - rewrite Nat.add_0_r, Hitem0 in Hitem. injection Hitem as ->.
    eapply update_item_entry_before; exact Hup.
  - eapply entry_shape; [exact Hshape|].
    apply (IH (S c) io1 io' j item Hrest); [lia|].
    rewrite (same_shape_output _ _ Hshape), <- Hitem. f_equal. lia.
Qed.

End EntriesOfARun.

Section RunOfTheDeserializer.
Context {double Knobs ReactionRate SurfaceSite PrevSolution : Type}.
Local Abbreviation PhreeqcIO :=
  (@PhreeqcIO double Knobs ReactionRate SurfaceSite PrevSolution).
Variable stod : string -> StodResult double.
Implicit Types (io : PhreeqcIO) (m : list N).

Lemma read_row_shape k g line io io' :
  read_row stod k g line io = Ok io' -> same_shape io io'.
Proof.
  intros (values & _ & _ & Hroute)%read_row_routes.
  eapply route_items_shape; exact Hroute.
Qed.

Lemma read_row_entry_miss k g line io io' k' g' ty nm :
  read_row stod k g line io = Ok io' ->
  (forall item, item ∈ accepted_items (_output io) ->
     ~ writes_to item k g k' g' ty nm) ->
  entry io' k' g' ty nm = entry io k' g' ty nm.
Proof.
  intros (values & _ & _ & Hroute)%read_row_routes Hmiss.
  eapply route_items_entry_miss; [exact Hroute|].
  intros j item _ Hitem. apply Hmiss. eapply list_elem_of_lookup_2; exact Hitem.
Qed.

Lemma read_row_entry_value k g line io io' values c v item :
  read_row stod k g line io = Ok io' ->
  (Z.of_nat (length (row_items line)) < 2 ^ 31)%Z ->
  accept_items stod (dropped_item_ids (_output io)) g 0 (row_items line)
    = inr values ->
  values !! c = Some v ->
  accepted_items (_output io) !! c = Some item ->
  (forall c' item', c < c' ->
     accepted_items (_output io) !! c' = Some item' ->
     ~ writes_to item' k g k g (item_type item) (name item)) ->
  entry io' k g (item_type item) (name item) = Some v.
Proof.
  intros (values' & Hacc & _ & Hroute)%read_row_routes Hsmall Hvalues Hv Hitem
    Hlast.
  rewrite int_prefix_small in Hacc by assumption.
  rewrite Hvalues in Hacc. injection Hacc as <-.
  rewrite int_prefix_small in Hroute
    by (apply (accept_items_length stod) in Hvalues; lia).
  eapply (route_items_entry_value k g values 0 io io' c v item); eauto.
Qed.

(** A row that is read has a value for each accepted item, and each
    accepted item has its entry. *)
Lemma read_row_entries k g line io io' item :
  read_row stod k g line io = Ok io' ->
  (Z.of_nat (length (accepted_items (_output io))) < 2 ^ 31)%Z ->
  item ∈ accepted_items (_output io) ->
  is_Some (entry io k g (item_type item) (name item)).
Proof.
  intros (values & _ & Hlen & Hroute)%read_row_routes Hsmall
    (j & Hitem)%list_elem_of_lookup_1.
  rewrite int_prefix_small in Hroute by (rewrite Hlen; exact Hsmall).
  eapply (route_items_entries k g values 0 io io' j item Hroute);
    [|exact Hitem].
  rewrite Hlen. eapply lookup_lt_Some; exact Hitem.
Qed.

(** *** The loop over the systems, on any text *)

Lemma extract_systems_shape n m : forall ids input io rest io',
  extract_systems stod n m ids input io = Ok (rest, io') -> same_shape io io'.
Proof.
  induction ids as [|k ids IH]; intros input io rest io'; cbn [extract_systems].
  - intros [= _ <-]. apply same_shape_refl.
  - unfold mbind, outcome_bind, obind.
    destruct (at_index m k) as [g| |]; try discriminate.
    destruct (getline _) as [[line input']|]; [|discriminate].
    destruct (read_row stod k g line io) as [io1| |] eqn:Hrow; try discriminate.
    intros Hrest. eapply same_shape_trans;
      [eapply read_row_shape; exact Hrow | eapply IH; exact Hrest].
Qed.

Lemma extract_systems_entry_miss n m k' g' ty nm : forall ids input io rest io',
  extract_systems stod n m ids input io = Ok (rest, io') ->
  (forall k g item, k ∈ ids -> m !! k = Some g ->
     item ∈ accepted_items (_output io) -> ~ writes_to item k g k' g' ty nm) ->
  entry io' k' g' ty nm = entry io k' g' ty nm.
Proof.
  induction ids as [|k ids IH]; intros input io rest io'; cbn [extract_systems].
  - intros [= _ <-] _. reflexivity.
  - unfold mbind, outcome_bind, obind.
    destruct (at_index m k) as [g| |] eqn:Hg; try discriminate.
    destruct (getline _) as [[line input']|]; [|discriminate].
    destruct (read_row stod k g line io) as [io1| |] eqn:Hrow; try discriminate.
    intros Hrest Hmiss. apply at_index_Ok in Hg.
    pose proof (same_shape_output _ _ (read_row_shape _ _ _ _ _ Hrow)) as Hout.
    transitivity (entry io1 k' g' ty nm).
    + apply (IH _ _ _ _ Hrest). intros k0 g0 item Hk0 Hg0 Hitem.
      rewrite Hout in Hitem. apply Hmiss; [right; exact Hk0|exact Hg0|exact Hitem].
    + eapply read_row_entry_miss; [exact Hrow|].
      intros item Hitem. apply Hmiss; [left|exact Hg|exact Hitem].
Qed.

Lemma extract_systems_entries n m : forall ids input io rest io' k g item,
  extract_systems stod n m ids input io = Ok (rest, io') ->
  (Z.of_nat (length (accepted_items (_output io))) < 2 ^ 31)%Z ->
  k ∈ ids -> m !! k = Some g ->
  item ∈ accepted_items (_output io) ->
  is_Some (entry io k g (item_type item) (name item)).
Proof.
  induction ids as [|k0 ids IH]; intros input io rest io' k g item;
    cbn [extract_systems]; [intros _ _ Hk; inversion Hk|].
  unfold mbind, outcome_bind, obind.
  destruct (at_index m k0) as [g0| |] eqn:Hg0; try discriminate.
  destruct (getline _) as [[line input']|]; [|discriminate].
  destruct (read_row stod k0 g0 line io) as [io1| |] eqn:Hrow; try discriminate.
  intros Hrest Hsmall Hk Hg Hitem. apply at_index_Ok in Hg0.
  pose proof (read_row_shape _ _ _ _ _ Hrow) as Hshape.
  pose proof (same_shape_output _ _ Hshape) as Hout.
  apply elem_of_cons in Hk as [->|Hk].
  - rewrite Hg0 in Hg. injection Hg as ->.
    eapply read_row_entries; eassumption.
  - eapply entry_shape; [exact Hshape|].
    eapply (IH _ _ _ _ _ _ _ Hrest); rewrite ?Hout; eassumption.
Qed.

(** *** Properties of a run on any text *)

(** X6: a run that succeeds changes values only: it leaves the names of the
    components of every solution, the names and the sizes of the arrays of
    the phases, the reactants and the secondary variables, and every member
    that holds no chemical state as they were. *)
Theorem extract_keeps_the_shape input io rest io' :
  operator_extract stod input io = Ok (rest, io') -> same_shape io io'.
Proof. apply extract_systems_shape. Qed.

(** X7: a run that succeeds leaves every entry that no accepted item writes in
    the row of any of the N systems as it was. *)
Theorem extract_writes_routed_entries_only input io rest io' k' g' ty nm :
  operator_extract stod input io = Ok (rest, io') ->
  (forall k g item, k < N.to_nat (NumberOfBaseNodes (_mesh io)) ->
     bulk_node_ids (_mesh io) !! k = Some g ->
     item ∈ accepted_items (_output io) -> ~ writes_to item k g k' g' ty nm) ->
  entry io' k' g' ty nm = entry io k' g' ty nm.
Proof.
  intros Hrun Hmiss. eapply extract_systems_entry_miss; [exact Hrun|].
  intros k g item Hk%elem_of_seq. apply Hmiss. lia.
Qed.

(** X5: a run can succeed only if every accepted item of the output has its
    entry for every one of the N systems. *)
Theorem extract_needs_every_entry input io rest io' k g item :
  operator_extract stod input io = Ok (rest, io') ->
  (Z.of_nat (length (accepted_items (_output io))) < 2 ^ 31)%Z ->
  k < N.to_nat (NumberOfBaseNodes (_mesh io)) ->
  bulk_node_ids (_mesh io) !! k = Some g ->
  item ∈ accepted_items (_output io) ->
  is_Some (entry io k g (item_type item) (name item)).
Proof.
  intros Hrun Hsmall Hk Hg Hitem.
  eapply extract_systems_entries; try eassumption.
  apply elem_of_seq. lia.
Qed.

(** *** Properties of a run on a table *)

Lemma read_rows_shape m : forall rows k io io',
  read_rows stod m k rows io = Ok io' -> same_shape io io'.
Proof.
  induction rows as [|row rows IH]; intros k io io'; cbn [read_rows].
  - intros <-%Ok_inj. apply same_shape_refl.
  - unfold mbind, outcome_bind, obind.
    destruct (at_index m k) as [g| |]; try discriminate.
    destruct (read_row stod k g row io) as [io1| |] eqn:Hrow; try discriminate.
    intros Hrest. eapply same_shape_trans;
      [eapply read_row_shape; exact Hrow | eapply IH; exact Hrest].
Qed.

Lemma read_rows_entry_miss m k' g' ty nm : forall rows k io io',
  read_rows stod m k rows io = Ok io' ->
  (forall j g item, j < length rows -> m !! (k + j) = Some g ->
     item ∈ accepted_items (_output io) ->
     ~ writes_to item (k + j) g k' g' ty nm) ->
  entry io' k' g' ty nm = entry io k' g' ty nm.
Proof.
  induction rows as [|row rows IH]; intros k io io'; cbn [read_rows].
  - intros <-%Ok_inj _. reflexivity.
  - unfold mbind, outcome_bind, obind.
    destruct (at_index m k) as [g| |] eqn:Hg; try discriminate.
    destruct (read_row stod k g row io) as [io1| |] eqn:Hrow; try discriminate.
    intros Hrest Hmiss. apply at_index_Ok in Hg.
    pose proof (same_shape_output _ _ (read_row_shape _ _ _ _ _ Hrow)) as Hout.
    transitivity (entry io1 k' g' ty nm).
    + apply (IH (S k) io1 io' Hrest). intros j g0 item Hj Hg0 Hitem.
      replace (S k + j) with (k + S j) in * by lia.
      apply Hmiss; [cbn [length]; lia|exact Hg0|].
      rewrite <- Hout. exact Hitem.
    + eapply read_row_entry_miss; [exact Hrow|].
      intros item Hitem. specialize (Hmiss 0 g item).
      rewrite Nat.add_0_r in Hmiss. apply Hmiss; [cbn [length]; lia|exact Hg|exact Hitem].
Qed.

Lemma read_rows_entry_value m : forall rows k io io' j row g values c v item,
  read_rows stod m k rows io = Ok io' ->
  rows !! j = Some row ->
  m !! (k + j) = Some g ->
  (forall j' g' item', j < j' -> j' < length rows -> m !! (k + j') = Some g' ->
     item' ∈ accepted_items (_output io) ->
     ~ writes_to item' (k + j') g' (k + j) g (item_type item) (name item)) ->
  (Z.of_nat (length (row_items row)) < 2 ^ 31)%Z ->
  accept_items stod (dropped_item_ids (_output io)) g 0 (row_items row)
    = inr values ->
  values !! c = Some v ->
  accepted_items (_output io) !! c = Some item ->
  (forall c' item', c < c' ->
     accepted_items (_output io) !! c' = Some item' ->
     ~ writes_to item' (k + j) g (k + j) g (item_type item) (name item)) ->
  entry io' (k + j) g (item_type item) (name item) = Some v.
Proof.
  induction rows as [|row0 rows IH]; intros k io io' j row g values c v item;
    cbn [read_rows]; [intros _ [=]|].
  unfold mbind, outcome_bind, obind.
  destruct (at_index m k) as [g0| |] eqn:Hg0; try discriminate.
  destruct (read_row stod k g0 row0 io) as [io1| |] eqn:Hrow; try discriminate.
  intros Hrest Hj Hg Hlater Hsmall Hvalues Hv Hitem Hlast.
  apply at_index_Ok in Hg0.
  pose proof (same_shape_output _ _ (read_row_shape _ _ _ _ _ Hrow)) as Hout.
  destruct j as [|j].
  - injection Hj as ->. rewrite Nat.add_0_r in *. rewrite Hg0 in Hg.
    injection Hg as ->.
    rewrite (read_rows_entry_miss _ _ _ _ _ _ _ _ _ Hrest).
    + eapply read_row_entry_value; eassumption.
    + intros j g' item' Hj Hg' Hitem'.
      replace (S k + j) with (k + S j) in * by lia.
      apply Hlater; [lia|cbn [length]; lia|exact Hg'|].
      rewrite <- Hout. exact Hitem'.
  - replace (k + S j) with (S k + j) in * by lia.
    apply (IH (S k) io1 io' j row g values c v item Hrest Hj);
      rewrite ?Hout; try assumption.
    intros j' g' item' Hjj Hlen Hg' Hitem'.
    replace (S k + j') with (k + S j') in * by lia.
    apply Hlater; [lia|cbn [length]; lia|exact Hg'|exact Hitem'].
Qed.

Lemma operator_extract_entry_value io header blocks rest rest' io'
    local_id g b values c v item :
  table_ok io header blocks ->
  operator_extract stod (lines_then (table_lines header blocks) rest) io
    = Ok (rest', io') ->
  bulk_node_ids (_mesh io) !! local_id = Some g ->
  blocks !! local_id = Some b ->
  (Z.of_nat (length (row_items (data_row b))) < 2 ^ 31)%Z ->
  accept_items stod (dropped_item_ids (_output io)) g 0
    (row_items (data_row b)) = inr values ->
  values !! c = Some v ->
  accepted_items (_output io) !! c = Some item ->
  (forall k' g' item', local_id < k' ->
     bulk_node_ids (_mesh io) !! k' = Some g' ->
     item' ∈ accepted_items (_output io) ->
     ~ writes_to item' k' g' local_id g (item_type item) (name item)) ->
  (forall c' item', c < c' ->
     accepted_items (_output io) !! c' = Some item' ->
     ~ writes_to item' local_id g local_id g (item_type item) (name item)) ->
  entry io' local_id g (item_type item) (name item) = Some v.
Proof.
  intros Hok Hin Hg Hb Hsmall Hvalues Hv Hitem Hlater Hlast.
  rewrite operator_extract_table in Hin by assumption.
  unfold mbind, outcome_bind, obind in Hin.
  destruct (read_rows stod _ 0 (map data_row blocks) io) as [io1| |] eqn:Hrows;
    try discriminate.
  apply Ok_inj in Hin. injection Hin as _ <-.
  apply (read_rows_entry_value _ _ 0 io io1 local_id (data_row b)
           g values c v item Hrows); try assumption.
  - rewrite list_lookup_fmap, Hb. reflexivity.
  - intros j' g' item' Hjj _. cbn [plus]. apply Hlater. exact Hjj.
Qed.

(** X8: the value converted from a column of the row of the system at
    [local_id], for an accepted item that denotes the pH, the pe or a
    component, is after the run the pH, the pe or the amount of the component
    of that name of the solution at [local_id]: the scalars are indexed by the
    position of the system, not by its global id (the last column of the same
    kind wins). *)
Theorem scalars_are_indexed_by_local_id io header blocks rest rest' io'
    local_id global_id b values c v item :
  table_ok io header blocks ->
  operator_extract stod (lines_then (table_lines header blocks) rest) io
    = Ok (rest', io') ->
  bulk_node_ids (_mesh io) !! local_id = Some global_id ->
  blocks !! local_id = Some b ->
  (Z.of_nat (length (row_items (data_row b))) < 2 ^ 31)%Z ->
  accept_items stod (dropped_item_ids (_output io)) global_id 0
    (row_items (data_row b)) = inr values ->
  values !! c = Some v ->
  accepted_items (_output io) !! c = Some item ->
  is_array (item_type item) = false ->
  (forall c' item', c < c' ->
     accepted_items (_output io) !! c' = Some item' ->
     ~ (item_type item' = item_type item /\
        (item_type item = ItemType.Component -> name item' = name item))) ->
  scalar_entry io' local_id (item_type item) (name item) = Some v.
Proof.
  intros Hok Hin Hg Hb Hsmall Hvalues Hv Hitem Hscalar Hlast.
  pose proof (operator_extract_entry_value io header blocks rest rest' io'
                local_id global_id b values c v item Hok Hin Hg Hb Hsmall
                Hvalues Hv Hitem) as Hentry.
  unfold entry in Hentry. rewrite Hscalar in Hentry.
  apply Hentry.
  - intros k' g' item' Hk' _ _ (Hty & Htarget).
    destruct (item_type item); try discriminate; lia.
  - intros c' item' Hc Hitem' (Hty & Htarget).
    apply (Hlast c' item' Hc Hitem'). split; [auto|].
    intros Hcomp. rewrite Hcomp in Htarget. symmetry. tauto.
Qed.

End RunOfTheDeserializer.

Section TransferFrames.
Context {double Knobs ReactionRate SurfaceSite PrevSolution : Type}.
Context `{FloatOps double}.
Local Abbreviation PhreeqcIO :=
  (@PhreeqcIO double Knobs ReactionRate SurfaceSite PrevSolution).
Local Abbreviation GlobalVector := (list double).
Local Abbreviation AqueousSolution := (@AqueousSolution double).
Local Abbreviation Updating := Status.UpdatingProcessSolutions.
Local Abbreviation Setting := Status.SettingAqueousSolutions.
Implicit Types (io : PhreeqcIO) (vecs : list GlobalVector)
  (sol : AqueousSolution) (pmap : list (Z * string)) (m : list N).

(** *** Updating *)

Lemma cell_lengths vecs vecs' p g :
  map length vecs' = map length vecs ->
  is_Some (cell vecs p g) -> is_Some (cell vecs' p g).
Proof.
  intros Hlen. unfold cell.
  apply (f_equal (fun l => l !! p)) in Hlen.
  change (map ?f) with (fmap (M := list) f) in Hlen.
  rewrite !list_lookup_fmap in Hlen.
  destruct (vecs' !! p) as [v'|], (vecs !! p) as [v|]; try discriminate;
    [|intros [? [=]]].
  rewrite !lookup_lt_is_Some. cbn in Hlen. injection Hlen as ->. auto.
Qed.

Lemma transfer_element_updating_lengths g pid var sol vecs sol' vecs' :
  transfer_element Updating g (pid, var) (sol, vecs) = Ok (sol', vecs') ->
  map length vecs' = map length vecs.
Proof.
  unfold transfer_element. cbn [snd]. unfold mbind, outcome_bind, obind.
  destruct (process_solution vecs pid) as [v0| |] eqn:Hv0; try discriminate.
  apply process_solution_Ok in Hv0 as (Hpid & Hv0).
  destruct (transfer_component _ g pid var (sol, vecs)) as [[sol1 vecs1]| |]
    eqn:Hcomp; try discriminate.
  intros Hhyd.
  apply (transfer_component_updating _ _ _ _ _ _ _ v0 Hpid Hv0) in Hcomp
    as (-> & Hcomp).
  assert (Hlen1 : map length vecs1 = map length vecs /\
                  exists v1, vecs1 !! Z.to_nat pid = Some v1).
  { destruct (find_component (components sol) var) as [[k component]|].
    - destruct Hcomp as (Hg & ->). split.
      + apply (lengths_insert vecs _ v0); [assumption|apply length_insert].
      + eexists. apply list_lookup_insert_eq. eapply lookup_lt_Some; eassumption.
    - subst vecs1. eauto. }
  destruct Hlen1 as (Hlen1 & v1 & Hv1).
  apply (transfer_hydrogen_updating _ _ _ _ _ _ _ _ Hpid Hv1) in Hhyd
    as (-> & Hhyd).
  destruct (decide (var = "H"%string)).
  - destruct Hhyd as (Hg2 & ->). rewrite <- Hlen1.
    apply (lengths_insert vecs1 _ v1); [assumption|apply length_insert].
  - subst vecs'. exact Hlen1.
Qed.

Lemma transfer_elements_updating_lengths g : forall pmap sol vecs sol' vecs',
  transfer_elements Updating g pmap (sol, vecs) = Ok (sol', vecs') ->
  map length vecs' = map length vecs.
Proof.
  induction pmap as [|[pid var] pmap IH]; intros sol vecs sol' vecs';
    cbn [transfer_elements].
  - intros [= <- <-]. reflexivity.
  - unfold mbind, outcome_bind, obind.
    destruct (transfer_element _ g (pid, var) (sol, vecs)) as [[sol1 vecs1]| |]
      eqn:Helem; try discriminate.
    intros Hrest. apply transfer_element_updating_lengths in Helem.
    apply IH in Hrest. congruence.
Qed.

(** With one vector per process, the entry of the process of an element of
    the map is left at the value that the element writes. *)
Lemma transfer_elements_written g p var : forall pmap sol vecs sol' vecs',
  transfer_elements Updating g pmap (sol, vecs) = Ok (sol', vecs') ->
  NoDup (map fst pmap) ->
  (p, var) ∈ pmap ->
  cell vecs' (Z.to_nat p) (N.to_nat g)
  = updated_value var sol (cell vecs (Z.to_nat p) (N.to_nat g)).
Proof.
  induction pmap as [|[pid var'] pmap IH]; intros sol vecs sol' vecs';
    cbn [transfer_elements]; [intros _ _ Hin; inversion Hin|].
  unfold mbind, outcome_bind, obind.
  destruct (transfer_element _ g (pid, var') (sol, vecs)) as [[sol1 vecs1]| |]
    eqn:Helem; try discriminate.
  intros Hrest Hnodup Hin.
  apply transfer_element_updating in Helem as (-> & Hpid & Hcell & Hframe).
  cbn [map fst] in Hnodup. apply list.NoDup_cons in Hnodup as (Hfresh & Hnodup).
  pose proof (transfer_elements_updating _ _ _ _ _ _ Hrest) as (_ & Hpids & Hrest').
  apply elem_of_cons in Hin as [[= <- <-]|Hin].
  - rewrite Hrest'; [exact Hcell|].
    right. intros [q var''] Hq Heq. cbn [fst] in Heq.
    apply Hfresh. rewrite Forall_forall in Hpids.
    pose proof (Hpids (q, var'') (proj1 (list_elem_of_In _ _) Hq)) as Hq0.
    cbn [fst] in Hq0. assert (q = p) as -> by lia.
    apply list_elem_of_In. apply in_map_iff. exists (p, var''). split; [reflexivity|].
    apply list_elem_of_In. exact Hq.
  - rewrite (IH _ _ _ _ Hrest Hnodup Hin). rewrite Hframe; [reflexivity|].
    intros (Hp & _). apply Hfresh.
    rewrite Forall_forall in Hpids.
    pose proof (Hpids (p, var) (proj1 (list_elem_of_In _ _) Hin)) as Hp0.
    cbn [fst] in Hp0. assert (pid = p) as -> by lia.
    apply list_elem_of_In. apply in_map_iff. exists (p, var). split; [reflexivity|].
    apply list_elem_of_In. exact Hin.
Qed.

Lemma transfer_systems_updating_lengths m pmap :
  forall local_ids sols vecs sols' vecs',
  transfer_systems Updating m pmap local_ids (sols, vecs) = Ok (sols', vecs') ->
  map length vecs' = map length vecs.
Proof.
  induction local_ids as [|k local_ids IH]; intros sols vecs sols' vecs';
    cbn [transfer_systems].
  - intros [= <- <-]. reflexivity.
  - unfold mbind, outcome_bind, obind.
    destruct (transfer_system _ m pmap k (sols, vecs)) as [[sols1 vecs1]| |]
      eqn:Hsys; try discriminate.
    intros Hrest.
    apply transfer_system_updating in Hsys as (g & sol & Hg & Hsol & -> & Helems).
    apply transfer_elements_updating_lengths in Helems.
    apply IH in Hrest. congruence.
Qed.

Lemma transfer_systems_updating_processes m pmap :
  forall local_ids sols vecs sols' vecs' p' g',
  transfer_systems Updating m pmap local_ids (sols, vecs) = Ok (sols', vecs') ->
  (forall e, e ∈ pmap -> Z.to_nat (fst e) <> p') ->
  cell vecs' p' g' = cell vecs p' g'.
Proof.
  induction local_ids as [|k local_ids IH]; intros sols vecs sols' vecs' p' g';
    cbn [transfer_systems].
  - intros [= <- <-]. reflexivity.
  - unfold mbind, outcome_bind, obind.
    destruct (transfer_system _ m pmap k (sols, vecs)) as [[sols1 vecs1]| |]
      eqn:Hsys; try discriminate.
    intros Hrest Hmiss.
    apply transfer_system_updating in Hsys as (g & sol & Hg & Hsol & -> & Helems).
    apply transfer_elements_updating in Helems as (_ & _ & Hframe).
    rewrite (IH _ _ _ _ _ _ Hrest Hmiss). apply Hframe. right. exact Hmiss.
Qed.

Lemma transfer_systems_written m pmap p var :
  forall local_ids sols vecs sols' vecs' local_id g sol,
  transfer_systems Updating m pmap local_ids (sols, vecs) = Ok (sols', vecs') ->
  NoDup (map fst pmap) ->
  (p, var) ∈ pmap ->
  NoDup local_ids ->
  local_id ∈ local_ids ->
  m !! local_id = Some g ->
  sols !! local_id = Some sol ->
  (forall k g', k ∈ local_ids -> k <> local_id -> m !! k = Some g' -> g' <> g) ->
  cell vecs' (Z.to_nat p) (N.to_nat g)
  = updated_value var sol (cell vecs (Z.to_nat p) (N.to_nat g)).
Proof.
  induction local_ids as [|k local_ids IH];
    intros sols vecs sols' vecs' local_id g sol; cbn [transfer_systems];
    [intros _ _ _ _ Hin; inversion Hin|].
  unfold mbind, outcome_bind, obind.
  destruct (transfer_system _ m pmap k (sols, vecs)) as [[sols1 vecs1]| |]
    eqn:Hsys; try discriminate.
  intros Hrest Hpids HH Hnodup Hin Hg Hsol Hothers.
  apply transfer_system_updating in Hsys as (g0 & sol0 & Hg0 & Hsol0 & -> & Helems).
  apply list.NoDup_cons in Hnodup as (Hfresh & Hnodup).
  apply elem_of_cons in Hin as [->|Hin].
  - rewrite Hg in Hg0. injection Hg0 as <-.
    rewrite Hsol in Hsol0. injection Hsol0 as <-.
    apply transfer_systems_updating_frame in Hrest as (_ & Hrest).
    rewrite Hrest.
    + eapply transfer_elements_written; eassumption.
    + intros k' g' Hk' Hg' Heq. apply N2Nat.inj in Heq. subst g'.
      apply (Hothers k' g); [right; assumption| |assumption|reflexivity].
      intros ->. contradiction.
  - rewrite (IH sols vecs1 sols' vecs' local_id g sol); eauto.
    + f_equal. apply transfer_elements_updating in Helems as (_ & _ & Hframe).
      apply Hframe. left. intros Heq. apply N2Nat.inj in Heq. subst g0.
      apply (Hothers k g); [left| |assumption|reflexivity].
      intros ->. contradiction.
    + intros k' g' Hk'. apply Hothers. right. exact Hk'.
Qed.

Lemma setAqueousSolutions_run io vecs status io' vecs' :
  setAqueousSolutionsOrUpdateProcessSolutions io vecs status = Ok (io', vecs') ->
  exists sols',
    io' = with_aqueous_solutions io sols' /\
    transfer_systems status (bulk_node_ids (_mesh io))
      (_process_id_to_component_name_map io)
      (seq 0 (N.to_nat (NumberOfBaseNodes (_mesh io))))
      (_aqueous_solutions io, vecs) = Ok (sols', vecs').
Proof.
  unfold setAqueousSolutionsOrUpdateProcessSolutions.
  unfold mbind, outcome_bind, obind.
  destruct (transfer_systems _ _ _ _ _) as [[sols' vecs1]| |]; try discriminate.
  intros [= <- <-]. eauto.
Qed.

(** X15: updating the process solutions reads the chemical state and never
    writes it; it keeps the size of every transport vector, and leaves every
    entry as it was that is not the entry, at the global id of one of the N
    systems, of a process of the process id map. *)
Theorem updating_writes_mapped_entries_only io vecs io' vecs' :
  setAqueousSolutionsOrUpdateProcessSolutions io vecs Updating
    = Ok (io', vecs') ->
  io' = io /\ map length vecs' = map length vecs /\
  forall p g,
    ((forall e, e ∈ _process_id_to_component_name_map io ->
        Z.to_nat (fst e) <> p) \/
     (forall k g0, k < N.to_nat (NumberOfBaseNodes (_mesh io)) ->
        bulk_node_ids (_mesh io) !! k = Some g0 -> g <> N.to_nat g0)) ->
    cell vecs' p g = cell vecs p g.
Proof.
  intros (sols' & -> & Hsys)%setAqueousSolutions_run.
  pose proof (transfer_systems_updating_frame _ _ _ _ _ _ _ Hsys) as (-> & Hg).
  split; [apply with_aqueous_solutions_same|].
  split; [eapply transfer_systems_updating_lengths; exact Hsys|].
  intros p g [Hp|Hmiss].
  - eapply transfer_systems_updating_processes; eassumption.
  - apply Hg. intros k g0 Hk%elem_of_seq. apply Hmiss. lia.
Qed.

(** X16: when every process has its own vector and no two systems share a global
    id, updating leaves in the entry of the process of an element of the
    map, at the global id of a system, the value for the variable of the
    element: [10^-pH] for "H", else the amount of the first component of that
    name, else what was there. *)
Theorem updating_writes_the_amounts io vecs io' vecs' local_id g sol p var :
  let n := N.to_nat (NumberOfBaseNodes (_mesh io)) in
  let pmap := _process_id_to_component_name_map io in
  setAqueousSolutionsOrUpdateProcessSolutions io vecs Updating
    = Ok (io', vecs') ->
  NoDup (map fst pmap) ->
  NoDup (take n (bulk_node_ids (_mesh io))) ->
  local_id < n ->
  bulk_node_ids (_mesh io) !! local_id = Some g ->
  _aqueous_solutions io !! local_id = Some sol ->
  (p, var) ∈ pmap ->
  transport_value vecs' p g = updated_value var sol (transport_value vecs p g).
Proof.
  intros n pmap (sols' & -> & Hsys)%setAqueousSolutions_run Hpids Hmap Hlocal
    Hg Hsol Hin.
  assert (Hp : (0 <= p)%Z).
  { pose proof (transfer_systems_updating_frame _ _ _ _ _ _ _ Hsys) as (-> & _).
    destruct n as [|n'] eqn:Hn; [lia|]. fold n in Hsys. rewrite Hn in Hsys.
    cbn [seq transfer_systems] in Hsys.
    unfold mbind, outcome_bind, obind in Hsys.
    destruct (transfer_system _ _ _ 0 _) as [[sols1 vecs1]| |] eqn:Hsys0;
      try discriminate.
    apply transfer_system_updating in Hsys0 as (g0 & sol0 & _ & _ & _ & Helems).
    apply transfer_elements_updating in Helems as (_ & Hpos & _).
    rewrite Forall_forall in Hpos.
    apply (Hpos (p, var)). apply list_elem_of_In. exact Hin. }
  unfold transport_value. rewrite !decide_True by assumption.
  eapply (transfer_systems_written _ _ p var _ _ _ _ _ local_id g sol Hsys);
    try eassumption.
  - apply NoDup_seq.
  - apply list_elem_of_In, in_seq. lia.
  - intros k' g' Hk' Hne Hg' ->. apply list_elem_of_In, in_seq in Hk'.
    apply Hne. eapply (NoDup_lookup _ _ _ _ Hmap);
      rewrite lookup_take_lt by lia; eassumption.
Qed.

End TransferFrames.

Section SettingFrames.
Context {double Knobs ReactionRate SurfaceSite PrevSolution : Type}.
Context `{FloatOps double}.
Local Abbreviation PhreeqcIO :=
  (@PhreeqcIO double Knobs ReactionRate SurfaceSite PrevSolution).
Local Abbreviation GlobalVector := (list double).
Local Abbreviation AqueousSolution := (@AqueousSolution double).
Local Abbreviation Updating := Status.UpdatingProcessSolutions.
Local Abbreviation Setting := Status.SettingAqueousSolutions.
Implicit Types (io : PhreeqcIO) (vecs : list GlobalVector)
  (sol : AqueousSolution) (pmap : list (Z * string)) (m : list N).

Lemma component_kept_refl names (c : @Component double) :
  component_kept names c c.
Proof. split; auto. Qed.

Lemma solution_kept_refl names sol : solution_kept names sol sol.
Proof.
  split; [reflexivity|]. split; [auto|].
  apply Forall_Forall2_diag, Forall_forall. intros c _.
  apply component_kept_refl.
Qed.

Lemma solution_kept_trans names sol1 sol2 sol3 :
  solution_kept names sol1 sol2 -> solution_kept names sol2 sol3 ->
  solution_kept names sol1 sol3.
Proof.
  intros (Hpe1 & HpH1 & Hc1) (Hpe2 & HpH2 & Hc2).
  split; [congruence|]. split; [intros Hn; rewrite HpH2, HpH1 by exact Hn; reflexivity|].
  eapply Forall2_trans; [|exact Hc1|exact Hc2].
  intros c1 c2 c3 (Hn1 & Ha1) (Hn2 & Ha2). split; [congruence|].
  intros Hn. rewrite Ha2, Ha1; [reflexivity|exact Hn|]. rewrite Hn1. exact Hn.
Qed.

Lemma transfer_component_setting_kept g pid var sol vecs sol' vecs' :
  transfer_component Setting g pid var (sol, vecs) = Ok (sol', vecs') ->
  vecs' = vecs /\ solution_kept [var] sol sol'.
Proof.
  unfold transfer_component.
  destruct (find_component _ var) as [[k c]|] eqn:Hfind.
  - unfold mbind, outcome_bind, obind.
    destruct (process_solution vecs pid) as [v0| |]; try discriminate.
    destruct (get v0 g) as [x| |]; try discriminate.
    intros [= <- <-]. split; [reflexivity|].
    split; [reflexivity|]. split; [reflexivity|]. cbn [components].
    apply list_find_Some in Hfind as (Hk & Hname & _).
    rewrite <- (list_insert_id _ _ _ Hk) at 1.
    apply Forall2_insert.
    + apply Forall_Forall2_diag, Forall_forall. intros c0 _.
      apply component_kept_refl.
    + split; [reflexivity|]. intros Hout. exfalso. apply Hout.
      rewrite Hname. left.
  - intros [= <- <-]. split; [reflexivity|apply solution_kept_refl].
Qed.

Lemma transfer_hydrogen_setting_kept g pid var sol vecs sol' vecs' :
  transfer_hydrogen Setting g pid var (sol, vecs) = Ok (sol', vecs') ->
  vecs' = vecs /\ solution_kept [var] sol sol'.
Proof.
  unfold transfer_hydrogen.
  destruct (decide (var = "H"%string)) as [->|Hvar].
  - unfold mbind, outcome_bind, obind.
    destruct (process_solution vecs pid) as [v0| |]; try discriminate.
    destruct (get v0 g) as [x| |]; try discriminate.
    intros [= <- <-]. split; [reflexivity|].
    split; [reflexivity|]. split.
    + intros Hout. exfalso. apply Hout. left.
    + apply Forall_Forall2_diag, Forall_forall. intros c0 _.
      apply component_kept_refl.
  - intros [= <- <-]. split; [reflexivity|apply solution_kept_refl].
Qed.

Lemma transfer_element_setting_kept g pid var sol vecs sol' vecs' :
  transfer_element Setting g (pid, var) (sol, vecs) = Ok (sol', vecs') ->
  vecs' = vecs /\ solution_kept [var] sol sol'.
Proof.
  unfold transfer_element. cbn [snd]. unfold mbind, outcome_bind, obind.
  destruct (process_solution vecs pid) as [v0| |] eqn:Hv0; try discriminate.
  destruct (transfer_component _ g pid var (sol, vecs)) as [[sol1 vecs1]| |]
    eqn:Hcomp; try discriminate.
  intros Hhyd.
  apply transfer_component_setting_kept in Hcomp as (-> & Hkept1).
  apply transfer_hydrogen_setting_kept in Hhyd as (-> & Hkept2).
  split; [reflexivity|]. eapply solution_kept_trans; eassumption.
Qed.

Lemma solution_kept_mono names names' sol sol' :
  names ⊆ names' -> solution_kept names sol sol' ->
  solution_kept names' sol sol'.
Proof.
  intros Hsub (Hpe & HpH & Hc). split; [exact Hpe|].
  split; [intros Hout; apply HpH; intros Hin; apply Hout, Hsub, Hin|].
  eapply List.Forall2_impl; [|exact Hc]. intros c c' (Hn & Ha). split; [exact Hn|].
  intros Hout. apply Ha. intros Hin. apply Hout, Hsub, Hin.
Qed.

Lemma transfer_elements_setting_kept g : forall pmap sol vecs sol' vecs',
  transfer_elements Setting g pmap (sol, vecs) = Ok (sol', vecs') ->
  vecs' = vecs /\ solution_kept (map snd pmap) sol sol'.
Proof.
  induction pmap as [|[pid var] pmap IH]; intros sol vecs sol' vecs';
    cbn [transfer_elements].
  - intros [= <- <-]. split; [reflexivity|apply solution_kept_refl].
  - unfold mbind, outcome_bind, obind.
    destruct (transfer_element _ g (pid, var) (sol, vecs)) as [[sol1 vecs1]| |]
      eqn:Helem; try discriminate.
    intros Hrest.
    apply transfer_element_setting_kept in Helem as (-> & Hkept1).
    apply IH in Hrest as (-> & Hkept2). split; [reflexivity|].
    eapply solution_kept_trans.
    + eapply solution_kept_mono; [|exact Hkept1].
      intros x Hx. apply list_elem_of_singleton in Hx as ->. left.
    + eapply solution_kept_mono; [|exact Hkept2].
      intros x Hx. right. exact Hx.
Qed.

Lemma transfer_systems_setting_kept m pmap :
  forall local_ids sols vecs sols' vecs',
  transfer_systems Setting m pmap local_ids (sols, vecs) = Ok (sols', vecs') ->
  vecs' = vecs /\
  Forall2 (solution_kept (map snd pmap)) sols sols' /\
  (forall k, k ∉ local_ids -> sols' !! k = sols !! k).
Proof.
  induction local_ids as [|k local_ids IH]; intros sols vecs sols' vecs';
    cbn [transfer_systems].
  - intros [= <- <-]. split; [reflexivity|]. split; [|auto].
    apply Forall_Forall2_diag, Forall_forall. intros sol _.
    apply solution_kept_refl.
  - unfold mbind, outcome_bind, obind.
    destruct (transfer_system _ m pmap k (sols, vecs)) as [[sols1 vecs1]| |]
      eqn:Hsys; try discriminate.
    intros Hrest.
    apply transfer_system_setting in Hsys
      as (g & sol & sol' & Hg & Hsol & Helems & ->).
    apply transfer_elements_setting_kept in Helems as (-> & Hkept).
    apply IH in Hrest as (-> & Hkept2 & Hframe). split; [reflexivity|].
    split.
    + eapply Forall2_trans; [|
        |exact Hkept2].
      * intros s1 s2 s3. apply solution_kept_trans.
      * rewrite <- (list_insert_id _ _ _ Hsol) at 1.
        apply Forall2_insert; [|exact Hkept].
        apply Forall_Forall2_diag, Forall_forall. intros s _.
        apply solution_kept_refl.
    + intros k' Hk'. rewrite Hframe by (intros Hin; apply Hk'; right; exact Hin).
      apply list_lookup_insert_ne. intros ->. apply Hk'. left.
Qed.

(** X13: setting the aqueous solutions reads the transport vectors and never
    writes them.  Of the chemical state it writes the aqueous solutions of the
    N systems only, and of a solution only the pH, when "H" is bound in the
    process id map, and the amounts of the components whose name is bound:
    the pe, the number and the names of the components, and the other amounts
    are as they were. *)
Theorem setting_writes_bound_values_only io vecs io' vecs' :
  let names := map snd (_process_id_to_component_name_map io) in
  setAqueousSolutionsOrUpdateProcessSolutions io vecs Setting
    = Ok (io', vecs') ->
  vecs' = vecs /\
  io' = with_aqueous_solutions io (_aqueous_solutions io') /\
  Forall2 (solution_kept names) (_aqueous_solutions io)
    (_aqueous_solutions io') /\
  forall k, N.to_nat (NumberOfBaseNodes (_mesh io)) <= k ->
    _aqueous_solutions io' !! k = _aqueous_solutions io !! k.
Proof.
  intros names (sols' & -> & Hsys)%setAqueousSolutions_run.
  apply transfer_systems_setting_kept in Hsys as (-> & Hkept & Hframe).
  split; [reflexivity|]. split; [reflexivity|]. split; [exact Hkept|].
  intros k Hk. apply Hframe. intros Hin%elem_of_seq. lia.
Qed.

End SettingFrames.

Section ReadThenUpdate.
Context {double Knobs ReactionRate SurfaceSite PrevSolution : Type}.
Context `{FloatOps double}.
Local Abbreviation PhreeqcIO :=
  (@PhreeqcIO double Knobs ReactionRate SurfaceSite PrevSolution).
Local Abbreviation GlobalVector := (list double).
Local Abbreviation Updating := Status.UpdatingProcessSolutions.
Variable stod : string -> StodResult double.
Implicit Types (io : PhreeqcIO) (vecs : list GlobalVector).

Lemma same_shape_solutions io io' :
  same_shape io io' ->
  length (_aqueous_solutions io') = length (_aqueous_solutions io).
Proof.
  intros (Hsols & _). apply (f_equal length) in Hsols.
  rewrite !length_map in Hsols. exact Hsols.
Qed.

Lemma same_shape_process_map io io' :
  same_shape io io' ->
  _process_id_to_component_name_map io'
  = _process_id_to_component_name_map io.
Proof. intros (_&_&_&_&_&_&_&_&_&_&_&Hmap). exact Hmap. Qed.

Lemma transport_sized_shape io io' vecs :
  same_shape io io' -> transport_sized io vecs -> transport_sized io' vecs.
Proof.
  intros Hshape (Hmap & Hsols & Hvecs). unfold transport_sized.
  rewrite (same_shape_mesh _ _ Hshape), (same_shape_solutions _ _ Hshape),
    (same_shape_process_map _ _ Hshape). auto.
Qed.


End ReadThenUpdate.

Section UpdateThenSet.
Context {double Knobs ReactionRate SurfaceSite PrevSolution : Type}.
Context `{FloatOps double}.
Local Abbreviation PhreeqcIO :=
  (@PhreeqcIO double Knobs ReactionRate SurfaceSite PrevSolution).
Local Abbreviation GlobalVector := (list double).
Local Abbreviation Updating := Status.UpdatingProcessSolutions.
Local Abbreviation Setting := Status.SettingAqueousSolutions.
Implicit Types (io : PhreeqcIO) (vecs : list GlobalVector).

Lemma transport_sized_lengths io vecs vecs' :
  map length vecs' = map length vecs ->
  transport_sized io vecs -> transport_sized io vecs'.
Proof. unfold transport_sized. intros ->. auto. Qed.

Lemma solution_kept_names names (sol sol' : @AqueousSolution double) :
  solution_kept names sol sol' ->
  map component_name (components sol') = map component_name (components sol).
Proof.
  intros (_ & _ & Hc). induction Hc as [|c c' cs cs' (Hn & _) _ IH];
    [reflexivity|]. cbn [map]. rewrite Hn, IH. reflexivity.
Qed.

(** X17: updating the process solutions and then setting the aqueous
    solutions, with nothing in between, is defined and gives back, for each
    of the N systems, the pe and the amount of every component that is not
    named "H" as they were; the pH is as it was when "H" is not bound, and
    otherwise it is [-log10 (10^-pH)] as the two library functions compute
    it.  (The amount of a component named "H" becomes [10^-pH] when "H" is
    bound.) *)
Theorem update_then_set_round_trip io vecs local_id g sol :
  let n := N.to_nat (NumberOfBaseNodes (_mesh io)) in
  let pmap := _process_id_to_component_name_map io in
  transport_sized io vecs ->
  NoDup (map fst pmap) ->
  NoDup (map snd pmap) ->
  NoDup (take n (bulk_node_ids (_mesh io))) ->
  local_id < n ->
  bulk_node_ids (_mesh io) !! local_id = Some g ->
  _aqueous_solutions io !! local_id = Some sol ->
  exists vecs1 io2 sol2,
    setAqueousSolutionsOrUpdateProcessSolutions io vecs Updating
      = Ok (io, vecs1) /\
    setAqueousSolutionsOrUpdateProcessSolutions io vecs1 Setting
      = Ok (io2, vecs1) /\
    _aqueous_solutions io2 !! local_id = Some sol2 /\
    pH sol2 = (if decide ("H"%string ∈ map snd pmap)
               then fneg (flog10 (fpow ften (fneg (pH sol))))
               else pH sol) /\
    pe sol2 = pe sol /\
    forall nm, nm <> "H"%string -> amount_of sol2 nm = amount_of sol nm.
Proof.
  intros n pmap Hsized Hpids Hnames Hmap Hlocal Hg Hsol.
  destruct (transport_defined Updating io vecs Hsized)
    as (sols1 & vecs1 & Hrun1 & Hsys1 & _ & Hlens).
  pose proof (transfer_systems_updating_frame _ _ _ _ _ _ _ Hsys1) as (-> & _).
  rewrite with_aqueous_solutions_same in Hrun1.
  pose proof (transport_sized_lengths io vecs vecs1 Hlens Hsized) as Hsized1.
  destruct (transport_defined Setting io vecs1 Hsized1)
    as (sols2 & vecs2 & Hrun2 & Hsys2 & Hlen2 & _).
  pose proof (transfer_systems_setting_kept _ _ _ _ _ _ _ Hsys2)
    as (-> & Hkept & _).
  pose proof (transfer_systems_setting _ _ _ _ _ _ _ Hsys2 Hnames
                (NoDup_seq _ _)) as (_ & _ & Hset).
  destruct (lookup_lt_is_Some_2 sols2 local_id) as (sol2 & Hsol2).
  { rewrite Hlen2. eapply lookup_lt_Some; exact Hsol. }
  exists vecs1, (with_aqueous_solutions io sols2), sol2.
  split; [exact Hrun1|]. split; [exact Hrun2|]. split; [exact Hsol2|].
  assert (Hin : local_id ∈ seq 0 n) by (apply elem_of_seq; lia).
  destruct (Hset local_id g sol2 Hin Hg Hsol2) as (Hamounts & HpH).
  pose proof (Forall2_lookup_lr _ _ _ _ _ _ Hkept Hsol Hsol2)
    as Hkept2.
  assert (Hwritten : forall p var, (p, var) ∈ pmap ->
            cell vecs1 (Z.to_nat p) (N.to_nat g)
            = updated_value var sol (cell vecs (Z.to_nat p) (N.to_nat g))).
  { intros p var Hpvar.
    eapply (transfer_systems_written _ _ p var _ _ _ _ _ local_id g sol Hsys1);
      try eassumption.
    - apply NoDup_seq.
    - intros k' g' Hk' Hne Hg' ->. apply elem_of_seq in Hk'.
      apply Hne. eapply (NoDup_lookup _ _ _ _ Hmap);
        rewrite lookup_take_lt by (unfold n; lia); eassumption. }
  split; [|split].
  - destruct (decide ("H"%string ∈ map snd pmap)) as [HH|HH].
    + apply elem_of_map_snd in HH as (p & HH).
      destruct (HpH p HH) as (x & Hx & ->).
      rewrite (Hwritten p _ HH) in Hx. unfold updated_value in Hx.
      rewrite decide_True in Hx by reflexivity. injection Hx as <-.
      reflexivity.
    + destruct Hkept2 as (_ & Hkeep & _). apply Hkeep. exact HH.
  - destruct Hkept2 as (Hpe & _). exact Hpe.
  - intros nm Hnm.
    destruct (decide (nm ∈ map snd pmap)) as [Hbound|Hfree].
    + apply elem_of_map_snd in Hbound as (p & Hbound).
      pose proof (Hwritten p nm Hbound) as Hcell.
      unfold updated_value in Hcell. rewrite decide_False in Hcell by exact Hnm.
      pose proof (solution_kept_names _ _ _ Hkept2) as Hsame.
      destruct (amount_of sol2 nm) as [a2|] eqn:Ha2.
      * specialize (Hamounts p nm a2 Hbound Ha2).
        assert (Hsome : is_Some (amount_of sol nm)).
        { eapply amount_of_shape; [symmetry; exact Hsame|].
          rewrite Ha2. eauto. }
        destruct Hsome as (a & Ha). rewrite Ha.
        unfold amount_of in Ha.
        destruct (find_component (components sol) nm) as [[k c]|];
          [|discriminate].
        injection Ha as <-. congruence.
      * destruct (amount_of sol nm) as [a|] eqn:Ha; [|reflexivity].
        assert (Hsome : is_Some (amount_of sol2 nm)).
        { eapply amount_of_shape; [exact Hsame|]. rewrite Ha. eauto. }
        rewrite Ha2 in Hsome. destruct Hsome as (? & [=]).
    + destruct Hkept2 as (_ & _ & Hcs).
      clear - Hcs Hfree. unfold amount_of, find_component.
      destruct sol as [ph pe0 cs], sol2 as [ph2 pe2 cs2]. cbn [components] in *.
      induction Hcs as [|c c' cs cs' (Hn & Ha) _ IH]; [reflexivity|].
      cbn [list_find]. rewrite Hn.
      destruct (decide (component_name c = nm)) as [Hc|Hc].
      * cbn. rewrite Ha; [reflexivity|]. rewrite Hc. exact Hfree.
      * destruct (list_find _ cs) as [[? ?]|], (list_find _ cs') as [[? ?]|];
          cbn in *; congruence.
Qed.

End UpdateThenSet.

Section DeserializerSucceeds.
Context {double Knobs ReactionRate SurfaceSite PrevSolution : Type}.
Local Abbreviation PhreeqcIO :=
  (@PhreeqcIO double Knobs ReactionRate SurfaceSite PrevSolution).
Variable stod : string -> StodResult double.
Implicit Types (io : PhreeqcIO) (m : list N).

Lemma same_shape_sym io io' : same_shape io io' -> same_shape io' io.
Proof.
  intros (?&?&?&?&?&?&?&?&?&?&?&?). repeat split; congruence.
Qed.

Lemma named_entry_find {A} (name_of : A -> string)
    (array_of : A -> list double) (l : list A) nm i :
  is_Some (named_entry name_of array_of l nm i) ->
  exists k a, list_find (fun a => name_of a = nm) l = Some (k, a) /\
              i < length (array_of a).
Proof.
  unfold named_entry.
  destruct (list_find _ l) as [[k a]|]; [|intros [? [=]]].
  intros Hi%lookup_lt_is_Some. eauto.
Qed.

Lemma update_item_defined k g item v io :
  is_Some (entry io k g (item_type item) (name item)) ->
  exists io', update_item k g item v io = Ok io'.
Proof.
  unfold entry, update_item, scalar_entry, amount_of, find_component.
  destruct (item_type item); cbn [is_array array_entry];
    unfold mbind, outcome_bind, obind, at_index, findElementOrError,
      assign_index.
  - destruct (_aqueous_solutions io !! k); [eauto|intros [? [=]]].
  - destruct (_aqueous_solutions io !! k); [eauto|intros [? [=]]].
  - destruct (_aqueous_solutions io !! k) as [sol|]; [|intros [? [=]]].
    destruct (list_find _ (components sol)) as [[j c]|]; [eauto|intros [? [=]]].
  - intros (j & a & -> & Hlen)%named_entry_find.
    rewrite decide_True by assumption. eauto.
  - intros (j & a & -> & Hlen)%named_entry_find.
    rewrite decide_True by assumption. eauto.
  - destruct (_user_punch io) as [up|]; [|intros [? [=]]].
    intros (j & a & -> & Hlen)%named_entry_find.
    rewrite decide_True by assumption. eauto.
Qed.

Lemma route_items_defined k g : forall values c io,
  (forall j, j < length values ->
     exists item, accepted_items (_output io) !! (c + j) = Some item /\
       is_Some (entry io k g (item_type item) (name item))) ->
  exists io', route_items k g c values io = Ok io'.
Proof.
  induction values as [|v values IH]; intros c io Hitems; cbn [route_items];
    [eauto|].
  destruct (Hitems 0) as (item & Hitem & Hentry); [cbn [length]; lia|].
  rewrite Nat.add_0_r in Hitem. unfold at_index. rewrite Hitem.
  unfold mbind, outcome_bind, obind.
  destruct (update_item_defined k g item v io Hentry) as (io1 & Hup).
  rewrite Hup. pose proof (update_item_shape _ _ _ _ _ _ Hup) as Hshape.
  apply IH. intros j Hj.
  destruct (Hitems (S j)) as (item' & Hitem' & Hentry'); [cbn [length]; lia|].
  exists item'. rewrite (same_shape_output _ _ Hshape).
  split; [rewrite <- Hitem'; f_equal; lia|].
  eapply entry_shape; [apply same_shape_sym; exact Hshape|exact Hentry'].
Qed.

Lemma accept_items_defined dropped g : forall items c,
  Forall (fun kept => exists v, stod (snd kept) = Converted v)
    (kept_items dropped c items) ->
  exists values, accept_items stod dropped g c items = inr values.
Proof.
  induction items as [|t items IH]; intros c; cbn [accept_items kept_items];
    [eauto|].
  destruct (decide (c ∈ dropped)); [apply IH|].
  intros [(v & Hv) Hrest]%list.Forall_cons. cbn [snd] in Hv. rewrite Hv.
  destruct (IH _ Hrest) as (values & ->). eauto.
Qed.

Lemma read_row_defined k g line io :
  let items := row_items line in
  let kept := kept_items (dropped_item_ids (_output io)) 0 items in
  (Z.of_nat (length items) < 2 ^ 31)%Z ->
  Forall (fun kept => exists v, stod (snd kept) = Converted v) kept ->
  length kept = length (accepted_items (_output io)) ->
  k < length (_aqueous_solutions io) ->
  (forall item, item ∈ accepted_items (_output io) ->
     is_Some (entry io k g (item_type item) (name item))) ->
  exists io', read_row stod k g line io = Ok io'.
Proof.
  intros items kept Hsmall Hconv Hcount Hk Hentries. unfold read_row.
  fold items. rewrite (int_prefix_small items) by assumption.
  destruct (accept_items_defined _ g items 0 Hconv) as (values & Hacc).
  rewrite Hacc.
  pose proof (Forall2_length (accept_items_converted stod _ _ _ _ _ Hacc))
    as Hlen. fold kept in Hlen.
  rewrite decide_True by congruence.
  unfold at_index. destruct (lookup_lt_is_Some_2 _ _ Hk) as (sol & ->).
  unfold mbind, outcome_bind, obind.
  rewrite int_prefix_small
    by (apply (accept_items_length stod) in Hacc; lia).
  apply route_items_defined. intros j Hj. cbn [plus].
  destruct (lookup_lt_is_Some_2 (accepted_items (_output io)) j)
    as (item & Hitem); [lia|].
  exists item. split; [exact Hitem|]. apply Hentries.
  eapply list_elem_of_lookup_2; exact Hitem.
Qed.

Lemma read_rows_defined m : forall rows k io,
  k + length rows <= length m ->
  k + length rows <= length (_aqueous_solutions io) ->
  Forall (fun row =>
    let kept := kept_items (dropped_item_ids (_output io)) 0 (row_items row) in
    (Z.of_nat (length (row_items row)) < 2 ^ 31)%Z /\
    Forall (fun kept => exists v, stod (snd kept) = Converted v) kept /\
    length kept = length (accepted_items (_output io))) rows ->
  (forall j g item, j < length rows -> m !! (k + j) = Some g ->
     item ∈ accepted_items (_output io) ->
     is_Some (entry io (k + j) g (item_type item) (name item))) ->
  exists io', read_rows stod m k rows io = Ok io'.
Proof.
  induction rows as [|row rows IH]; intros k io Hm Hsols Hrows Hentries;
    cbn [read_rows]; [eauto|].
  cbn [length] in Hm, Hsols.
  apply list.Forall_cons in Hrows as ((Hsmall & Hconv & Hcount) & Hrows).
  unfold at_index.
  destruct (lookup_lt_is_Some_2 m k) as (g & Hg); [lia|]. rewrite Hg.
  unfold mbind, outcome_bind, obind.
  destruct (read_row_defined k g row io Hsmall Hconv Hcount) as (io1 & Hrow).
  { lia. }
  { intros item Hitem. specialize (Hentries 0 g item).
    rewrite Nat.add_0_r in Hentries.
    apply Hentries; [cbn [length]; lia|exact Hg|exact Hitem]. }
  rewrite Hrow. pose proof (read_row_shape stod _ _ _ _ _ Hrow) as Hshape.
  apply IH.
  - lia.
  - rewrite (same_shape_solutions _ _ Hshape). lia.
  - rewrite (same_shape_output _ _ Hshape). exact Hrows.
  - intros j g' item Hj Hg' Hitem.
    rewrite (same_shape_output _ _ Hshape) in Hitem.
    eapply entry_shape; [apply same_shape_sym; exact Hshape|].
    replace (S k + j) with (k + S j) in * by lia.
    apply Hentries; [cbn [length]; lia|exact Hg'|exact Hitem].
Qed.

(** X4: the deserializer succeeds on a well-formed table: when the index map and
    the solutions cover the N systems, every kept item of every data row
    converts and each row has as many kept items as the output has accepted
    items, and every accepted item has its entry for every system, the run
    reads the whole table and leaves what follows it unread. *)
Theorem extract_succeeds io header blocks rest :
  let n := N.to_nat (NumberOfBaseNodes (_mesh io)) in
  let dropped := dropped_item_ids (_output io) in
  table_ok io header blocks ->
  n <= length (bulk_node_ids (_mesh io)) ->
  n <= length (_aqueous_solutions io) ->
  Forall (fun b =>
    let kept := kept_items dropped 0 (row_items (data_row b)) in
    (Z.of_nat (length (row_items (data_row b))) < 2 ^ 31)%Z /\
    Forall (fun kept => exists v, stod (snd kept) = Converted v) kept /\
    length kept = length (accepted_items (_output io))) blocks ->
  (forall k g item, k < n ->
     bulk_node_ids (_mesh io) !! k = Some g ->
     item ∈ accepted_items (_output io) ->
     is_Some (entry io k g (item_type item) (name item))) ->
  exists io',
    operator_extract stod (lines_then (table_lines header blocks) rest) io
    = Ok (rest, io').
Proof.
  intros n dropped Hok Hm Hsols Hrows Hentries.
  rewrite operator_extract_table by assumption.
  destruct Hok as (Hlen & _). fold n in Hlen.
  destruct (read_rows_defined (bulk_node_ids (_mesh io))
              (map data_row blocks) 0 io) as (io' & ->).
  - rewrite length_map. lia.
  - rewrite length_map. lia.
  - apply Forall_fmap. exact Hrows.
  - intros j g item Hj. rewrite length_map in Hj. apply Hentries. lia.
  - exists io'. reflexivity.
Qed.

End DeserializerSucceeds.

Section SerializerDefined.
Context {double Knobs ReactionRate SurfaceSite PrevSolution : Type}.
Local Abbreviation PhreeqcIO :=
  (@PhreeqcIO double Knobs ReactionRate SurfaceSite PrevSolution).
Implicit Types (io : PhreeqcIO).

Lemma insert_systems_each io : forall ids blocks k,
  insert_systems io ids = Ok blocks -> k ∈ ids ->
  exists block, insert_system io k = Ok block.
Proof.
  induction ids as [|k0 ids IH]; intros blocks k; cbn [insert_systems];
    [intros _ Hk; inversion Hk|].
  unfold mbind, outcome_bind, obind.
  destruct (insert_system io k0) as [block| |] eqn:Hblock; try discriminate.
  destruct (insert_systems io ids) as [blocks'| |] eqn:Hblocks;
    try discriminate.
  intros _ [->|Hk]%elem_of_cons; [eauto|]. eapply IH; eauto.
Qed.

Lemma insert_system_sized io k block :
  insert_system io k = Ok block ->
  k < length (bulk_node_ids (_mesh io)) /\
  k < length (_aqueous_solutions io) /\
  match _dump io with
  | Some dump => aqueous_solutions_prev dump = [] \/
                 k < length (aqueous_solutions_prev dump)
  | None => _surface io = []
  end.
Proof.
  unfold insert_system, at_index, mbind, outcome_bind, obind.
  destruct (bulk_node_ids (_mesh io) !! k) as [g|] eqn:Hg; [|discriminate].
  destruct (_aqueous_solutions io !! k) as [sol|] eqn:Hsol; [|discriminate].
  destruct (insert_previous io k) as [previous| |] eqn:Hprev; try discriminate.
  destruct (insert_surface io _ g) as [surface| |] eqn:Hsurf; try discriminate.
  intros _. split; [eapply lookup_lt_Some; exact Hg|].
  split; [eapply lookup_lt_Some; exact Hsol|].
  unfold insert_previous, insert_surface in *.
  destruct (_dump io) as [dump|].
  - destruct (aqueous_solutions_prev dump) as [|p ps]; [auto|]. right.
    unfold at_index, mbind, outcome_bind, obind in Hprev.
    destruct ((p :: ps) !! k) eqn:Hk; [|discriminate].
    eapply lookup_lt_Some; exact Hk.
  - destruct (_surface io); [reflexivity|discriminate].
Qed.

(** X9: for a configuration with at least one chemical system, serializing is
    defined exactly when the index map and the solutions cover the N systems,
    the previous solutions of the dump, if it holds any, cover them too, and
    a dump is there when surface sites are; otherwise it is undefined
    behaviour. *)
Theorem serializer_defined_iff_well_sized io os :
  NumberOfBaseNodes (_mesh io) <> 0%N ->
  (exists os', operator_insert os io = Ok os') <-> well_sized io.
Proof.
  intros Hn. split.
  - intros (os' & Hos). unfold operator_insert in Hos.
    unfold mbind, outcome_bind, obind in Hos.
    destruct (insert_systems io _) as [systems| |] eqn:Hsys; try discriminate.
    destruct (insert_systems_each io _ _
                (pred (N.to_nat (NumberOfBaseNodes (_mesh io)))) Hsys)
      as (block & Hblock); [apply elem_of_seq; lia|].
    apply insert_system_sized in Hblock as (Hm & Hsols & Hdump).
    split; [lia|]. split; [lia|].
    destruct (_dump io) as [dump|]; [|exact Hdump].
    destruct Hdump as [?|?]; [left; assumption|right; lia].
  - intros Hio. unfold operator_insert.
    destruct (insert_systems_defined io
                (seq 0 (N.to_nat (NumberOfBaseNodes (_mesh io)))) Hio)
      as (blocks & ->); [|cbn; eauto].
    apply Forall_forall. intros k Hk%in_seq. lia.
Qed.

End SerializerDefined.

Section BlankRow.
Context {double Knobs ReactionRate SurfaceSite PrevSolution : Type}.
Local Abbreviation PhreeqcIO :=
  (@PhreeqcIO double Knobs ReactionRate SurfaceSite PrevSolution).
Variable stod : string -> StodResult double.
Implicit Types (io : PhreeqcIO).

(** X2: a data row that is empty or made of tabs and spaces only has one
    item, the empty string, in column 0.  When column 0 is not dropped and
    [std::stod] rejects the empty string as an invalid argument, the run
    aborts at that row with the error of this item, in the state it had
    before the row. *)
Theorem blank_row_is_fatal io header blocks rest k b g io_k what :
  table_ok io header blocks ->
  blocks !! k = Some b ->
  bulk_node_ids (_mesh io) !! k = Some g ->
  read_rows stod (bulk_node_ids (_mesh io)) 0 (map data_row (take k blocks)) io
    = Ok io_k ->
  all_blank (data_row b) = true ->
  0%Z ∉ dropped_item_ids (_output io) ->
  stod EmptyString = invalid_argument what ->
  row_items (data_row b) = [EmptyString] /\
  operator_extract stod (lines_then (table_lines header blocks) rest) io
  = Fatal (StodInvalidArgument EmptyString g 0 what) io_k.
Proof.
  intros Hok Hb Hg Hbefore Hblank Hkept Hstod.
  pose proof (row_items_of_a_blank_row _ Hblank) as Hitems.
  split; [exact Hitems|].
  eapply operator_extract_abort; try eassumption.
  pose proof (read_rows_setup _ _ _ _ _ _ Hbefore) as (_ & Hout & _).
  unfold read_row. rewrite Hitems, Hout.
  change (int_prefix [EmptyString]) with [EmptyString].
  cbn [accept_items]. rewrite decide_False by exact Hkept.
  rewrite Hstod. reflexivity.
Qed.

End BlankRow.

Section SettingValues.
Context {double Knobs ReactionRate SurfaceSite PrevSolution : Type}.
Context `{FloatOps double}.
Local Abbreviation PhreeqcIO :=
  (@PhreeqcIO double Knobs ReactionRate SurfaceSite PrevSolution).
Local Abbreviation GlobalVector := (list double).
Local Abbreviation Setting := Status.SettingAqueousSolutions.
Implicit Types (io : PhreeqcIO) (vecs : list GlobalVector).

(** X14: when the names of the process id map are distinct, setting leaves
    in the solution of the system at [local_id], whose global id is [g], what
    the transport vectors hold at [g]: the amount of the first component
    named like a transport variable is the entry of the process of that
    variable, and when "H" is bound the pH is [-log10] of the entry of its
    process. *)
Theorem setting_reads_the_entries io vecs io' vecs' local_id g sol' :
  let n := N.to_nat (NumberOfBaseNodes (_mesh io)) in
  let pmap := _process_id_to_component_name_map io in
  setAqueousSolutionsOrUpdateProcessSolutions io vecs Setting
    = Ok (io', vecs') ->
  NoDup (map snd pmap) ->
  local_id < n ->
  bulk_node_ids (_mesh io) !! local_id = Some g ->
  _aqueous_solutions io' !! local_id = Some sol' ->
  (forall pid var a, (pid, var) ∈ pmap -> amount_of sol' var = Some a ->
     transport_value vecs pid g = Some a) /\
  (forall pid, (pid, "H"%string) ∈ pmap ->
     exists x, transport_value vecs pid g = Some x /\
               pH sol' = fneg (flog10 x)).
Proof.
  intros n pmap (sols' & -> & Hsys)%setAqueousSolutions_run Hnames Hlocal Hg
    Hsol'.
  cbn [_aqueous_solutions with_aqueous_solutions] in Hsol'.
  assert (Hpos : Forall (fun e => (0 <= fst e)%Z) pmap).
  { destruct n as [|n'] eqn:Hn; [lia|]. fold n in Hsys. rewrite Hn in Hsys.
    cbn [seq transfer_systems] in Hsys.
    unfold mbind, outcome_bind, obind in Hsys.
    destruct (transfer_system _ _ _ 0 _) as [[sols1 vecs1]| |] eqn:Hsys0;
      try discriminate.
    apply transfer_system_setting in Hsys0
      as (g0 & sol0 & sol1 & _ & _ & Helems & _).
    clear - Helems. fold pmap in Helems. revert sol0 sol1 vecs vecs1 Helems.
    induction pmap as [|[pid var] pmap' IH]; intros sol0 sol1 vecs vecs1;
      cbn [transfer_elements]; [constructor|].
    unfold mbind, outcome_bind, obind.
    destruct (transfer_element _ g0 (pid, var) (sol0, vecs))
      as [[sol2 vecs2]| |] eqn:Helem; try discriminate.
    intros Hrest. constructor; [|eapply IH; exact Hrest].
    unfold transfer_element in Helem. cbn [snd fst] in *.
    unfold mbind, outcome_bind, obind in Helem.
    destruct (process_solution vecs pid) as [v0| |] eqn:Hv0; try discriminate.
    apply process_solution_Ok in Hv0 as (Hpid & _). exact Hpid. }
  pose proof (transfer_systems_setting _ _ _ _ _ _ _ Hsys Hnames
                (NoDup_seq _ _)) as (_ & _ & Hset).
  assert (Hin : local_id ∈ seq 0 n) by (apply elem_of_seq; lia).
  destruct (Hset local_id g sol' Hin Hg Hsol') as (Hamounts & HpH).
  rewrite Forall_forall in Hpos.
  split.
  - intros pid var a Hpvar Ha. unfold transport_value.
    rewrite decide_True
      by (apply (Hpos (pid, var)), list_elem_of_In; exact Hpvar).
    eapply Hamounts; eassumption.
  - intros pid HH. destruct (HpH pid HH) as (x & Hx & Hph).
    exists x. split; [|exact Hph]. unfold transport_value.
    rewrite decide_True
      by (apply (Hpos (pid, "H"%string)), list_elem_of_In; exact HH).
    exact Hx.
Qed.

End SettingValues.

Section ScriptContents.
Context {double Knobs ReactionRate SurfaceSite PrevSolution : Type}.
Local Abbreviation PhreeqcIO :=
  (@PhreeqcIO double Knobs ReactionRate SurfaceSite PrevSolution).
Local Abbreviation ostream :=
  (@ostream double Knobs ReactionRate SurfaceSite PrevSolution).
Local Abbreviation Insertion :=
  (@Insertion double Knobs ReactionRate SurfaceSite PrevSolution).
Implicit Types (io : PhreeqcIO) (os : ostream).

Lemma omap_map_None {A B X} (f : B -> option X) (g : A -> B) (l : list A) :
  (forall a, f (g a) = None) -> omap f (map g l) = [].
Proof.
  intros Hf. induction l as [|a l IH]; [reflexivity|].
  cbn [map omap list_omap]. rewrite Hf. exact IH.
Qed.

Lemma omap_map_Some {A B X} (f : B -> option X) (g : A -> B) (h : A -> X)
    (l : list A) :
  (forall a, f (g a) = Some (h a)) -> omap f (map g l) = map h l.
Proof.
  intros Hf. induction l as [|a l IH]; [reflexivity|].
  cbn [map omap list_omap]. rewrite Hf. f_equal. exact IH.
Qed.

Lemma insert_system_Ok io k block :
  insert_system io k = Ok block ->
  exists g sol previous surface,
    bulk_node_ids (_mesh io) !! k = Some g /\
    _aqueous_solutions io !! k = Some sol /\
    insert_previous io k = Ok previous /\
    insert_surface io (NumberOfBaseNodes (_mesh io)) g = Ok surface /\
    block = ([Str "SOLUTION "; Size (size_add g 1); Str nl;
              OfAqueousSolution sol; Str nl]
             ++ previous
             ++ [Str "USE solution none"; Str nl; Str "END"; Str nlnl;
                 Str "USE solution "; Size (size_add g 1); Str nlnl]
             ++ insert_equilibrium_phases io g
             ++ insert_kinetics io g
             ++ surface
             ++ [Str "END"; Str nlnl])%list.
Proof.
  unfold insert_system, at_index, mbind, outcome_bind, obind.
  destruct (bulk_node_ids (_mesh io) !! k) as [g|]; [|discriminate].
  destruct (_aqueous_solutions io !! k) as [sol|]; [|discriminate].
  destruct (insert_previous io k) as [previous| |]; try discriminate.
  destruct (insert_surface io _ g) as [surface| |] eqn:Hsurf;
    try discriminate.
  intros <-%Ok_inj. exists g, sol, previous, surface.
  repeat split. exact Hsurf.
Qed.

(** The objects of one kind in the blocks of the systems, when each block
    holds those of one element of a list indexed by [local_id]. *)
Lemma insert_systems_objects {X Y} (f : Insertion -> option X)
    (l : list Y) (h : Y -> list X) io :
  (forall k block, insert_system io k = Ok block ->
     exists y, l !! k = Some y /\ omap f block = h y) ->
  forall ids blocks, insert_systems io ids = Ok blocks ->
  exists ys, Forall2 (fun k y => l !! k = Some y) ids ys /\
    omap f blocks = concat (map h ys).
Proof.
  intros Hblock. induction ids as [|k ids IH]; intros blocks;
    cbn [insert_systems].
  - intros <-%Ok_inj. exists []. split; [constructor|reflexivity].
  - unfold mbind, outcome_bind, obind.
    destruct (insert_system io k) as [block| |] eqn:Hb; try discriminate.
    destruct (insert_systems io ids) as [rest| |]; try discriminate.
    intros <-%Ok_inj. destruct (IH rest eq_refl) as (ys & Hys & Hrest).
    destruct (Hblock k block Hb) as (y & Hy & Hobj).
    exists (y :: ys). split; [constructor; assumption|].
    rewrite omap_app, Hobj, Hrest. reflexivity.
Qed.

Lemma script_objects_with_setup {X Y} (f : Insertion -> option X)
    (l : list Y) (h : Y -> list X) io os :
  (forall k block, insert_system io k = Ok block ->
     exists y, l !! k = Some y /\ omap f block = h y) ->
  operator_insert [] io = Ok os ->
  omap f os
  = (omap f (insert_preamble io)
     ++ concat (map h (take (N.to_nat (NumberOfBaseNodes (_mesh io))) l))
     ++ match _dump io with
        | Some dump => omap f [PrintDump dump (NumberOfBaseNodes (_mesh io))]
        | None => []
        end)%list.
Proof.
  intros Hblock.
  unfold operator_insert, mbind, outcome_bind, obind.
  destruct (insert_systems io _) as [systems| |] eqn:Hsys; try discriminate.
  intros <-%Ok_inj.
  destruct (insert_systems_objects f l h io Hblock _ _ Hsys)
    as (ys & Hys & Hobj).
  apply lookup_seq_take in Hys as ->. cbn [app].
  rewrite !omap_app, Hobj. destruct (_dump io); reflexivity.
Qed.

Lemma omap_preamble {X} (f : Insertion -> option X) io :
  (forall s, f (Str s) = None) ->
  omap f (insert_preamble io)
  = (omap f [OfKnobs (_knobs io)] ++ omap f [OfOutput (_output io)]
     ++ match _user_punch io with
        | Some user_punch => omap f [OfUserPunch user_punch]
        | None => []
        end
     ++ omap f (map OfReactionRate (_reaction_rates io)))%list.
Proof.
  intros Hstr. unfold insert_preamble. rewrite !omap_app.
  assert (Hhead : omap f [OfKnobs (_knobs io); Str nl; OfOutput (_output io);
                          Str nl]
                  = (omap f [OfKnobs (_knobs io)]
                     ++ omap f [OfOutput (_output io)])%list).
  { cbn [omap list_omap]. rewrite Hstr.
    destruct (f (OfKnobs _)), (f (OfOutput _)); reflexivity. }
  rewrite Hhead, <- !app_assoc. f_equal. f_equal. f_equal.
  - destruct (_user_punch io) as [up|]; [|reflexivity].
    cbn [omap list_omap]. rewrite Hstr. reflexivity.
  - destruct (_reaction_rates io) as [|r rs]; [reflexivity|].
    rewrite !omap_app. cbn [omap list_omap app]. rewrite !Hstr.
    cbn [app]. rewrite ?app_nil_r. reflexivity.
Qed.

Lemma script_objects {X Y} (f : Insertion -> option X)
    (l : list Y) (h : Y -> list X) io os :
  (forall s, f (Str s) = None) ->
  (forall a, f (OfKnobs a) = None) -> (forall a, f (OfOutput a) = None) ->
  (forall a, f (OfUserPunch a) = None) ->
  (forall a, f (OfReactionRate a) = None) ->
  (forall a n, f (PrintDump a n) = None) ->
  (forall k block, insert_system io k = Ok block ->
     exists y, l !! k = Some y /\ omap f block = h y) ->
  operator_insert [] io = Ok os ->
  omap f os
  = concat (map h (take (N.to_nat (NumberOfBaseNodes (_mesh io))) l)).
Proof.
  intros Hstr Hknobs Hout Hpunch Hrate Hdump Hblock Hos.
  rewrite (script_objects_with_setup f l h io os Hblock Hos).
  rewrite (omap_preamble f io Hstr).
  rewrite (omap_map_None f OfReactionRate _ Hrate).
  cbn [omap list_omap]. rewrite Hknobs, Hout.
  destruct (_user_punch io), (_dump io); cbn [omap list_omap app];
    rewrite ?Hpunch, ?Hdump, ?app_nil_r; reflexivity.
Qed.

Lemma omap_previous {X} (f : Insertion -> option X) io k previous :
  (forall s, f (Str s) = None) -> (forall p, f (OfPrevSolution p) = None) ->
  insert_previous io k = Ok previous -> omap f previous = [].
Proof.
  intros Hstr Hprev [->|(p & ->)]%previous_shape; [reflexivity|].
  cbn [omap list_omap]. rewrite Hstr, Hprev. reflexivity.
Qed.

Lemma omap_surface {X} (f : Insertion -> option X) io n g surface :
  (forall s, f (Str s) = None) -> (forall s, f (Size s) = None) ->
  (forall s, f (OfSurfaceSite s) = None) ->
  insert_surface io n g = Ok surface -> omap f surface = [].
Proof.
  intros Hstr Hsize Hsite. unfold insert_surface.
  destruct (_surface io) as [|s ss]; [intros <-%Ok_inj; reflexivity|].
  destruct (_dump io); [|discriminate]. intros <-%Ok_inj.
  rewrite !omap_app, (omap_map_None f OfSurfaceSite (s :: ss) Hsite).
  cbn [app omap list_omap]. rewrite ?Hstr, ?Hsize. reflexivity.
Qed.

Lemma omap_phases {X} (f : Insertion -> option X) io g :
  (forall s, f (Str s) = None) -> (forall s, f (Size s) = None) ->
  omap f (insert_equilibrium_phases io g)
  = omap f (map (fun p => PrintEquilibriumPhase p g) (_equilibrium_phases io)).
Proof.
  intros Hstr Hsize. unfold insert_equilibrium_phases.
  destruct (_equilibrium_phases io) as [|p ps]; [reflexivity|].
  rewrite !omap_app. cbn [omap list_omap]. rewrite ?Hstr, ?Hsize.
  cbn [app]. rewrite app_nil_r. reflexivity.
Qed.

Lemma omap_kinetics {X} (f : Insertion -> option X) io g :
  (forall s, f (Str s) = None) -> (forall s, f (Size s) = None) ->
  omap f (insert_kinetics io g)
  = (omap f (map (fun k => PrintKineticReactant k g) (_kinetic_reactants io))
     ++ match _kinetic_reactants io with
        | [] => []
        | _ => omap f [Dbl (_dt io)]
        end)%list.
Proof.
  intros Hstr Hsize. unfold insert_kinetics.
  destruct (_kinetic_reactants io) as [|p ps]; [reflexivity|].
  rewrite !omap_app. cbn [omap list_omap]. rewrite ?Hstr, ?Hsize.
  cbn [app]. reflexivity.
Qed.

(** The objects of one kind in the block of a system. *)
Lemma omap_block {X} (f : Insertion -> option X) io k block :
  (forall s, f (Str s) = None) -> (forall s, f (Size s) = None) ->
  (forall s, f (OfSurfaceSite s) = None) ->
  insert_system io k = Ok block ->
  exists g sol previous,
    bulk_node_ids (_mesh io) !! k = Some g /\
    _aqueous_solutions io !! k = Some sol /\
    insert_previous io k = Ok previous /\
    omap f block
    = (omap f [OfAqueousSolution sol] ++ omap f previous
       ++ omap f (map (fun p => PrintEquilibriumPhase p g)
                    (_equilibrium_phases io))
       ++ omap f (map (fun r => PrintKineticReactant r g)
                    (_kinetic_reactants io))
       ++ match _kinetic_reactants io with
          | [] => []
          | _ => omap f [Dbl (_dt io)]
          end)%list.
Proof.
  intros Hstr Hsize Hsite
    (g & sol & previous & surface & Hg & Hsol & Hprev & Hsurf & ->)%insert_system_Ok.
  exists g, sol, previous. repeat (split; [assumption|]).
  rewrite !omap_app, (omap_surface f _ _ _ _ Hstr Hsize Hsite Hsurf),
    (omap_phases f _ _ Hstr Hsize), (omap_kinetics f _ _ Hstr Hsize).
  cbn [omap list_omap]. rewrite ?Hstr, ?Hsize. cbn [app].
  rewrite !app_nil_r. reflexivity.
Qed.

(** X11: the script holds the aqueous solutions of the N systems in the
    order of their positions, one in each SOLUTION block, and, when the dump
    holds previous solutions, the previous solution at the same position. *)
Theorem script_holds_the_solutions io os :
  let n := N.to_nat (NumberOfBaseNodes (_mesh io)) in
  operator_insert [] io = Ok os ->
  solutions_of os = take n (_aqueous_solutions io) /\
  previous_of os
  = match _dump io with
    | Some dump => take n (aqueous_solutions_prev dump)
    | None => []
    end.
Proof.
  intros n Hos. split.
  - unfold solutions_of.
    rewrite (script_objects select_solution (_aqueous_solutions io)
               (fun sol => [sol]) io os); try reflexivity; try assumption.
    + rewrite concat_map_singleton. apply map_id.
    + intros k block
        (g & sol & previous & _ & Hsol & Hprev & ->)%(omap_block select_solution io k);
        try reflexivity.
      exists sol. split; [exact Hsol|].
      rewrite (omap_previous select_solution _ _ _ ltac:(reflexivity)
                 ltac:(reflexivity) Hprev).
      rewrite !omap_map_None by reflexivity.
      destruct (_kinetic_reactants io); reflexivity.
  - unfold previous_of.
    assert (Hobjects : forall k block, insert_system io k = Ok block ->
      exists g previous, bulk_node_ids (_mesh io) !! k = Some g /\
        insert_previous io k = Ok previous /\
        omap select_previous block = omap select_previous previous).
    { intros k block
        (g & sol & previous & Hg & _ & Hprev & ->)%(omap_block select_previous io k);
        try reflexivity.
      exists g, previous. split; [exact Hg|]. split; [exact Hprev|].
      rewrite !omap_map_None by reflexivity.
      destruct (_kinetic_reactants io); cbn [omap list_omap app select_previous];
        rewrite ?app_nil_r; reflexivity. }
    destruct (_dump io) as [dump|] eqn:Hdump.
    + destruct (aqueous_solutions_prev dump) as [|p0 ps] eqn:Hps.
      * rewrite (script_objects select_previous (bulk_node_ids (_mesh io))
                   (fun _ => []) io os); try reflexivity; try assumption.
        { rewrite concat_map_nil, take_nil. reflexivity. }
        intros k block (g & previous & Hg & Hprev & ->)%Hobjects.
        exists g. split; [exact Hg|].
        unfold insert_previous in Hprev. rewrite Hdump, Hps in Hprev.
        apply Ok_inj in Hprev as <-. reflexivity.
      * rewrite (script_objects select_previous (p0 :: ps) (fun p => [p])
                   io os); try reflexivity; try assumption.
        { rewrite concat_map_singleton. apply map_id. }
        intros k block (g & previous & Hg & Hprev & ->)%Hobjects.
        unfold insert_previous in Hprev. rewrite Hdump, Hps in Hprev.
        unfold at_index, mbind, outcome_bind, obind in Hprev.
        destruct ((p0 :: ps) !! k) as [p|] eqn:Hp; [|discriminate].
        apply Ok_inj in Hprev as <-. exists p. auto.
    + rewrite (script_objects select_previous (bulk_node_ids (_mesh io))
                 (fun _ => []) io os); try reflexivity; try assumption.
      { rewrite concat_map_nil. reflexivity. }
      intros k block (g & previous & Hg & Hprev & ->)%Hobjects.
      exists g. split; [exact Hg|].
      unfold insert_previous in Hprev. rewrite Hdump in Hprev.
      apply Ok_inj in Hprev as <-. reflexivity.
Qed.

(** X12: in the script, [print] is called for every equilibrium phase and
    for every kinetic reactant once in the block of each of the N systems,
    with the global id of the system as its argument (not its position), in
    the order of the blocks; and every KINETICS block ends with the step
    length [_dt]. *)
Theorem script_prints_at_global_ids io os :
  let global_ids := take (N.to_nat (NumberOfBaseNodes (_mesh io)))
                         (bulk_node_ids (_mesh io)) in
  operator_insert [] io = Ok os ->
  phase_prints os
  = concat (map (fun g => map (fun p => (p, g)) (_equilibrium_phases io))
              global_ids) /\
  reactant_prints os
  = concat (map (fun g => map (fun r => (r, g)) (_kinetic_reactants io))
              global_ids) /\
  steps_of os
  = match _kinetic_reactants io with
    | [] => []
    | _ => map (fun _ => _dt io) global_ids
    end.
Proof.
  intros global_ids Hos. subst global_ids. repeat split.
  - unfold phase_prints.
    rewrite (script_objects select_phase_print (bulk_node_ids (_mesh io))
               (fun g => map (fun p => (p, g)) (_equilibrium_phases io)) io os);
      try reflexivity; try assumption.
    intros k block
      (g & sol & previous & Hg & _ & Hprev & ->)%(omap_block select_phase_print io k);
      try reflexivity.
    exists g. split; [exact Hg|].
    rewrite (omap_previous select_phase_print _ _ _ ltac:(reflexivity)
               ltac:(reflexivity) Hprev).
    rewrite (omap_map_Some select_phase_print _ (fun p => (p, g)))
      by reflexivity.
    rewrite omap_map_None by reflexivity.
    destruct (_kinetic_reactants io); cbn [omap list_omap app select_phase_print];
      rewrite ?app_nil_r; reflexivity.
  - unfold reactant_prints.
    rewrite (script_objects select_reactant_print (bulk_node_ids (_mesh io))
               (fun g => map (fun r => (r, g)) (_kinetic_reactants io)) io os);
      try reflexivity; try assumption.
    intros k block
      (g & sol & previous & Hg & _ & Hprev & ->)%(omap_block select_reactant_print io k);
      try reflexivity.
    exists g. split; [exact Hg|].
    rewrite (omap_previous select_reactant_print _ _ _ ltac:(reflexivity)
               ltac:(reflexivity) Hprev).
    rewrite (omap_map_Some select_reactant_print
               (fun r => PrintKineticReactant r g) (fun r => (r, g)))
      by reflexivity.
    rewrite omap_map_None by reflexivity.
    destruct (_kinetic_reactants io); cbn [omap list_omap app select_reactant_print];
      rewrite ?app_nil_r; reflexivity.
  - unfold steps_of.
    rewrite (script_objects select_double (bulk_node_ids (_mesh io))
               (fun _ => match _kinetic_reactants io with
                         | [] => []
                         | _ => [_dt io]
                         end) io os);
      try reflexivity; try assumption.
    + destruct (_kinetic_reactants io);
        [apply concat_map_nil|apply concat_map_singleton].
    + intros k block
        (g & sol & previous & Hg & _ & Hprev & ->)%(omap_block select_double io k);
        try reflexivity.
      exists g. split; [exact Hg|].
      rewrite (omap_previous select_double _ _ _ ltac:(reflexivity)
                 ltac:(reflexivity) Hprev).
      rewrite !omap_map_None by reflexivity.
      destruct (_kinetic_reactants io); reflexivity.
Qed.

(** No object of the setup is in the block of a system. *)
Lemma omap_block_setup {X} (f : Insertion -> option X) io k block :
  (forall s, f (Str s) = None) -> (forall s, f (Size s) = None) ->
  (forall s, f (OfSurfaceSite s) = None) ->
  (forall s, f (OfAqueousSolution s) = None) ->
  (forall s, f (OfPrevSolution s) = None) ->
  (forall p g, f (PrintEquilibriumPhase p g) = None) ->
  (forall r g, f (PrintKineticReactant r g) = None) ->
  (forall d, f (Dbl d) = None) ->
  insert_system io k = Ok block ->
  exists g, bulk_node_ids (_mesh io) !! k = Some g /\ omap f block = [].
Proof.
  intros Hstr Hsize Hsite Hsol Hprev Hphase Hreactant Hdbl
    (g & sol & previous & Hg & _ & Hprevious & ->)%(omap_block f io k);
    try assumption.
  exists g. split; [exact Hg|].
  rewrite (omap_previous f _ _ _ Hstr Hprev Hprevious).
  rewrite !omap_map_None by auto. cbn [omap list_omap]. rewrite Hsol, Hdbl.
  destruct (_kinetic_reactants io); reflexivity.
Qed.

Ltac setup_objects f :=
  match goal with
  | Hos : operator_insert [] ?io = Ok ?os |- _ =>
      rewrite (script_objects_with_setup f (bulk_node_ids (_mesh io))
                 (fun _ => []) io os
                 ltac:(intros ? ?; apply omap_block_setup; reflexivity) Hos),
        (omap_preamble f io ltac:(reflexivity)), concat_map_nil
  end.

(** X10: the script holds the solver knobs and the output selection once,
    the user punch once when there is one, the reaction rates in their order,
    and, when there is a dump, one call of its [print] with the number of
    chemical systems, after the blocks of the systems. *)
Theorem script_holds_the_setup io os :
  operator_insert [] io = Ok os ->
  omap select_knobs os = [_knobs io] /\
  omap select_output os = [_output io] /\
  omap select_user_punch os = option_list (_user_punch io) /\
  omap select_rate os = _reaction_rates io /\
  omap select_dump_print os
  = option_list ((fun dump => (dump, NumberOfBaseNodes (_mesh io)))
                   <$> _dump io).
Proof.
  intros Hos. repeat split.
  - setup_objects uconstr:(select_knobs).
    rewrite omap_map_None by reflexivity.
    destruct (_user_punch io), (_dump io); reflexivity.
  - setup_objects uconstr:(select_output).
    rewrite omap_map_None by reflexivity.
    destruct (_user_punch io), (_dump io); reflexivity.
  - setup_objects uconstr:(select_user_punch).
    rewrite omap_map_None by reflexivity.
    destruct (_user_punch io), (_dump io); reflexivity.
  - setup_objects uconstr:(select_rate).
    rewrite (omap_map_Some _ _ (fun r => r) (_reaction_rates io))
      by reflexivity.
    rewrite map_id.
    destruct (_user_punch io), (_dump io); cbn [omap list_omap app select_rate];
      rewrite ?app_nil_r; reflexivity.
  - setup_objects uconstr:(select_dump_print).
    rewrite omap_map_None by reflexivity.
    destruct (_user_punch io), (_dump io); reflexivity.
Qed.

End ScriptContents.

(** ** Points *)

Section PointOrder.
Context {T : Type}.
Variable less : T -> T -> bool.

Lemma operator_index_lookup {DIM} (p : TemplatePoint T DIM) (i : nat) x :
  _x p !! i = Some x ->
  operator_index p (N.of_nat i) = Ok x.
Proof. unfold operator_index. rewrite Nat2N.id. intros ->. reflexivity. Qed.

Lemma operator_less_from_drop {DIM} (a b : TemplatePoint T DIM) :
  forall steps i, i + steps = DIM ->
  operator_less_from less a b i steps
  = Ok (lexicographic less (drop i (_x a))
                           (drop i (_x b))).
Proof.
  induction steps as [|steps IH]; intros i Hi; cbn [operator_less_from].
  - rewrite !drop_ge by (rewrite _x_size; lia). reflexivity.
  - destruct (lookup_lt_is_Some_2 (_x a) i) as (ai & Hai);
      [rewrite _x_size; lia|].
    destruct (lookup_lt_is_Some_2 (_x b) i) as (bi & Hbi);
      [rewrite _x_size; lia|].
    rewrite (operator_index_lookup a i ai Hai),
      (operator_index_lookup b i bi Hbi).
    unfold mbind, outcome_bind, obind.
    rewrite (drop_S _ _ _ Hai), (drop_S _ _ _ Hbi). cbn [lexicographic].
    destruct (less bi ai); [reflexivity|].
    destruct (less ai bi); [reflexivity|].
    apply IH. lia.
Qed.

Lemma operator_less_lexicographic {DIM} (a b : TemplatePoint T DIM) :
  operator_less less a b
  = Ok (lexicographic less (_x a) (_x b)).
Proof. apply (operator_less_from_drop a b DIM 0). reflexivity. Qed.

Lemma less_asymmetric x y :
  strict_total_order less -> less x y = true -> less y x = false.
Proof.
  intros (Hirr & Htrans & _) Hxy. destruct (less y x) eqn:Hyx; [|reflexivity].
  rewrite <- (Hirr x). symmetry. eapply Htrans; eassumption.
Qed.

Lemma lexicographic_irreflexive xs :
  strict_total_order less -> lexicographic less xs xs = false.
Proof.
  intros (Hirr & _). induction xs as [|x xs IH]; [reflexivity|].
  cbn [lexicographic]. rewrite Hirr. exact IH.
Qed.

Lemma lexicographic_transitive :
  strict_total_order less -> forall xs ys zs,
  lexicographic less xs ys = true -> lexicographic less ys zs = true ->
  lexicographic less xs zs = true.
Proof.
  intros Horder. pose proof Horder as (Hirr & Htrans & Htotal).
  induction xs as [|x xs IH]; intros [|y ys] [|z zs]; cbn [lexicographic];
    try discriminate.
  destruct (less y x) eqn:Hyx; [discriminate|].
  destruct (less x y) eqn:Hxy.
  - intros _. destruct (less z y) eqn:Hzy; [discriminate|].
    destruct (less y z) eqn:Hyz.
    + intros _. rewrite (Htrans _ _ _ Hxy Hyz).
      rewrite (less_asymmetric _ _ Horder (Htrans _ _ _ Hxy Hyz)).
      reflexivity.
    + pose proof (Htotal _ _ Hyz Hzy) as ->. rewrite Hxy, Hyx. reflexivity.
  - pose proof (Htotal _ _ Hxy Hyx) as ->.
    destruct (less z y), (less y z); try discriminate; [reflexivity|].
    apply IH.
Qed.

Lemma lexicographic_total :
  strict_total_order less -> forall xs ys,
  length xs = length ys ->
  lexicographic less xs ys = false -> lexicographic less ys xs = false ->
  xs = ys.
Proof.
  intros (Hirr & Htrans & Htotal).
  induction xs as [|x xs IH]; intros [|y ys]; try discriminate; [reflexivity|].
  cbn [lexicographic length]. intros [= Hlen].
  destruct (less y x) eqn:Hyx, (less x y) eqn:Hxy; try discriminate.
  - pose proof (Htrans _ _ _ Hxy Hyx) as Hxx. rewrite Hirr in Hxx.
    discriminate.
  - pose proof (Htotal _ _ Hxy Hyx) as ->.
    intros H1 H2. f_equal. apply IH; assumption.
Qed.

(** X19: [operator<] compares the coordinates in lexicographic order and
    never fails its assertion: it yields true exactly when, at the first
    dimension where one coordinate is less than the other, the coordinate of
    [a] is the lesser one. *)
Theorem operator_less_is_lexicographic {DIM} (a b : TemplatePoint T DIM) :
  exists r, operator_less less a b = Ok r /\
    (r = true <->
     exists i x y,
       _x a !! i = Some x /\ _x b !! i = Some y /\
       less x y = true /\ less y x = false /\
       forall j u v, j < i ->
         _x a !! j = Some u -> _x b !! j = Some v ->
         less u v = false /\ less v u = false).
Proof.
  eexists. split; [apply operator_less_lexicographic|].
  generalize (_x a) (_x b). clear a b.
  induction l as [|x xs IH]; intros [|y ys]; cbn [lexicographic].
  - split; [discriminate|]. intros (i & ? & ? & [=] & _).
  - split; [discriminate|]. intros (i & ? & ? & [=] & _).
  - split; [discriminate|]. intros (i & ? & ? & _ & [=] & _).
  - destruct (less y x) eqn:Hyx.
    { split; [discriminate|]. intros ([|i] & u & v & Hu & Hv & Huv & Hvu & Hbefore).
      - cbn in Hu, Hv. simplify_eq. congruence.
      - destruct (Hbefore 0 x y) as (_ & Hcontra); [lia|reflexivity|reflexivity|].
        congruence. }
    destruct (less x y) eqn:Hxy.
    { split; [intros _|reflexivity]. exists 0, x, y.
      split; [reflexivity|]. split; [reflexivity|]. split; [assumption|].
      split; [assumption|]. intros j u v Hj. lia. }
    rewrite IH. split.
    + intros (i & u & v & Hu & Hv & Huv & Hvu & Hbefore).
      exists (S i), u, v.
      split; [exact Hu|]. split; [exact Hv|]. split; [exact Huv|].
      split; [exact Hvu|]. intros [|j] u' v' Hj Hu' Hv'.
      * cbn in Hu', Hv'. simplify_eq. auto.
      * apply (Hbefore j u' v'); [lia|exact Hu'|exact Hv'].
    + intros ([|i] & u & v & Hu & Hv & Huv & Hvu & Hbefore).
      * cbn in Hu, Hv. simplify_eq. congruence.
      * exists i, u, v.
        split; [exact Hu|]. split; [exact Hv|]. split; [exact Huv|].
        split; [exact Hvu|]. intros j u' v' Hj Hu' Hv'.
        apply (Hbefore (S j) u' v'); [lia|exact Hu'|exact Hv'].
Qed.

(** X20: when [<] is a strict total order on the coordinate type,
    [operator<] is a strict total order on the points of a dimension:
    irreflexive, transitive, and two points neither of which is less than the
    other have the same coordinates. *)
Theorem operator_less_is_a_strict_total_order {DIM}
    (a b c : TemplatePoint T DIM) :
  strict_total_order less ->
  operator_less less a a = Ok false /\
  (operator_less less a b = Ok true -> operator_less less b c = Ok true ->
   operator_less less a c = Ok true) /\
  (operator_less less a b = Ok false -> operator_less less b a = Ok false ->
   _x a = _x b).
Proof.
  intros Horder. rewrite !operator_less_lexicographic. repeat split.
  - rewrite lexicographic_irreflexive by assumption. reflexivity.
  - intros Hab%Ok_inj Hbc%Ok_inj.
    rewrite (lexicographic_transitive Horder _ _ _ Hab Hbc). reflexivity.
  - intros Hab%Ok_inj Hba%Ok_inj.
    apply (lexicographic_total Horder); [|assumption|assumption].
    rewrite !_x_size. reflexivity.
Qed.

End PointOrder.

(** ** [maxNormDist] in binary64 *)

Lemma abs_nan (d : float) :
  Prim2SF (abs d) = S754_nan <-> Prim2SF d = S754_nan.
Proof.
  rewrite FloatAxioms.abs_spec. destruct (Prim2SF d); cbn; split; congruence.
Qed.

(** [std::max(a, b)] is NaN exactly when its first argument is. *)
Lemma fmax_nan (a b : float) :
  Prim2SF (fmax a b) = S754_nan <-> Prim2SF a = S754_nan.
Proof.
  unfold fmax. destruct (a <? b)%float eqn:Hlt; [|reflexivity].
  rewrite FloatAxioms.ltb_spec in Hlt. unfold SFltb in Hlt.
  destruct (Prim2SF a), (Prim2SF b); cbn in Hlt; try discriminate;
    split; congruence.
Qed.

(** X23: [maxNormDist] never fails the assertion of [operator[]], and its
    result is NaN exactly when the difference of the first coordinates is: a
    NaN in the second or in the third difference is dropped by
    [std::max]. *)
Theorem maxNormDist_is_nan_iff (p0 p1 : TemplatePoint float 3) :
  exists a0 b0 r,
    operator_index p0 0 = Ok a0 /\ operator_index p1 0 = Ok b0 /\
    maxNormDist p0 p1 = Ok r /\
    (Prim2SF r = S754_nan <-> Prim2SF (b0 - a0) = S754_nan).
Proof.
  unfold maxNormDist, operator_index.
  pose proof (_x_size p0) as Hlen0. pose proof (_x_size p1) as Hlen1.
  destruct (_x p0) as [|a0 [|a1 [|a2 [|? ?]]]]; try discriminate.
  destruct (_x p1) as [|b0 [|b1 [|b2 [|? ?]]]]; try discriminate.
  change (N.to_nat 0) with 0%nat. change (N.to_nat 1) with 1%nat.
  change (N.to_nat 2) with 2%nat. cbn [lookup list_lookup].
  unfold mbind, outcome_bind, obind.
  exists a0, b0. eexists. repeat (split; [reflexivity|]).
  rewrite fmax_nan. apply abs_nan.
Qed.

(* ================================================================== *)
(** * Part III: the properties on example configurations *)
(* ================================================================== *)

Open Scope string_scope.

Ltac table_is_ok :=
  repeat first [ split | reflexivity | apply Forall_nil | apply Forall_cons ].

(** C7 on the calcite table, followed by more text. *)
Lemma extract_reads_one_row_per_system_witness :
  operator_extract stod_digits
    (lines_then (table_lines calcite_header calcite_blocks) "left over")
    calcite_before
  = (read_rows stod_digits [1; 0]%N 0 ["1 7 4 15 5"; "1 8 5 25 6"]
       calcite_before ≫= fun io' => Ok ("left over", io')).
Proof.
  apply (extract_reads_one_row_per_system stod_digits calcite_before
           calcite_header calcite_blocks "left over"); table_is_ok.
Defined.

(** C6 on the calcite table and the same table with other numbers in the
    dropped column. *)
Lemma dropped_columns_do_not_matter_witness :
  operator_extract stod_digits
    (lines_then (table_lines calcite_header calcite_blocks) "") calcite_before
  = operator_extract stod_digits
      (lines_then (table_lines calcite_header calcite_blocks_other) "")
      calcite_before.
Proof.
  apply (dropped_columns_do_not_matter stod_digits calcite_before);
    [table_is_ok | table_is_ok |].
  repeat first [ apply Forall2_nil | apply Forall2_cons ];
    (split; [reflexivity|]);
    (intros [|i] Hi; [exfalso; apply Hi; left | reflexivity]).
Defined.

(** C8 on the calcite table with the item "abc" in the row of the second
    system. *)
Lemma conversion_failure_is_fatal_witness :
  exists col' token' e,
    (col', token') ∈ kept_items [0%Z] 0 (row_items "1 8 abc 25 6") /\
    (col' <= 2)%Z /\
    stod_error (stod_digits token') token' 0 col' = Some e /\
    operator_extract stod_digits
      (lines_then (table_lines calcite_header calcite_blocks_abc) "")
      calcite_before
    = Fatal e calcite_after_first_row.
Proof.
  apply (conversion_failure_is_fatal stod_digits calcite_before calcite_header
           calcite_blocks_abc "" 1
           (mkTableBlock ["1 0 0 0 0"] "1 8 abc 25 6") 0%N
           calcite_after_first_row 2%Z "abc").
  - table_is_ok.
  - reflexivity.
  - reflexivity.
  - vm_compute. reflexivity.
  - vm_compute. reflexivity.
  - apply list_elem_of_In. vm_compute. tauto.
  - vm_compute. discriminate.
Defined.

(** C1, as the code has it, on the calcite table with a short row for the
    second system. *)
Lemma arity_mismatch_is_fatal_witness :
  exists e,
    operator_extract stod_digits
      (lines_then (table_lines calcite_header calcite_blocks_short) "")
      calcite_before
    = Fatal e calcite_after_first_row /\
    ((exists col token,
        (col, token) ∈ kept_items [0%Z] 0 (row_items "1 8 5") /\
        stod_error (stod_digits token) token 0 col = Some e /\
        error_system e = Some 0%N) \/
     (e = AssertionFailed size_assertion /\ error_system e = None)).
Proof.
  apply (arity_mismatch_is_fatal stod_digits calcite_before calcite_header
           calcite_blocks_short "" 1 (mkTableBlock ["1 0 0 0 0"] "1 8 5") 0%N
           calcite_after_first_row).
  - table_is_ok.
  - reflexivity.
  - reflexivity.
  - vm_compute. reflexivity.
  - vm_compute. reflexivity.
  - apply (bool_decide_unpack _). vm_compute. exact I.
  - intros d Hd. apply list_elem_of_In in Hd. vm_compute in Hd.
    destruct Hd as [<-|[]]. vm_compute. split; [discriminate|reflexivity].
  - vm_compute. discriminate.
Defined.

(** C1 does not hold as stated.  With accepted items pH and pe and dropped
    column 2, a row is expected to have 3 items.  The row "7 4" has 2: it is
    read without any error and pH and pe of the system are overwritten.  The
    row "7 4 1 9" has 4: the run stops at the assertion, whose error names no
    system. *)
Lemma arity_mismatch_counterexample :
  length (row_items "7 4")
    <> length (accepted_items last_dropped_output)
       + length (dropped_item_ids last_dropped_output) /\
  operator_extract stod_digits
    (lines_then (table_lines "pH pe sim" [mkTableBlock ["0 0 1"] "7 4"]) "")
    (last_dropped_io 0 0)
  = Ok ("", last_dropped_io 7 4) /\
  length (row_items "7 4 1 9")
    <> length (accepted_items last_dropped_output)
       + length (dropped_item_ids last_dropped_output) /\
  operator_extract stod_digits
    (lines_then (table_lines "pH pe sim" [mkTableBlock ["0 0 1"] "7 4 1 9"]) "")
    (last_dropped_io 0 0)
  = Fatal (AssertionFailed size_assertion) (last_dropped_io 0 0) /\
  error_system (AssertionFailed size_assertion) = None.
Proof.
  split; [vm_compute; discriminate|].
  split; [vm_compute; reflexivity|].
  split; [vm_compute; discriminate|].
  split; [vm_compute; reflexivity|reflexivity].
Qed.

(** C3 on the calcite configuration, whose index map is [1; 0]: the block of
    the system at position 0 is keyed 2 and the value 5 of its row is entry 1
    of the amounts of Calcite. *)
Lemma index_lockstep_witness :
  keys_after "SOLUTION " calcite_script !! 0 = Some 2%N /\
  array_entry calcite_after ItemType.EquilibriumPhase "Calcite" 1
    = Some 5%float.
Proof.
  apply (index_lockstep stod_digits calcite_before calcite_header
           calcite_blocks "" "" calcite_after calcite_script 0 1%N
           (mkTableBlock ["1 0 0 0 0"] "1 7 4 15 5")
           [7; 4; 15; 5]%float 3 5%float
           (mkOutputItem "Calcite" ItemType.EquilibriumPhase)).
  - table_is_ok.
  - apply (bool_decide_unpack _). vm_compute. exact I.
  - vm_compute. reflexivity.
  - vm_compute. reflexivity.
  - vm_compute. lia.
  - reflexivity.
  - reflexivity.
  - reflexivity.
  - vm_compute. reflexivity.
  - vm_compute. reflexivity.
  - reflexivity.
  - reflexivity.
  - reflexivity.
  - intros [|[|[|[|[|c']]]]] item' Hlt Hitem; try lia; discriminate.
Defined.

Ltac is_well_sized :=
  unfold well_sized; cbn;
  repeat first [ split | lia | right; lia | left; reflexivity | reflexivity ].

(** C5 on the configuration with surface sites and the index map [1; 0]. *)
Lemma block_keys_are_global_ids_witness :
  exists os, operator_insert [] (surface_io (Some (mkDump [tt; tt]))) = Ok os /\
    keys_after "SOLUTION " os = [2; 1]%N /\
    keys_after "USE solution " os = [2; 1]%N /\
    keys_after "EQUILIBRIUM_PHASES " os = [2; 1]%N /\
    keys_after "KINETICS " os = [2; 1]%N /\
    keys_after "SURFACE " os = [2; 1]%N /\
    keys_after "SAVE solution " os = [2; 1]%N.
Proof.
  apply (block_keys_are_global_ids (surface_io (Some (mkDump [tt; tt])))).
  - is_well_sized.
  - cbn. repeat constructor.
Defined.

(** The two cases of C2 when there is a dump, with a dump that holds
    previous solutions and with a dump that holds none. *)
Lemma surface_equilibrates_with_witness :
  (exists os, operator_insert [] (surface_io (Some (mkDump [tt; tt]))) = Ok os /\
     keys_after "-equilibrate with solution " os = [4; 3]%N) /\
  (exists os, operator_insert [] (surface_io (Some (mkDump []))) = Ok os /\
     keys_after "-equilibrate with solution " os = [2; 1]%N).
Proof.
  split.
  - apply (surface_equilibrates_with (surface_io (Some (mkDump [tt; tt])))
             (mkDump [tt; tt])).
    + is_well_sized.
    + discriminate.
    + reflexivity.
    + cbn. repeat constructor.
  - apply (surface_equilibrates_with (surface_io (Some (mkDump [])))
             (mkDump [])).
    + is_well_sized.
    + discriminate.
    + reflexivity.
    + cbn. repeat constructor.
Defined.

(** C2 at the input where the code departs from it: with surface sites, two
    systems and no dump, no script is written, so no index [g + 1]; the
    SURFACE block of the first system dereferences the null dump.  The
    previous solutions and the dump print test the dump: a configuration
    without surface sites and without a dump is serialized. *)
Lemma surface_without_dump_is_undefined :
  _surface (surface_io None) <> [] /\
  _dump (surface_io None) = None /\
  operator_insert [] (surface_io None) = Undefined NullDereference /\
  (~ exists os, operator_insert [] (surface_io None) = Ok os /\
       keys_after "-equilibrate with solution " os = [2; 1]%N) /\
  _surface calcite_before = [] /\
  _dump calcite_before = None /\
  operator_insert [] calcite_before = Ok calcite_script.
Proof.
  split; [discriminate|]. split; [reflexivity|]. split; [reflexivity|].
  split; [|repeat split; reflexivity].
  intros (os & Hos & _). vm_compute in Hos. discriminate.
Qed.

(** C9 on the configuration with surface sites and no dump. *)
Lemma surface_needs_dump_witness :
  exists u, operator_insert [] (surface_io None) = Undefined u /\
    (is_Some (bulk_node_ids (_mesh (surface_io None)) !! 0) ->
     is_Some (_aqueous_solutions (surface_io None) !! 0) ->
     u = NullDereference).
Proof.
  apply (surface_needs_dump (surface_io None) []).
  - discriminate.
  - discriminate.
  - reflexivity.
Defined.

Ltac is_transport_sized :=
  unfold transport_sized; cbn;
  repeat first
    [ split | lia | cbn [fst]; lia | apply Forall_nil | apply Forall_cons
    | eexists; split; [reflexivity | cbn; lia] ].




(** ** The further properties on the examples *)

(** X1 on the calcite table cut after the block of the first system. *)
Lemma truncated_table_is_fatal_witness :
  operator_extract stod_digits
    (lines_then
       (table_lines calcite_header [mkTableBlock ["1 0 0 0 0"] "1 7 4 15 5"])
       "")
    calcite_before
  = Fatal (ReadResultError 0) calcite_after_first_row.
Proof.
  apply (truncated_table_is_fatal stod_digits calcite_before calcite_header
           [mkTableBlock ["1 0 0 0 0"] "1 7 4 15 5"] "" 0%N
           calcite_after_first_row).
  - reflexivity.
  - table_is_ok.
  - cbn. lia.
  - reflexivity.
  - vm_compute. reflexivity.
  - cbn. lia.
Defined.

(** X2 on a table whose only data row is made of two spaces. *)
Lemma blank_row_is_fatal_witness :
  row_items "  " = [""] /\
  operator_extract stod_digits
    (lines_then (table_lines "pH pe sim" [mkTableBlock ["0 0 1"] "  "]) "")
    (last_dropped_io 0 0)
  = Fatal (StodInvalidArgument "" 0 0 "stod") (last_dropped_io 0 0).
Proof.
  apply (blank_row_is_fatal stod_digits (last_dropped_io 0 0) "pH pe sim"
           [mkTableBlock ["0 0 1"] "  "] "" 0 (mkTableBlock ["0 0 1"] "  ") 0%N
           (last_dropped_io 0 0) "stod").
  - table_is_ok.
  - reflexivity.
  - reflexivity.
  - reflexivity.
  - reflexivity.
  - intros Hin. apply list_elem_of_In in Hin. cbn in Hin.
    destruct Hin as [[=]|[]].
  - reflexivity.
Defined.

(** X3 on a row with leading and trailing spaces and runs of separators. *)
Lemma row_items_of_a_row_witness :
  row_items (row_text " " "1" [("  ", "7"); (String tab " ", "4")] " ")
  = ["1"; "7"; "4"].
Proof.
  apply (row_items_of_a_row " " "1" [("  ", "7"); (String tab " ", "4")] " ").
  - reflexivity.
  - reflexivity.
  - unfold is_token. split; [discriminate|reflexivity].
  - unfold is_token, is_separator.
    repeat first [ split | discriminate | reflexivity
                 | apply Forall_nil | apply Forall_cons ].
Defined.

(** X4 on the calcite table. *)
Lemma extract_succeeds_witness :
  exists io',
    operator_extract stod_digits
      (lines_then (table_lines calcite_header calcite_blocks) "left over")
      calcite_before
    = Ok ("left over", io').
Proof.
  apply (extract_succeeds stod_digits calcite_before calcite_header
           calcite_blocks "left over").
  - table_is_ok.
  - cbn. lia.
  - cbn. lia.
  - repeat first [ split | reflexivity | apply Forall_nil | apply Forall_cons
                 | eexists; vm_compute; reflexivity ].
  - intros k g item Hk Hg Hitem. cbn in Hk.
    apply list_elem_of_In in Hitem. cbn in Hitem.
    destruct k as [|[|k]]; [| |lia]; injection Hg as <-;
      destruct Hitem as [<-|[<-|[<-|[<-|[]]]]]; vm_compute; eauto.
Defined.

(** X5 on the calcite table: the amount of Calcite has an entry for the
    system at position 0, whose global id is 1. *)
Lemma extract_needs_every_entry_witness :
  is_Some (entry calcite_before 0 1 ItemType.EquilibriumPhase "Calcite").
Proof.
  apply (extract_needs_every_entry stod_digits
           (lines_then (table_lines calcite_header calcite_blocks) "")
           calcite_before "" calcite_after 0 1%N
           (mkOutputItem "Calcite" ItemType.EquilibriumPhase)).
  - vm_compute. reflexivity.
  - vm_compute. reflexivity.
  - cbn. lia.
  - reflexivity.
  - apply list_elem_of_In. cbn. tauto.
Defined.

(** X6 on the calcite table. *)
Lemma extract_keeps_the_shape_witness : same_shape calcite_before calcite_after.
Proof.
  apply (extract_keeps_the_shape stod_digits
           (lines_then (table_lines calcite_header calcite_blocks) "")
           calcite_before "" calcite_after).
  vm_compute. reflexivity.
Defined.

(** X7: the output accepts the pH and the pe only, and the amount of the
    component Ca is as it was. *)
Lemma extract_writes_routed_entries_only_witness :
  entry (last_dropped_io 7 4) 0 0 ItemType.Component "Ca"
  = entry (last_dropped_io 0 0) 0 0 ItemType.Component "Ca".
Proof.
  apply (extract_writes_routed_entries_only stod_digits
           (lines_then (table_lines "pH pe sim" [mkTableBlock ["0 0 1"] "7 4 9"])
              "")
           (last_dropped_io 0 0) "" (last_dropped_io 7 4)).
  - vm_compute. reflexivity.
  - intros k g item _ _ Hitem (Hty & _).
    apply list_elem_of_In in Hitem. cbn in Hitem.
    destruct Hitem as [<-|[<-|[]]]; discriminate.
Defined.

(** X8 on the calcite table, whose index map is [1; 0]: the pH 7 of the first
    row is the pH of the solution at position 0. *)
Lemma scalars_are_indexed_by_local_id_witness :
  scalar_entry calcite_after 0 ItemType.pH "pH" = Some 7%float.
Proof.
  apply (scalars_are_indexed_by_local_id stod_digits calcite_before
           calcite_header calcite_blocks "" "" calcite_after 0 1%N
           (mkTableBlock ["1 0 0 0 0"] "1 7 4 15 5")
           [7; 4; 15; 5]%float 0 7%float (mkOutputItem "pH" ItemType.pH)).
  - table_is_ok.
  - vm_compute. reflexivity.
  - reflexivity.
  - reflexivity.
  - vm_compute. reflexivity.
  - vm_compute. reflexivity.
  - reflexivity.
  - reflexivity.
  - reflexivity.
  - intros [|[|[|[|[|c']]]]] item' Hlt Hitem (Hty & _); try lia;
      cbn in Hitem; simplify_eq; discriminate.
Defined.

(** X9 on the configuration with surface sites and a dump. *)
Lemma serializer_defined_iff_well_sized_witness :
  (exists os', operator_insert [] (surface_io (Some (mkDump [tt; tt]))) = Ok os')
  <-> well_sized (surface_io (Some (mkDump [tt; tt]))).
Proof.
  apply (serializer_defined_iff_well_sized
           (surface_io (Some (mkDump [tt; tt]))) []).
  discriminate.
Defined.

(** X10 on the configuration with surface sites and a dump. *)
Lemma script_holds_the_setup_witness :
  omap select_knobs surface_script = [tt] /\
  omap select_output surface_script = [calcite_output] /\
  omap select_user_punch surface_script = [] /\
  omap select_rate surface_script = [] /\
  omap select_dump_print surface_script = [(mkDump [tt; tt], 2%N)].
Proof.
  apply (script_holds_the_setup (surface_io (Some (mkDump [tt; tt])))
           surface_script).
  vm_compute. reflexivity.
Defined.

(** X11 on the configuration with surface sites and a dump. *)
Lemma script_holds_the_solutions_witness :
  solutions_of surface_script
  = [calcium_solution 7 4 1; calcium_solution 7 4 2]%float /\
  previous_of surface_script = [tt; tt].
Proof.
  apply (script_holds_the_solutions (surface_io (Some (mkDump [tt; tt])))
           surface_script).
  vm_compute. reflexivity.
Defined.

(** X12 on the configuration with surface sites, whose index map is
    [1; 0]. *)
Lemma script_prints_at_global_ids_witness :
  phase_prints surface_script
  = [(mkEquilibriumPhase "Calcite" [0; 0]%float, 1%N);
     (mkEquilibriumPhase "Calcite" [0; 0]%float, 0%N)] /\
  reactant_prints surface_script
  = [(mkKineticReactant "Pyrite" [0; 0]%float, 1%N);
     (mkKineticReactant "Pyrite" [0; 0]%float, 0%N)] /\
  steps_of surface_script = [0; 0]%float.
Proof.
  apply (script_prints_at_global_ids (surface_io (Some (mkDump [tt; tt])))
           surface_script).
  vm_compute. reflexivity.
Defined.

(** X13 on the transport example, whose process id map binds "H" and
    "Ca". *)
Lemma setting_writes_bound_values_only_witness :
  exists io',
    setAqueousSolutionsOrUpdateProcessSolutions transport_io transport_vectors
      Status.SettingAqueousSolutions = Ok (io', transport_vectors) /\
    io' = with_aqueous_solutions transport_io (_aqueous_solutions io') /\
    Forall2 (solution_kept ["H"; "Ca"]) (_aqueous_solutions transport_io)
      (_aqueous_solutions io') /\
    forall k, 2 <= k ->
      _aqueous_solutions io' !! k = _aqueous_solutions transport_io !! k.
Proof.
  eexists. split; [reflexivity|].
  refine (proj2 (setting_writes_bound_values_only transport_io
                   transport_vectors _ transport_vectors _)).
  reflexivity.
Defined.

(** X14 on the transport example: after setting, the amount of Ca of the
    solution at position 0, whose global id is 1, is the entry 7 of process 1
    at 1, and its pH is [-log10 3]. *)
Lemma setting_reads_the_entries_witness :
  (forall pid var a,
     (pid, var) ∈ [(0%Z, "H"); (1%Z, "Ca")] ->
     amount_of (hydrogen_solution (- (ln 3 / ln 10)) 3 7) var = Some a ->
     transport_value transport_vectors pid 1 = Some a) /\
  (forall pid, (pid, "H") ∈ [(0%Z, "H"); (1%Z, "Ca")] ->
     exists x, transport_value transport_vectors pid 1 = Some x /\
       pH (hydrogen_solution (- (ln 3 / ln 10)) 3 7) = (- (ln x / ln 10))%R).
Proof.
  refine (setting_reads_the_entries transport_io transport_vectors
            (with_aqueous_solutions transport_io
               [hydrogen_solution (- (ln 3 / ln 10)) 3 7;
                hydrogen_solution (- (ln 2 / ln 10)) 2 5])
            transport_vectors 0 1%N
            (hydrogen_solution (- (ln 3 / ln 10)) 3 7) _ _ _ _ _).
  - reflexivity.
  - apply (bool_decide_unpack _). vm_compute. exact I.
  - cbn. lia.
  - reflexivity.
  - reflexivity.
Defined.

(** X15 on the transport example. *)
Lemma updating_writes_mapped_entries_only_witness :
  transport_io = transport_io /\
  map length [[Rpower 10 (- 8); Rpower 10 (- 7)]; [4; 2]]%R
  = map length transport_vectors /\
  forall p g,
    ((forall e, e ∈ [(0%Z, "H"); (1%Z, "Ca")] -> Z.to_nat (fst e) <> p) \/
     (forall k g0, k < 2 -> [1; 0]%N !! k = Some g0 -> g <> N.to_nat g0)) ->
    cell [[Rpower 10 (- 8); Rpower 10 (- 7)]; [4; 2]]%R p g
    = cell transport_vectors p g.
Proof.
  refine (updating_writes_mapped_entries_only transport_io transport_vectors
            transport_io [[Rpower 10 (- 8); Rpower 10 (- 7)]; [4; 2]]%R _).
  reflexivity.
Defined.

(** X16 on the transport example: the entry of process 1, bound to "Ca", at
    the global id 1 of the system at position 0 is the amount 2 of Ca. *)
Lemma updating_writes_the_amounts_witness :
  transport_value [[Rpower 10 (- 8); Rpower 10 (- 7)]; [4; 2]]%R 1 1
  = updated_value "Ca" (hydrogen_solution 7 1 2)
      (transport_value transport_vectors 1 1).
Proof.
  refine (updating_writes_the_amounts transport_io transport_vectors
            transport_io [[Rpower 10 (- 8); Rpower 10 (- 7)]; [4; 2]]%R
            0 1%N (hydrogen_solution 7 1 2) 1%Z "Ca" _ _ _ _ _ _ _).
  - reflexivity.
  - apply (bool_decide_unpack _). vm_compute. exact I.
  - apply (bool_decide_unpack _). vm_compute. exact I.
  - cbn. lia.
  - reflexivity.
  - reflexivity.
  - right. left.
Defined.

(** X17 on the transport example, for the system at position 0. *)
Lemma update_then_set_round_trip_witness :
  exists vecs1 io2 sol2,
    setAqueousSolutionsOrUpdateProcessSolutions transport_io transport_vectors
      Status.UpdatingProcessSolutions = Ok (transport_io, vecs1) /\
    setAqueousSolutionsOrUpdateProcessSolutions transport_io vecs1
      Status.SettingAqueousSolutions = Ok (io2, vecs1) /\
    _aqueous_solutions io2 !! 0 = Some sol2 /\
    pH sol2 = (- (ln (Rpower 10 (- 7)) / ln 10))%R /\ pe sol2 = 0%R /\
    forall nm, nm <> "H" ->
      amount_of sol2 nm = amount_of (hydrogen_solution 7 1 2) nm.
Proof.
  refine (update_then_set_round_trip transport_io transport_vectors
            0 1%N (hydrogen_solution 7 1 2) _ _ _ _ _ _ _).
  - is_transport_sized.
  - apply (bool_decide_unpack _). vm_compute. exact I.
  - apply (bool_decide_unpack _). vm_compute. exact I.
  - apply (bool_decide_unpack _). vm_compute. exact I.
  - cbn. lia.
  - reflexivity.
  - reflexivity.
Defined.


(** X20 on points with integer coordinates. *)
Lemma operator_less_is_a_strict_total_order_witness :
  operator_less Z.ltb point_1_2_3 point_1_2_3 = Ok false /\
  (operator_less Z.ltb point_1_2_3 point_1_2_4 = Ok true ->
   operator_less Z.ltb point_1_2_4 point_1_3_0 = Ok true ->
   operator_less Z.ltb point_1_2_3 point_1_3_0 = Ok true) /\
  (operator_less Z.ltb point_1_2_3 point_1_2_4 = Ok false ->
   operator_less Z.ltb point_1_2_4 point_1_2_3 = Ok false ->
   _x point_1_2_3 = _x point_1_2_4).
Proof.
  apply (operator_less_is_a_strict_total_order Z.ltb point_1_2_3 point_1_2_4
           point_1_3_0).
  split; [apply Z.ltb_irrefl|]. split.
  - intros x y z Hxy%Z.ltb_lt Hyz%Z.ltb_lt. apply Z.ltb_lt. lia.
  - intros x y Hxy%Z.ltb_ge Hyx%Z.ltb_ge. lia.
Defined.
